(** * HausdorffIsingModel: the IsingModel class of src/IsingModel.cpp

    A shallow embedding of the Ising model on a fractal lattice
    (Coleman and Marston, 2016) and the properties of its specification.

    Conventions of the embedding.
    - [int] is [Z]; signed overflow is undefined in C++ and is not modelled.
    - [double] is an abstract type with the operations the code applies to
      it ([FloatOps]); a theorem that needs a law of the arithmetic states it
      as a hypothesis.  [RealOps] interprets the operations over the real
      numbers (no rounding, no overflow).
    - A member function is a computation [M A] over the object's state with
      the outcomes a C++ call can have: it returns, an exception escapes,
      the process exits, the behaviour is undefined, or the fuel given to an
      unbounded loop runs out.
    - Names the translation unit uses without declaring them in the
      available sources ([xmin], [xmax], the comparison of two spins, the
      TRandom3 generator) are fields of the classes [Externals] and
      [RandomGen].  The tracing guarded by [debug] is left out. *)

From Stdlib Require Import ZArith List Bool String Lia Reals Lra Finite
  Permutation Sorted.
Import ListNotations.
Open Scope Z_scope.

(* ------------------------------------------------------------------ *)
(** ** Arithmetic on [double] *)

Class FloatOps (double : Type) := {
  of_int : Z -> double;                 (* int -> double conversion *)
  to_int : double -> Z;                 (* double -> int conversion *)
  dadd : double -> double -> double;
  dsub : double -> double -> double;
  dmul : double -> double -> double;
  ddiv : double -> double -> double;
  dopp : double -> double;
  dlt : double -> double -> bool;       (* x < y *)
  dle : double -> double -> bool;       (* x <= y *)
  deq : double -> double -> bool;       (* x == y *)
  dexp : double -> double;
  dlog : double -> double;
  dceil : double -> double;
  dfloor : double -> double;
  dabs : double -> double;
  dpow : double -> double -> double;
  disinf : double -> bool               (* std::isinf *)
}.

Declare Scope double_scope.
Delimit Scope double_scope with D.
Arguments of_int {double _} _%_Z.
Infix "+" := dadd : double_scope.
Infix "-" := dsub : double_scope.
Infix "*" := dmul : double_scope.
Infix "/" := ddiv : double_scope.
Notation "- x" := (dopp x) : double_scope.
Infix "<?" := dlt : double_scope.
Infix "<=?" := dle : double_scope.
Infix "=?" := deq : double_scope.

(* ------------------------------------------------------------------ *)
(** ** Outcomes of a call and the monad of member functions *)

Inductive exception := out_of_range | length_error.

Inductive outcome (St A : Type) :=
| Returned (a : A) (s : St)      (* normal return, with the state left *)
| Thrown (e : exception) (s : St)(* an exception escapes the call *)
| Exited (msg : string)          (* std::cout << msg; exit(EXIT_FAILURE) *)
| Undefined                      (* undefined behaviour *)
| OutOfFuel.                     (* an unbounded loop used up its fuel *)
Arguments Returned {St A} a s.
Arguments Thrown {St A} e s.
Arguments Exited {St A} msg.
Arguments Undefined {St A}.
Arguments OutOfFuel {St A}.

Definition M (St A : Type) := St -> outcome St A.

Definition ret {St A} (a : A) : M St A := fun s => Returned a s.

Definition bind {St A B} (c : M St A) (k : A -> M St B) : M St B :=
  fun s => match c s with
           | Returned a s' => k a s'
           | Thrown e s' => Thrown e s'
           | Exited msg => Exited msg
           | Undefined => Undefined
           | OutOfFuel => OutOfFuel
           end.

Notation "x <- c ;; k" := (bind c (fun x => k))
  (at level 61, c at next level, right associativity).
Notation "' pat <- c ;; k" := (bind c (fun x => match x with pat => k end))
  (at level 61, pat pattern, c at next level, right associativity).
Notation "c ;;; k" := (bind c (fun _ => k))
  (at level 61, right associativity).

Definition get {St} : M St St := fun s => Returned s s.
Definition gets {St A} (f : St -> A) : M St A := fun s => Returned (f s) s.
Definition modify {St} (f : St -> St) : M St unit := fun s => Returned tt (f s).
Definition throw {St A} (e : exception) : M St A := fun s => Thrown e s.
Definition exit_failure {St A} (msg : string) : M St A := fun _ => Exited msg.
Definition undefined {St A} : M St A := fun _ => Undefined.
Definition out_of_fuel {St A} : M St A := fun _ => OutOfFuel.

Definition when {St} (b : bool) (c : M St unit) : M St unit :=
  if b then c else ret tt.

(** [a && b] with operands that may throw: [b] runs only when [a] holds. *)
Definition andM {St} (a b : M St bool) : M St bool :=
  x <- a ;; if x then b else ret false.

(** A [for] loop over the index list [l], threading the locals [acc]. *)
Fixpoint foldM {St A B} (body : A -> B -> M St A) (l : list B) (acc : A)
  : M St A :=
  match l with
  | [] => ret acc
  | x :: l' => acc' <- body acc x ;; foldM body l' acc'
  end.

(** The indices [lo, lo+1, ..., hi-1] of [for(int i=lo; i<hi; i++)]. *)
Definition range (lo hi : Z) : list Z :=
  map (fun k => lo + Z.of_nat k) (seq 0 (Z.to_nat (hi - lo))).

Definition len {A} (v : list A) : Z := Z.of_nat (List.length v).

(** [v.at(i)]: the element, or std::out_of_range. *)
Definition at_ {St A} (v : list A) (i : Z) : M St A :=
  if i <? 0 then throw out_of_range
  else match nth_error v (Z.to_nat i) with
       | Some a => ret a
       | None => throw out_of_range
       end.

(** [v.at(i) = x] on a copy of [v]: the updated vector, or std::out_of_range. *)
Fixpoint update {A} (v : list A) (i : nat) (x : A) : list A :=
  match v, i with
  | [], _ => []
  | _ :: v', O => x :: v'
  | y :: v', S i' => y :: update v' i' x
  end.

Definition set_at {St A} (v : list A) (i : Z) (x : A) : M St (list A) :=
  if (i <? 0) || (len v <=? i) then throw out_of_range
  else ret (update v (Z.to_nat i) x).

(** [std::find(flips.begin(), flips.end(), i) != flips.end()] *)
Definition found (flips : list Z) (i : Z) : bool := existsb (Z.eqb i) flips.

(* ------------------------------------------------------------------ *)
(** ** The data model *)

(** [struct spin]: the spin value [S] (here [S_val]), the [active] flag
    and the coordinates of the lattice site. *)
Record spin (double : Type) := mkSpin {
  S_val : Z;
  active : bool;
  coords : list double
}.
Arguments mkSpin {double} _ _ _.
Arguments S_val {double} _.
Arguments active {double} _.
Arguments coords {double} _.

(** The data members of [IsingModel] that IsingModel.cpp reads or writes.
    The couplings [H] and [J] of the source are [Hc] and [Jc]. *)
Record IsingModel (double : Type) := mkIsingModel {
  spinArray : list (spin double);
  latticeDimensions : list Z;
  latticeDepth : Z;
  nThreads : Z;
  nSpins : Z;
  interactionSigma : double;
  hausdorffDim : double;
  hausdorffSlices : double;
  hausdorffScale : double;
  hausdorffMethod : string;
  mcMethod : string;
  nMCSteps : Z;
  kbT : double;
  Hc : double;
  Jc : double;
  magnetization : Z;
  currentEffH : double;
  mcInfo : list double;
  hybridInfo : list double;
  hasBeenSetup : bool
}.
Arguments mkIsingModel {double}.
Arguments spinArray {double} _.
Arguments latticeDimensions {double} _.
Arguments latticeDepth {double} _.
Arguments nThreads {double} _.
Arguments nSpins {double} _.
Arguments interactionSigma {double} _.
Arguments hausdorffDim {double} _.
Arguments hausdorffSlices {double} _.
Arguments hausdorffScale {double} _.
Arguments hausdorffMethod {double} _.
Arguments mcMethod {double} _.
Arguments nMCSteps {double} _.
Arguments kbT {double} _.
Arguments Hc {double} _.
Arguments Jc {double} _.
Arguments magnetization {double} _.
Arguments currentEffH {double} _.
Arguments mcInfo {double} _.
Arguments hybridInfo {double} _.
Arguments hasBeenSetup {double} _.

(** What IsingModel.cpp uses and the available sources do not declare:
    the lattice extremes [xmin] and [xmax] of the boundary test and the
    [operator>] on spins that QSPartition sorts by. *)
Class Externals (double : Type) := {
  xmin : double;
  xmax : double;
  spin_gt : spin double -> spin double -> bool
}.

(** The part of ROOT's TRandom3 the code calls. *)
Class RandomGen (double rng : Type) := {
  TRandom3_new : rng;                      (* new TRandom3() *)
  TRandom3_seeded : Z -> rng;              (* new TRandom3(seed) *)
  Uniform : rng -> double * rng;           (* rNG->Uniform() *)
  Integer : Z -> rng -> Z * rng            (* rNG->Integer(imax) *)
}.

Section Assignments.
Context {double : Type}.
#[local] Abbreviation model := (IsingModel double).

(** Assignment to one data member. *)
Definition with_spinArray (v : list (spin double)) (m : model) : model :=
  let 'mkIsingModel _ a2 a3 a4 a5 a6 a7 a8 a9 a10 a11 a12 a13 a14 a15 a16 a17 a18 a19 a20 := m in
  mkIsingModel v a2 a3 a4 a5 a6 a7 a8 a9 a10 a11 a12 a13 a14 a15 a16 a17 a18 a19 a20.
Definition with_latticeDimensions (v : list Z) (m : model) : model :=
  let 'mkIsingModel a1 _ a3 a4 a5 a6 a7 a8 a9 a10 a11 a12 a13 a14 a15 a16 a17 a18 a19 a20 := m in
  mkIsingModel a1 v a3 a4 a5 a6 a7 a8 a9 a10 a11 a12 a13 a14 a15 a16 a17 a18 a19 a20.
Definition with_latticeDepth (v : Z) (m : model) : model :=
  let 'mkIsingModel a1 a2 _ a4 a5 a6 a7 a8 a9 a10 a11 a12 a13 a14 a15 a16 a17 a18 a19 a20 := m in
  mkIsingModel a1 a2 v a4 a5 a6 a7 a8 a9 a10 a11 a12 a13 a14 a15 a16 a17 a18 a19 a20.
Definition with_nThreads (v : Z) (m : model) : model :=
  let 'mkIsingModel a1 a2 a3 _ a5 a6 a7 a8 a9 a10 a11 a12 a13 a14 a15 a16 a17 a18 a19 a20 := m in
  mkIsingModel a1 a2 a3 v a5 a6 a7 a8 a9 a10 a11 a12 a13 a14 a15 a16 a17 a18 a19 a20.
Definition with_nSpins (v : Z) (m : model) : model :=
  let 'mkIsingModel a1 a2 a3 a4 _ a6 a7 a8 a9 a10 a11 a12 a13 a14 a15 a16 a17 a18 a19 a20 := m in
  mkIsingModel a1 a2 a3 a4 v a6 a7 a8 a9 a10 a11 a12 a13 a14 a15 a16 a17 a18 a19 a20.
Definition with_interactionSigma (v : double) (m : model) : model :=
  let 'mkIsingModel a1 a2 a3 a4 a5 _ a7 a8 a9 a10 a11 a12 a13 a14 a15 a16 a17 a18 a19 a20 := m in
  mkIsingModel a1 a2 a3 a4 a5 v a7 a8 a9 a10 a11 a12 a13 a14 a15 a16 a17 a18 a19 a20.
Definition with_hausdorffDim (v : double) (m : model) : model :=
  let 'mkIsingModel a1 a2 a3 a4 a5 a6 _ a8 a9 a10 a11 a12 a13 a14 a15 a16 a17 a18 a19 a20 := m in
  mkIsingModel a1 a2 a3 a4 a5 a6 v a8 a9 a10 a11 a12 a13 a14 a15 a16 a17 a18 a19 a20.
Definition with_hausdorffScale (v : double) (m : model) : model :=
  let 'mkIsingModel a1 a2 a3 a4 a5 a6 a7 a8 _ a10 a11 a12 a13 a14 a15 a16 a17 a18 a19 a20 := m in
  mkIsingModel a1 a2 a3 a4 a5 a6 a7 a8 v a10 a11 a12 a13 a14 a15 a16 a17 a18 a19 a20.
Definition with_hausdorffMethod (v : string) (m : model) : model :=
  let 'mkIsingModel a1 a2 a3 a4 a5 a6 a7 a8 a9 _ a11 a12 a13 a14 a15 a16 a17 a18 a19 a20 := m in
  mkIsingModel a1 a2 a3 a4 a5 a6 a7 a8 a9 v a11 a12 a13 a14 a15 a16 a17 a18 a19 a20.
Definition with_mcMethod (v : string) (m : model) : model :=
  let 'mkIsingModel a1 a2 a3 a4 a5 a6 a7 a8 a9 a10 _ a12 a13 a14 a15 a16 a17 a18 a19 a20 := m in
  mkIsingModel a1 a2 a3 a4 a5 a6 a7 a8 a9 a10 v a12 a13 a14 a15 a16 a17 a18 a19 a20.
Definition with_nMCSteps (v : Z) (m : model) : model :=
  let 'mkIsingModel a1 a2 a3 a4 a5 a6 a7 a8 a9 a10 a11 _ a13 a14 a15 a16 a17 a18 a19 a20 := m in
  mkIsingModel a1 a2 a3 a4 a5 a6 a7 a8 a9 a10 a11 v a13 a14 a15 a16 a17 a18 a19 a20.
Definition with_kbT (v : double) (m : model) : model :=
  let 'mkIsingModel a1 a2 a3 a4 a5 a6 a7 a8 a9 a10 a11 a12 _ a14 a15 a16 a17 a18 a19 a20 := m in
  mkIsingModel a1 a2 a3 a4 a5 a6 a7 a8 a9 a10 a11 a12 v a14 a15 a16 a17 a18 a19 a20.
Definition with_Hc (v : double) (m : model) : model :=
  let 'mkIsingModel a1 a2 a3 a4 a5 a6 a7 a8 a9 a10 a11 a12 a13 _ a15 a16 a17 a18 a19 a20 := m in
  mkIsingModel a1 a2 a3 a4 a5 a6 a7 a8 a9 a10 a11 a12 a13 v a15 a16 a17 a18 a19 a20.
Definition with_Jc (v : double) (m : model) : model :=
  let 'mkIsingModel a1 a2 a3 a4 a5 a6 a7 a8 a9 a10 a11 a12 a13 a14 _ a16 a17 a18 a19 a20 := m in
  mkIsingModel a1 a2 a3 a4 a5 a6 a7 a8 a9 a10 a11 a12 a13 a14 v a16 a17 a18 a19 a20.
Definition with_magnetization (v : Z) (m : model) : model :=
  let 'mkIsingModel a1 a2 a3 a4 a5 a6 a7 a8 a9 a10 a11 a12 a13 a14 a15 _ a17 a18 a19 a20 := m in
  mkIsingModel a1 a2 a3 a4 a5 a6 a7 a8 a9 a10 a11 a12 a13 a14 a15 v a17 a18 a19 a20.
Definition with_currentEffH (v : double) (m : model) : model :=
  let 'mkIsingModel a1 a2 a3 a4 a5 a6 a7 a8 a9 a10 a11 a12 a13 a14 a15 a16 _ a18 a19 a20 := m in
  mkIsingModel a1 a2 a3 a4 a5 a6 a7 a8 a9 a10 a11 a12 a13 a14 a15 a16 v a18 a19 a20.
Definition with_mcInfo (v : list double) (m : model) : model :=
  let 'mkIsingModel a1 a2 a3 a4 a5 a6 a7 a8 a9 a10 a11 a12 a13 a14 a15 a16 a17 _ a19 a20 := m in
  mkIsingModel a1 a2 a3 a4 a5 a6 a7 a8 a9 a10 a11 a12 a13 a14 a15 a16 a17 v a19 a20.
Definition with_hybridInfo (v : list double) (m : model) : model :=
  let 'mkIsingModel a1 a2 a3 a4 a5 a6 a7 a8 a9 a10 a11 a12 a13 a14 a15 a16 a17 a18 _ a20 := m in
  mkIsingModel a1 a2 a3 a4 a5 a6 a7 a8 a9 a10 a11 a12 a13 a14 a15 a16 a17 a18 v a20.
Definition with_hasBeenSetup (v : bool) (m : model) : model :=
  let 'mkIsingModel a1 a2 a3 a4 a5 a6 a7 a8 a9 a10 a11 a12 a13 a14 a15 a16 a17 a18 a19 _ := m in
  mkIsingModel a1 a2 a3 a4 a5 a6 a7 a8 a9 a10 a11 a12 a13 a14 a15 a16 a17 a18 a19 v.

Definition with_S_val (v : Z) (s : spin double) : spin double :=
  mkSpin v (active s) (coords s).

End Assignments.

(* ------------------------------------------------------------------ *)
(** ** The member functions *)

Section Members.
Context {double : Type} {FO : FloatOps double} {EX : Externals double}.
#[local] Abbreviation model := (IsingModel double).
#[local] Abbreviation Mm := (M (IsingModel double)).

(** *** Settings (lines 24-117) *)

Definition setNumThreads (num : Z) : Mm unit :=
  cur <- gets nThreads ;;
  if cur <? 1 then ret tt
  else modify (with_nThreads num) ;;; modify (with_hasBeenSetup false).

Definition setNumMCSteps (num : Z) : Mm unit :=
  if num <? 1 then ret tt
  else modify (with_nMCSteps num) ;;; modify (with_hasBeenSetup false).

Definition setLatticeDepth (num : Z) : Mm unit :=
  modify (with_latticeDepth num) ;;; modify (with_hasBeenSetup false).

Definition setInteractionSigma (sig : double) : Mm unit :=
  modify (with_interactionSigma sig) ;;; modify (with_hasBeenSetup false).

Definition setHausdorffDimension (dim : double) : Mm unit :=
  if (dim <=? of_int 0)%D then ret tt
  else modify (with_hausdorffDim dim) ;;; modify (with_hasBeenSetup false).

Definition setHausdorffMethod (hmtd : string) : Mm unit :=
  modify (with_hausdorffMethod hmtd) ;;; modify (with_hasBeenSetup false).

Definition setMCMethod (mcmd : string) : Mm unit :=
  modify (with_mcMethod mcmd) ;;; modify (with_hasBeenSetup false).

Definition setCouplingConsts (tH tJ : double) : Mm unit :=
  modify (with_Hc tH) ;;; modify (with_Jc tJ) ;;;
  modify (with_hasBeenSetup false).

Definition setTemperature (tkbT : double) : Mm unit :=
  if (tkbT <? of_int 0)%D then ret tt
  else modify (with_kbT tkbT) ;;; modify (with_hasBeenSetup false).

(** *** Observables (lines 144-264) *)

Definition getMagnetization : Mm Z :=
  arr <- gets spinArray ;;
  let mag := fold_left
               (fun mag it => mag + S_val it * (if active it then 1 else 0))
               arr 0 in
  modify (with_magnetization mag) ;;; ret mag.

(** Modelled from the spec: the accessors [getK] and [geth], called by
    getEffHamiltonian and not defined in the available sources, return the
    reduced coupling [K = J/k_BT] and the reduced field [h = H/k_BT]. *)
Definition getK : Mm double :=
  j <- gets Jc ;; t <- gets kbT ;; ret (j / t)%D.
Definition geth : Mm double :=
  h <- gets Hc ;; t <- gets kbT ;; ret (h / t)%D.

Definition getDistanceSq (s1 s2 : spin double) : Mm double :=
  sigma <- gets interactionSigma ;;
  if (sigma =? of_int 0)%D then ret (of_int 1)
  else
    distance <- foldM (fun distance i =>
                         a <- at_ (coords s1) i ;;
                         b <- at_ (coords s2) i ;;
                         ret (distance + dpow (a - b) (of_int 2))%D)
                      (range 0 (len (coords s1))) (of_int 0) ;;
    if (distance =? of_int 0)%D then ret (of_int 1) else ret distance.

(** The block of lines 208-216, repeated at lines 224-232: the coupling
    of spin [s] with the neighbour at [newIndex], when that one is active. *)
Definition neighbourTerm (flips : list Z) (s : spin double) (spinFlip : Z)
    (newIndex : Z) (energy : double) : Mm double :=
  arr <- gets spinArray ;;
  t <- at_ arr newIndex ;;
  if active t then
    let tspinFlip := if found flips newIndex then -1 else 1 in
    K <- getK ;;
    dsq <- getDistanceSq s t ;;
    sigma <- gets interactionSigma ;;
    ret (energy - K * dpow dsq (sigma / of_int 2)
                  * of_int (S_val s) * of_int (S_val t)
                  * of_int spinFlip * of_int tspinFlip / of_int 2)%D
  else ret energy.

Definition getEffHamiltonian (flips : list Z) : Mm double :=
  n <- gets nSpins ;;
  foldM (fun energy i =>
    arr <- gets spinArray ;;
    s <- at_ arr i ;;
    if negb (active s) then ret energy
    else
      let spinFlip := if found flips i then -1 else 1 in
      h <- geth ;;
      let energy := (energy - h * of_int (S_val s) * of_int spinFlip)%D in
      (* Nearest neighbor sum, no circular boundary conditions *)
      dims <- gets latticeDimensions ;;
      let p := len dims in
      foldM (fun energy j =>
        dj <- at_ dims j ;;
        let indexPM := dpow (of_int dj) (of_int (p - 1 - j)) in
        (* get to the left *)
        left <- andM (ret (indexPM - of_int 1 <? of_int i)%D)
                 (andM (c <- at_ (coords s) j ;; ret (negb (c =? xmin)%D))
                       (t <- at_ arr (to_int (of_int i - indexPM)%D) ;;
                        c <- at_ (coords t) j ;; ret (negb (c =? xmax)%D))) ;;
        energy <- (if left
                   then neighbourTerm flips s spinFlip
                          (to_int (of_int i - indexPM)%D) energy
                   else ret energy) ;;
        (* get to the right *)
        right <- andM (ret (of_int i + indexPM <? of_int n)%D)
                  (andM (c <- at_ (coords s) j ;; ret (negb (c =? xmax)%D))
                        (t <- at_ arr (to_int (of_int i + indexPM)%D) ;;
                         c <- at_ (coords t) j ;; ret (negb (c =? xmin)%D))) ;;
        if right
        then neighbourTerm flips s spinFlip
               (to_int (of_int i + indexPM)%D) energy
        else ret energy)
      (range 0 p) energy)
  (range 0 n) (of_int 0).

(** getEffHamiltonian(const int flip), lines 177-181 *)
Definition getEffHamiltonian1 (flip : Z) : Mm double :=
  getEffHamiltonian [flip].

(** The recursion of computePartitionFunction; [fuel] bounds its depth. *)
Fixpoint computePartitionFunction_rec (fuel : nat) (start : Z)
    (flips : list Z) : Mm double :=
  n <- gets nSpins ;;
  if n <=? start then ret (of_int 0)
  else
    match fuel with
    | O => out_of_fuel
    | S fuel' =>
        let Z_0 := of_int 0 in
        let newflips := flips ++ [start] in
        (* add e^-BH with S_i = +1 and S_i = -1 *)
        e <- getEffHamiltonian newflips ;;
        let Z_1 := (Z_0 + dexp e)%D in
        (* branch into computations with history *)
        z <- computePartitionFunction_rec fuel' (start + 1) newflips ;;
        let Z_2 := (Z_1 + z)%D in
        z' <- computePartitionFunction_rec fuel' (start + 1) flips ;;
        let Z_3 := (Z_2 + z')%D in
        if start =? 0
        then e0 <- getEffHamiltonian [] ;; ret (Z_3 + dexp e0)%D
        else ret Z_3
    end.

(** computePartitionFunction(start, flips): each call moves [start] one
    step towards [nSpins], so a depth of [nSpins - start] is enough. *)
Definition computePartitionFunction (start : Z) (flips : list Z) : Mm double :=
  n <- gets nSpins ;;
  computePartitionFunction_rec (Z.to_nat (n - start)) start flips.

(** *** Building the lattice (lines 275-398) *)

(** nextPermutation(tvN, max).  Every index it passes to [at] is below
    [tvN.size()], so no call throws; [i] is the loop index and [todo] the
    number of iterations left. *)
Fixpoint nextPermutation_loop (todo : nat) (i : nat) (tvN : list Z) (max : Z)
  : list Z :=
  match todo with
  | O => tvN
  | S todo' =>
      let x := nth i tvN 0 in
      if Nat.eqb i (List.length tvN - 1) then
        if x =? max - 1 then update tvN 0 (-1) else update tvN i (x + 1)
      else if x =? max - 1 then
        nextPermutation_loop todo' (S i) (update tvN i 0) max
      else update tvN i (x + 1)
  end.

Definition nextPermutation (tvN : list Z) (max : Z) : list Z :=
  nextPermutation_loop (List.length tvN) 0 tvN max.

(** [for(std::fill(v.begin(),v.end(),0); v.at(0) != -1; nextPermutation(v,max))]
    with the body [body v], at most [fuel] times round. *)
Fixpoint permutationLoop (fuel : nat) (v : list Z) (max : Z)
    (body : list Z -> Mm unit) : Mm unit :=
  v0 <- at_ v 0 ;;
  if v0 =? -1 then ret tt
  else
    match fuel with
    | O => out_of_fuel
    | S fuel' =>
        body v ;;;
        permutationLoop fuel' (nextPermutation v max) max body
    end.

(** [vec[i]], unchecked: outside the vector the behaviour is undefined. *)
Definition index_ {A} (vec : list A) (i : Z) : Mm A :=
  if i <? 0 then undefined
  else match nth_error vec (Z.to_nat i) with
       | Some a => ret a
       | None => undefined
       end.

(** swap(&vec[i], &vec[j]); QuickSort is only called on [spinArray], which
    it receives by reference. *)
Definition swap (i j : Z) : Mm unit :=
  vec <- gets spinArray ;;
  a <- index_ vec i ;;
  b <- index_ vec j ;;
  modify (with_spinArray (update (update vec (Z.to_nat i) b) (Z.to_nat j) a)).

Definition QSPartition (low high : Z) : Mm Z :=
  vec <- gets spinArray ;;
  pivot <- index_ vec high ;;
  i <- foldM (fun i j =>
                vec <- gets spinArray ;;
                vj <- index_ vec j ;;
                if negb (spin_gt vj pivot)
                then swap (i + 1) j ;;; ret (i + 1)
                else ret i)
             (range low high) (low - 1) ;;
  swap (i + 1) high ;;;
  ret (i + 1).

(** QuickSort(vec, left, right): the [while] loop is the second call of
    each branch; [fuel] bounds the depth. *)
Fixpoint QuickSort (fuel : nat) (left right : Z) : Mm unit :=
  if left <? right then
    match fuel with
    | O => out_of_fuel
    | S fuel' =>
        pi <- QSPartition left right ;;
        if pi - left <? right - pi
        then QuickSort fuel' left (pi - 1) ;;; QuickSort fuel' (pi + 1) right
        else QuickSort fuel' (pi + 1) right ;;; QuickSort fuel' left (pi - 1)
    end
  else ret tt.

(** Lines 321-332: the lower corner [cPos] of the hypercube at [vN]. *)
Definition cornerPosition (depth : Z) (x0 : list double) (delta : double)
    (vN : list Z) : Mm (list double) :=
  dims <- gets latticeDimensions ;;
  foldM (fun cPos iDim =>
    c <- at_ cPos iDim ;;
    x <- at_ x0 iDim ;;
    cPos <- set_at cPos iDim (c + x)%D ;;
    foldM (fun cPos iDepth =>
      depthVal <- at_ vN (iDim * depth + iDepth) ;;
      scale <- gets hausdorffScale ;;
      slices <- gets hausdorffSlices ;;
      let depthScale := (dpow scale (of_int (depth - iDepth)) * delta)%D in
      c <- at_ cPos iDim ;;
      set_at cPos iDim
        (c + (of_int 1 + (of_int 1 / scale - slices) / (slices - of_int 1))
             * depthScale * of_int depthVal)%D)
    (range 0 depth) cPos)
  (range 0 (len dims)) (repeat (of_int 0) (List.length dims)).

(** Lines 342-353: one spin at the corner [cubePoints] of that hypercube. *)
Definition addCorner (depth : Z) (delta : double) (cPos : list double)
    (cubePoints : list Z) : Mm unit :=
  dims <- gets latticeDimensions ;;
  tcoords <- foldM (fun tcoords index =>
               cp <- at_ cubePoints index ;;
               scale <- gets hausdorffScale ;;
               c <- at_ cPos index ;;
               set_at tcoords index
                 (of_int cp * dpow scale (of_int depth) * delta + c)%D)
             (range 0 (len cubePoints))
             (repeat (of_int 0) (List.length dims)) ;;
  let ts := mkSpin 1 true tcoords in
  arr <- gets spinArray ;;
  modify (with_spinArray (arr ++ [ts])) ;;;
  n <- gets nSpins ;;
  modify (with_nSpins (n + 1)).

(** addSpins(depth, x0, x1).  The size [latticeDimensions.size()*depth] of
    [vN] is computed in size_t: a negative product is a size no vector can
    have (std::length_error). *)
Definition addSpins (fuel : nat) (depth : Z) (x0 x1 : list double) : Mm unit :=
  a <- at_ x1 0 ;;
  b <- at_ x0 0 ;;
  let delta := dabs (a - b)%D in
  dims <- gets latticeDimensions ;;
  (if len dims * depth <? 0 then throw length_error else ret tt) ;;;
  let vN := repeat 0 (Z.to_nat (len dims * depth)) in
  slices <- gets hausdorffSlices ;;
  (* Loop over all valid positions for a spin hypercube *)
  permutationLoop fuel vN (to_int slices) (fun vN =>
    cPos <- cornerPosition depth x0 delta vN ;;
    (* place spins at each corner of a hypercube *)
    permutationLoop fuel (repeat 0 (List.length dims)) 2
      (addCorner depth delta cPos)) ;;;
  n <- gets nSpins ;;
  QuickSort (Z.to_nat n) 0 (n - 1).

(** Lines 383-385: [for(int i=0; i<ceil(hausdorffDim); i++)]. *)
Fixpoint pushDimensions (fuel : nat) (i : Z) : Mm unit :=
  dim <- gets hausdorffDim ;;
  if (of_int i <? dceil dim)%D then
    match fuel with
    | O => out_of_fuel
    | S fuel' =>
        slices <- gets hausdorffSlices ;;
        depth <- gets latticeDepth ;;
        dims <- gets latticeDimensions ;;
        modify (with_latticeDimensions
                  (dims ++ [to_int (of_int 2 * dpow slices (of_int depth))%D])) ;;;
        pushDimensions fuel' (i + 1)
    end
  else ret tt.

(** setup(); [fuel] bounds each of its unbounded loops.  The comparison
    of the method with the literal is read as equality of strings. *)
Definition setup (fuel : nat) : Mm unit :=
  method <- gets hausdorffMethod ;;
  when (String.eqb method "SCALING")
    (dim <- gets hausdorffDim ;;
     slices <- gets hausdorffSlices ;;
     modify (with_hausdorffScale (dexp (- dceil dim * dlog slices / dim))%D)) ;;;
  (* Check that the dimensions are reasonable *)
  scale <- gets hausdorffScale ;;
  slices <- gets hausdorffSlices ;;
  (if (of_int 1 / slices <? scale)%D
   then exit_failure "ERROR: Invalid Hausdorff scaling"
   else ret tt) ;;;
  (* Keep track of the number of site coordinates along each axis *)
  pushDimensions fuel 0 ;;;
  (* Generate the lattice array *)
  dims <- gets latticeDimensions ;;
  let x0 := repeat (of_int 0) (List.length dims) in
  let x1 := repeat (of_int 1) (List.length dims) in
  depth <- gets latticeDepth ;;
  addSpins fuel depth x0 x1 ;;;
  modify (with_hasBeenSetup true).

(** [spinArray.at(i).S = v] *)
Definition storeS (i : Z) (v : Z) : Mm unit :=
  arr <- gets spinArray ;;
  s <- at_ arr i ;;
  arr' <- set_at arr i (with_S_val v s) ;;
  modify (with_spinArray arr').

(** setAllSpins(direction), lines 712-717 *)
Definition setAllSpins (direction : Z) : Mm unit :=
  let allSpin := if 0 <? direction then 1 else -1 in
  arr <- gets spinArray ;;
  foldM (fun _ i => storeS i allSpin) (range 0 (len arr)) tt.

(** reset(), lines 598-610 *)
Definition reset : Mm unit :=
  modify (with_spinArray []) ;;;
  modify (with_hybridInfo []) ;;;
  modify (with_mcInfo []) ;;;
  modify (with_latticeDimensions []) ;;;
  modify (with_magnetization 0) ;;;
  modify (with_currentEffH (of_int 0)) ;;;
  modify (with_nSpins 0) ;;;
  modify (with_hasBeenSetup false).

End Members.

(* ------------------------------------------------------------------ *)
(** ** The Monte Carlo engine (lines 404-592) *)

Section MonteCarlo.
Context {double rng : Type} {FO : FloatOps double} {EX : Externals double}
        {RG : RandomGen double rng}.
#[local] Abbreviation Mm := (M (IsingModel double)).

(** [spinArray.at(i).S = -spinArray.at(i).S] *)
Definition flipSpin (i : Z) : Mm unit :=
  arr <- gets spinArray ;;
  s <- at_ arr i ;;
  storeS i (- S_val s).

(** [mcInfo.push_back(abs(tE-currentEffH)); currentEffH=tE;] *)
Definition recordFlip (tE : double) : Mm unit :=
  cur <- gets currentEffH ;;
  info <- gets mcInfo ;;
  modify (with_mcInfo (info ++ [dabs (tE - cur)%D])) ;;;
  modify (with_currentEffH tE).

(** Lines 524-525: the Metropolis decision for the candidate energy [tE];
    the generator is asked only when the candidate is not lower. *)
Definition metropolisAccept (tE : double) (r : rng) : Mm (bool * rng) :=
  cur <- gets currentEffH ;;
  if (tE - cur <? of_int 0)%D then ret (true, r)
  else let (u, r') := Uniform r in ret ((u <? dexp (cur - tE))%D, r').

Definition metropolisStep (r : rng) : Mm (double * rng) :=
  n <- gets nSpins ;;
  r <- foldM (fun r i =>
                tE <- getEffHamiltonian1 i ;;
                '(spinFlip, r) <- metropolisAccept tE r ;;
                (if spinFlip : bool
                 then flipSpin i ;;; recordFlip tE
                 else ret tt) ;;;
                ret r)
             (range 0 n) r ;;
  cur <- gets currentEffH ;;
  ret (cur, r).

(** Lines 550-558: the Heat Bath decision for the candidate energy [tE]. *)
Definition heatBathAccept (tE : double) (r : rng) : Mm (bool * rng) :=
  cur <- gets currentEffH ;;
  let acceptance := dexp (cur - tE)%D in
  if disinf acceptance then ret (true, r)
  else if (of_int 0 <? acceptance)%D then
    let acceptance := (acceptance / (dexp (tE - cur) + dexp (cur - tE)))%D in
    let (u, r') := Uniform r in
    ret ((u <? acceptance)%D, r')
  else ret (false, r).

Definition heatBathStep (r : rng) : Mm (double * rng) :=
  n <- gets nSpins ;;
  r <- foldM (fun r i =>
                tE <- getEffHamiltonian1 i ;;
                '(spinFlip, r) <- heatBathAccept tE r ;;
                (if spinFlip : bool
                 then flipSpin i ;;; recordFlip tE
                 else ret tt) ;;;
                ret r)
             (range 0 n) r ;;
  cur <- gets currentEffH ;;
  ret (cur, r).

(** hybridStep(rng, spinFlips): one group flip, all or nothing. *)
Definition hybridStep (u : double) (spinFlips : list Z) : Mm unit :=
  tE <- getEffHamiltonian spinFlips ;;
  cur <- gets currentEffH ;;
  let spinFlip := if (tE - cur <? of_int 0)%D then true
                  else (u <? dexp (cur - tE))%D in
  if spinFlip then
    foldM (fun _ i => k <- at_ spinFlips i ;; flipSpin k)
          (range 0 (len spinFlips)) tt ;;;
    recordFlip tE
  else ret tt.

(** Lines 445-463: the new number of spins per thread, from the sum
    [newAvgAbsDeltaE] of this step and [avgAbsDeltaE] of the step before. *)
Definition adaptGranularity (nSpinsPerThread : Z)
    (newAvgAbsDeltaE avgAbsDeltaE : double) : Mm Z :=
  let nSpinsPerThread := if nSpinsPerThread <? 1 then 1 else nSpinsPerThread in
  mag <- gets magnetization ;;
  n <- gets nSpins ;;
  (* Decrease spins/thread: *)
  if (1 <? nSpinsPerThread)
     && ((avgAbsDeltaE * of_int 2 <? newAvgAbsDeltaE)%D (* growing fast *)
         || (newAvgAbsDeltaE <=? avgAbsDeltaE)%D        (* converging *)
         || (newAvgAbsDeltaE =? of_int 0)%D)            (* stuck *)
  then ret (Z.max (Z.quot nSpinsPerThread 2) 1)
  (* if energy change is moderate and magnetization is low, more spins/thread *)
  else if (1 <=? nSpinsPerThread) && (Z.abs mag <? Z.quot n 2)
  then ret (Z.max (nSpinsPerThread * 2) 1)
  else ret nSpinsPerThread.

(** [popVector.erase(popVector.begin()+index)] *)
Fixpoint erase {A} (v : list A) (index : nat) : list A :=
  match v, index with
  | [], _ => []
  | _ :: v', O => v'
  | x :: v', S k => x :: erase v' k
  end.

(** Lines 478-481: one round of the drawing loop, on its locals. *)
Definition drawIndex (locals : list Z * list Z * Z * rng) (j : Z)
  : Mm (list Z * list Z * Z * rng) :=
  let '(spinFlips, popVector, popVectorSize, r) := locals in
  let (index, r) := Integer popVectorSize r in
  x <- at_ popVector index ;;
  ret (spinFlips ++ [x], erase popVector (Z.to_nat index),
       popVectorSize - 1, r).

(** Lines 471-483: the indices handed to one thread.  [spinFlips] is
    constructed with [nSpinsPerThread] elements, which are zero, and the
    drawn indices are pushed behind them. *)
Definition drawSpinFlips (nSpinsPerThread : Z) (popVector : list Z)
    (popVectorSize : Z) (r : rng) : Mm (list Z * list Z * Z * rng) :=
  let spinFlips := repeat 0 (Z.to_nat nSpinsPerThread) in
  if len popVector <? nSpinsPerThread then ret (popVector, [], 0, r)
  else
    foldM drawIndex (range 0 nSpinsPerThread)
          (spinFlips, popVector, popVectorSize, r).

(** Lines 467-493: [while(popVectorSize>0)].  Besides the generator the
    model returns [groups], the arguments [spinFlips] of the calls of
    hybridStep in the order of the calls. *)
Fixpoint hybridThreads (fuel : nat) (nSpinsPerThread : Z) (popVector : list Z)
    (popVectorSize : Z) (r : rng) (groups : list (list Z))
  : Mm (list (list Z) * rng) :=
  if 0 <? popVectorSize then
    match fuel with
    | O => out_of_fuel
    | S fuel' =>
        '(spinFlips, popVector, popVectorSize, r) <-
           drawSpinFlips nSpinsPerThread popVector popVectorSize r ;;
        let (u, r) := Uniform r in
        hybridStep u spinFlips ;;;
        hybridThreads fuel' nSpinsPerThread popVector popVectorSize r
                      (groups ++ [spinFlips])
    end
  else ret (groups, r).

(** One round of the loop of lines 421-505, on its locals. *)
Definition mcStep (avgAbsDeltaE : double) (nSpinsPerThread : Z) (r : rng)
  : Mm (double * Z * rng) :=
  info <- gets mcInfo ;;
  let newAvgAbsDeltaE := fold_left dadd info (of_int 0) in
  modify (with_mcInfo []) ;;;
  method <- gets mcMethod ;;
  '(nSpinsPerThread, r) <-
    (if String.eqb method "METROPOLIS" then
       '(_, r) <- metropolisStep r ;; ret (nSpinsPerThread, r)
     else if String.eqb method "HEATBATH" then
       '(_, r) <- heatBathStep r ;; ret (nSpinsPerThread, r)
     else if String.eqb method "HYBRID" then
       (* Create a vector of spin indices *)
       n <- gets nSpins ;;
       (if n <? 0 then throw length_error else ret tt) ;;;
       let popVector := range 0 n in
       nSpinsPerThread <-
         adaptGranularity nSpinsPerThread newAvgAbsDeltaE avgAbsDeltaE ;;
       (* Loop through threads *)
       '(_, r) <- hybridThreads (Z.to_nat n) nSpinsPerThread popVector n r [] ;;
       ret (nSpinsPerThread, r)
     else ret (nSpinsPerThread, r)) ;;
  (if (of_int 0 <=? avgAbsDeltaE)%D
   then hinfo <- gets hybridInfo ;;
        modify (with_hybridInfo (hinfo ++ [avgAbsDeltaE]))
   else ret tt) ;;;
  ret (newAvgAbsDeltaE, nSpinsPerThread, r).

(** Lines 416: [int nSpinsPerThread = floor(nSpins/nThreads);] the
    division is the integer one, undefined for a zero divisor. *)
Definition initialGranularity : Mm Z :=
  n <- gets nSpins ;;
  t <- gets nThreads ;;
  if t =? 0 then undefined
  else ret (to_int (dfloor (of_int (Z.quot n t)))).

(** runMonteCarlo(); the comparisons of [mcMethod] with the literals are
    read as equality of strings. *)
Definition runMonteCarlo : Mm unit :=
  ok <- gets hasBeenSetup ;;
  (if negb ok
   then exit_failure "ERROR: Object has not been setup!"
   else ret tt) ;;;
  let rNG := TRandom3_new in
  e <- getEffHamiltonian [] ;;
  modify (with_currentEffH e) ;;;
  let avgAbsDeltaE := of_int (-1) in
  nSpinsPerThread <- initialGranularity ;;
  steps <- gets nMCSteps ;;
  (* Start performing MC steps *)
  foldM (fun '(avgAbsDeltaE, nSpinsPerThread, r) _ =>
           mcStep avgAbsDeltaE nSpinsPerThread r)
        (range 0 steps) (avgAbsDeltaE, nSpinsPerThread, rNG) ;;;
  ret tt.

(** randomizeSpins(), lines 690-705: each spin is flipped when the
    number drawn is below 0.5. *)
Definition randomizeSpins : Mm unit :=
  let rNG := TRandom3_seeded 0 in
  arr <- gets spinArray ;;
  foldM (fun '(r, nFlips) i =>
           let (u, r) := Uniform r in
           if (u <? of_int 1 / of_int 2)%D then
             arr <- gets spinArray ;;
             s <- at_ arr i ;;
             storeS i (S_val s * -1) ;;;
             ret (r, nFlips + 1)
           else ret (r, nFlips))
        (range 0 (len arr)) (rNG, 0) ;;;
  ret tt.

(** The calls a user of the class can make on an object. *)
Inductive memberCall : forall {A : Type}, Mm A -> Prop :=
| call_setNumThreads num : memberCall (setNumThreads num)
| call_setNumMCSteps num : memberCall (setNumMCSteps num)
| call_setLatticeDepth num : memberCall (setLatticeDepth num)
| call_setInteractionSigma sig : memberCall (setInteractionSigma sig)
| call_setHausdorffDimension dim : memberCall (setHausdorffDimension dim)
| call_setHausdorffMethod hmtd : memberCall (setHausdorffMethod hmtd)
| call_setMCMethod mcmd : memberCall (setMCMethod mcmd)
| call_setCouplingConsts tH tJ : memberCall (setCouplingConsts tH tJ)
| call_setTemperature tkbT : memberCall (setTemperature tkbT)
| call_getMagnetization : memberCall getMagnetization
| call_getEffHamiltonian flips : memberCall (getEffHamiltonian flips)
| call_getEffHamiltonian1 flip : memberCall (getEffHamiltonian1 flip)
| call_computePartitionFunction start flips :
    memberCall (computePartitionFunction start flips)
| call_setup fuel : memberCall (setup fuel)
| call_runMonteCarlo : memberCall runMonteCarlo
| call_reset : memberCall reset
| call_randomizeSpins : memberCall randomizeSpins
| call_setAllSpins direction : memberCall (setAllSpins direction).

End MonteCarlo.

(* ------------------------------------------------------------------ *)
(** ** A new object, and the enumeration the partition function is
       compared with *)

Section Specification.
Context {double : Type} {FO : FloatOps double} {EX : Externals double}.

(** IsingModel(): the default member initialisers of interface/IsingModel.h
    ([hausdorffScale=1/3] is an integer division).  The header declares
    neither [mcMethod] nor [currentEffH]; their first values are the
    arguments. *)
Definition newIsingModel (mcmd : string) (effH : double) : IsingModel double :=
  mkIsingModel [] [] 1 1 0 (of_int 1) (of_int 1) (of_int 2)
               (of_int (Z.quot 1 3)) "SCALING" mcmd 10000
               (of_int 1) (of_int 1) (of_int 1) 0 effH [] [] false.

(** The sublists of [l]: every subset of its indices, once. *)
Fixpoint subsets (l : list Z) : list (list Z) :=
  match l with
  | [] => [[]]
  | x :: l' => subsets l' ++ map (cons x) (subsets l')
  end.

(** Every flip set of a model of [n] spins. *)
Definition allFlipSets (n : Z) : list (list Z) := subsets (range 0 n).

(** The number of active spins. *)
Definition activeCount (m : IsingModel double) : nat :=
  List.length (filter (fun s => active s) (spinArray m)).

(** The sum the specification states: one loop over the flip sets [Fs],
    adding [exp(getEffHamiltonian(F))] for each. *)
Definition boltzmannSum (Fs : list (list Z)) : M (IsingModel double) double :=
  foldM (fun acc F => e <- getEffHamiltonian F ;; ret (acc + dexp e)%D)
        Fs (of_int 0).

(** The Hybrid control loop on a given sequence of sums of energy
    deltas, one per step: the sizes of the groups step by step, with
    [nSpinsPerThread] and [avgAbsDeltaE] carried over as mcStep does. *)
Fixpoint hybridSizes (m : IsingModel double) (nSpinsPerThread : Z)
    (avgAbsDeltaE : double) (newAvgs : list double) : list Z :=
  match newAvgs with
  | [] => []
  | newAvg :: rest =>
      match adaptGranularity nSpinsPerThread newAvg avgAbsDeltaE m with
      | Returned g _ => g :: hybridSizes m g newAvg rest
      | _ => []
      end
  end.

(** Each sum is strictly below the one before, starting from [avg]. *)
Fixpoint strictlyDecreasing (avg : double) (newAvgs : list double) : Prop :=
  match newAvgs with
  | [] => True
  | a :: rest => (a <? avg)%D = true /\ strictlyDecreasing a rest
  end.

(** What setup() establishes and the other member functions keep: the
    flag is set, there is at least one spin, [nSpins] counts the spins of
    [spinArray], and every spin is active. *)
Definition setUpState (m : IsingModel double) : Prop :=
  hasBeenSetup m = true /\
  0 < nSpins m /\
  nSpins m = len (spinArray m) /\
  Forall (fun s => active s = true) (spinArray m).

(** The value of getEffHamiltonian(flips) on [m], when it returns one. *)
Definition effValue (m : IsingModel double) (flips : list Z) : option double :=
  match getEffHamiltonian flips m with
  | Returned e _ => Some e
  | _ => None
  end.

(** Addition of values that may be missing: the sum is missing as soon
    as one of them is. *)
Definition oadd (a b : option double) : option double :=
  match a, b with
  | Some x, Some y => Some (x + y)%D
  | _, _ => None
  end.

Definition oexp (a : option double) : option double :=
  match a with
  | Some x => Some (dexp x)
  | None => None
  end.

(** The call that returns the value [o] or, when it is missing, throws
    std::out_of_range, and leaves the state alone. *)
Definition lift (o : option double) : M (IsingModel double) double :=
  fun m => match o with
           | Some x => Returned x m
           | None => Thrown out_of_range m
           end.

(** The non-empty sublists of [l]. *)
Fixpoint nonemptySubsets (l : list Z) : list (list Z) :=
  match l with
  | [] => []
  | x :: l' => nonemptySubsets l' ++ map (cons x) ([] :: nonemptySubsets l')
  end.

(** The size that follows a size [g] of at least 1 when the sums
    decrease: halved while above 1; from 1, doubled when the magnetization
    is low ([lowMag]) and kept otherwise. *)
Definition halvedSize (lowMag : bool) (g : Z) : Z :=
  if 1 <? g then Z.quot g 2 else if lowMag then 2 else 1.

(** Each size of [sizes] follows the one before, starting from [g], by
    [halvedSize]. *)
Fixpoint followsHalving (lowMag : bool) (g : Z) (sizes : list Z) : Prop :=
  match sizes with
  | [] => True
  | g' :: rest =>
      g' = halvedSize lowMag (Z.max g 1) /\ followsHalving lowMag g' rest
  end.

End Specification.

(* ------------------------------------------------------------------ *)
(** ** The operations over the real numbers, and a scripted generator *)

Definition real_ltb (x y : R) : bool := if Rlt_dec x y then true else false.
Definition real_leb (x y : R) : bool := if Rle_dec x y then true else false.
Definition real_eqb (x y : R) : bool := if Req_dec_T x y then true else false.

(** Conversion to [int] truncates towards zero. *)
Definition real_trunc (x : R) : Z :=
  if Rle_dec 0 x then Int_part x else - Int_part (- x).

(** [pow] over the reals; where the C function has no real value (zero to
    a negative power, a negative base to a fractional power) it is 0. *)
Definition real_pow (x y : R) : R :=
  if Req_dec_T y 0 then 1%R
  else if Rlt_dec 0 x then Rpower x y
  else if Req_dec_T x 0 then 0%R
  else if Req_dec_T (IZR (Int_part y)) y then
         if Z.even (Int_part y) then Rpower (- x) y else (- Rpower (- x) y)%R
       else 0%R.

(** The arithmetic of exact real numbers.  It has no rounding and no
    infinity ([disinf] is constantly false): a test that rounding or
    overflow decides in binary64 can fall the other way here.  A statement
    over [R] whose outcome rests on such a test (the scale test of
    setup()) takes the outcome of the test as a hypothesis. *)
#[export] Instance RealOps : FloatOps R := {
  of_int := IZR;
  to_int := real_trunc;
  dadd := Rplus;
  dsub := Rminus;
  dmul := Rmult;
  ddiv := Rdiv;
  dopp := Ropp;
  dlt := real_ltb;
  dle := real_leb;
  deq := real_eqb;
  dexp := exp;
  dlog := ln;
  dceil := fun x => IZR (- Int_part (- x));
  dfloor := fun x => IZR (Int_part x);
  dabs := Rabs;
  dpow := real_pow;
  disinf := fun _ => false
}.

(** The unit interval, and spins ordered by their coordinates. *)
Fixpoint coords_gt (a b : list R) : bool :=
  match a, b with
  | x :: a', y :: b' => real_ltb y x || (real_eqb x y && coords_gt a' b')
  | _ :: _, [] => true
  | [], _ => false
  end.

#[export] Instance UnitInterval : Externals R := {
  xmin := 0%R;
  xmax := 1%R;
  spin_gt := fun a b => coords_gt (coords a) (coords b)
}.

(** A generator that replays a script of fractions [p/q] of the unit
    interval: [Uniform()] is the fraction, [Integer(imax)] the integer part
    of [imax] times the fraction. *)
Definition scripted_Uniform {double} {FO : FloatOps double}
    (r : list (Z * Z)) : double * list (Z * Z) :=
  match r with
  | [] => (of_int 0, [])
  | (p, q) :: r' => ((of_int p / of_int q)%D, r')
  end.

Definition scripted_Integer (imax : Z) (r : list (Z * Z)) : Z * list (Z * Z) :=
  match r with
  | [] => (0, [])
  | (p, q) :: r' => (imax * p / q, r')
  end.

Definition Scripted {double} {FO : FloatOps double} (script : list (Z * Z))
  : RandomGen double (list (Z * Z)) :=
  {| TRandom3_new := script;
     TRandom3_seeded := fun _ => script;
     Uniform := scripted_Uniform;
     Integer := scripted_Integer |}.

(** The state setup() aims at for the header's defaults (one axis, depth
    1, two slices of scale 1/2): four active spins at 0, 1/2, 1/2 and 1. *)
Definition site (x : R) : spin R := mkSpin 1 true [x].

Definition lattice4 (mcmd : string) : IsingModel R :=
  mkIsingModel [site 0; site (1/2); site (1/2); site 1] [4] 1 1 4
               1%R 1%R 2%R (1/2)%R "SCALING" mcmd 10000
               1%R 1%R 1%R 0 0%R [] [] true.

(* ------------------------------------------------------------------ *)
(** ** Predicates of the statements *)

(** A call that leaves the state as it found it: it returns a value, or
    std::out_of_range escapes, and the state is the one before the call. *)
Definition readonly {St A} (c : M St A) : Prop :=
  forall s, (exists a, c s = Returned a s) \/ c s = Thrown out_of_range s.

(** The state a call leaves behind, when it returns or throws. *)
Definition state_after {St A} (o : outcome St A) : option St :=
  match o with
  | Returned _ s => Some s
  | Thrown _ s => Some s
  | _ => None
  end.

(** The "set up" flag once a call has returned. *)
Definition flag_after {double A} (o : outcome (IsingModel double) A)
  : option bool :=
  match o with
  | Returned _ m => Some (hasBeenSetup m)
  | _ => None
  end.

(** The call ended the process. *)
Definition exited {St A} (o : outcome St A) : bool :=
  match o with
  | Exited _ => true
  | _ => false
  end.

(** The call returns on the state [s] and leaves it as it is. *)
Definition returnsAt {St A} (s : St) (c : M St A) : Prop :=
  exists a, c s = Returned a s.

(** A model whose geometry is consistent: [nSpins] counts the spins, the
    lattice has a positive number of sites along each axis, and each spin
    has one coordinate per axis. *)
Definition consistent {double} (m : IsingModel double) : Prop :=
  nSpins m = len (spinArray m) /\
  Forall (fun d => 0 < d) (latticeDimensions m) /\
  Forall (fun s => len (coords s) = len (latticeDimensions m)) (spinArray m).

(** Partial correctness of a call: from a state of [P] it returns in a
    state of [Q], and an exception escapes it in a state of [E]; the
    triple says nothing of a call that exits, is undefined or runs out of
    fuel. *)
Definition triple {St A} (P : St -> Prop) (c : M St A)
    (Q : A -> St -> Prop) (E : St -> Prop) : Prop :=
  forall s, P s ->
    match c s with
    | Returned a s' => Q a s'
    | Thrown _ s' => E s'
    | _ => True
    end.

(** [nSpins] counts the spins of [spinArray] and every spin is active. *)
Definition spinsCounted {double} (m : IsingModel double) : Prop :=
  nSpins m = len (spinArray m) /\
  Forall (fun s => active s = true) (spinArray m).

(** The invariant of the object: [spinsCounted], and a set-up model has
    at least one spin. *)
Definition wellFormed {double} (m : IsingModel double) : Prop :=
  spinsCounted m /\ (hasBeenSetup m = true -> 0 < nSpins m).

(** [spinsCounted], the "set up" flag is [b], and there are at least [n]
    spins. *)
Definition atLeast {double} (b : bool) (n : Z) (m : IsingModel double) : Prop :=
  spinsCounted m /\ hasBeenSetup m = b /\ n <= nSpins m.

(** The states an object can be in: a new object, and the state any
    member call leaves, returning or throwing, from such a state. *)
Inductive reachable {double rng : Type} {FO : FloatOps double}
    {EX : Externals double} {RG : RandomGen double rng}
  : IsingModel double -> Prop :=
| reachable_new mcmd effH : reachable (newIsingModel mcmd effH)
| reachable_call A (c : M (IsingModel double) A) m m' :
    reachable m -> memberCall (rng := rng) c -> state_after (c m) = Some m' ->
    reachable m'.

(** Total correctness of a call: from a state of [P] it returns, in a
    state of [Q]. *)
Definition total {St A} (P : St -> Prop) (c : M St A) (Q : A -> St -> Prop)
  : Prop :=
  forall s, P s -> exists a s', c s = Returned a s' /\ Q a s'.

(** A consistent model of [n] spins. *)
Definition shape {double} (n : Z) (m : IsingModel double) : Prop :=
  consistent m /\ nSpins m = n.

(** A group as the drawing loop builds it: [g] times the index 0, then [g]
    drawn indices. *)
Definition padded (g : Z) (G : list Z) : Prop :=
  exists drawn, G = repeat 0 (Z.to_nat g) ++ drawn /\ len drawn = g.

(* ------------------------------------------------------------------ *)
(** ** The accessors and the convergence graph *)

Section Accessors.
Context {double : Type} {FO : FloatOps double}.
#[local] Abbreviation Mm := (M (IsingModel double)).

(** getSpinArray(), lines 123-129: the value of each spin, 0 for an
    inactive one. *)
Definition getSpinArray : Mm (list Z) :=
  arr <- gets spinArray ;;
  ret (fold_left (fun spins it => spins ++ [if active it then S_val it else 0])
                 arr []).

(** getLatticeDimensions(), lines 136-138 *)
Definition getLatticeDimensions : Mm (list Z) := gets latticeDimensions.

(** getConvergenceGr(), lines 723-737.  The value is the three arguments
    of the TGraph constructor: the number of points, the abscissae
    [stepIndices] and the ordinates [convergenceDt].  Erasing [begin()] of
    an empty vector is undefined. *)
Definition getConvergenceGr : Mm (Z * list double * list double) :=
  hinfo <- gets hybridInfo ;;
  match hinfo with
  | [] => undefined
  | _ :: convergenceDt =>
      stepIndices <- foldM (fun stepIndices i =>
                              set_at stepIndices i (of_int (i + 1)))
                           (range 0 (len convergenceDt))
                           (repeat (of_int 0) (List.length convergenceDt)) ;;
      ret (len convergenceDt, stepIndices, convergenceDt)
  end.

End Accessors.

(* ------------------------------------------------------------------ *)
(** ** Predicates of the further properties *)

(** The spin [s'] is the spin [s] with its value kept or negated. *)
Definition signFlipped {double} (s s' : spin double) : Prop :=
  active s' = active s /\ coords s' = coords s /\
  (S_val s' = S_val s \/ S_val s' = - S_val s).

(** The outcome [o] is a normal return, with a value and a state of [Q]. *)
Definition returnsWith {St A} (o : outcome St A) (Q : A -> St -> Prop) : Prop :=
  match o with
  | Returned a s => Q a s
  | _ => False
  end.

(** The number that the digits [v] write in base [max], the first digit
    being the lowest. *)
Definition digitsValue (max : Z) (v : list Z) : Z :=
  fold_right (fun d acc => d + max * acc) 0 v.

(** A spin as addSpins makes it on a lattice of [D] dimensions: value +1,
    active, with [D] coordinates. *)
Definition newSpin {double} (D : Z) (sp : spin double) : Prop :=
  S_val sp = 1 /\ active sp = true /\ len (coords sp) = D.

(** The object [m0] after [k] more spins have been pushed on [spinArray]
    and counted in [nSpins]. *)
Definition grown {double} (m0 : IsingModel double) (k : Z)
    (s : IsingModel double) : Prop :=
  exists added,
    len added = k /\
    Forall (newSpin (len (latticeDimensions m0))) added /\
    s = with_nSpins (nSpins m0 + k) (with_spinArray (spinArray m0 ++ added) m0).

(** The contract of TRandom3::Integer: [Integer(imax)] is an integer of
    [0, imax). *)
Definition validGenerator {double rng : Type} (RG : RandomGen double rng)
  : Prop :=
  forall imax r, 0 < imax -> 0 <= fst (Integer imax r) < imax.

(** A generator that always draws the first index and the number 1/2. *)
Definition FirstIndex : RandomGen R unit :=
  {| TRandom3_new := tt;
     TRandom3_seeded := fun _ => tt;
     Uniform := fun r => ((1 / 2)%R, r);
     Integer := fun _ r => (0, r) |}.

(** The members that a Monte Carlo run does not write: all but
    [spinArray], [currentEffH], [mcInfo] and [hybridInfo]. *)
Definition untouched {double} (m : IsingModel double) :=
  (latticeDimensions m, latticeDepth m, nThreads m, nSpins m,
   interactionSigma m, hausdorffDim m, hausdorffSlices m, hausdorffScale m,
   hausdorffMethod m, mcMethod m, nMCSteps m, kbT m, Hc m, Jc m,
   magnetization m, hasBeenSetup m).

(** The object [m] is the object [m0] but for the values of the spins,
    each kept or negated, and for [currentEffH], [mcInfo] and
    [hybridInfo]. *)
Definition sameLattice {double} (m0 m : IsingModel double) : Prop :=
  Forall2 signFlipped (spinArray m0) (spinArray m) /\
  untouched m = untouched m0.

(** The sign that getEffHamiltonian gives the spin [i] under [flips]. *)
Definition flipSign (flips : list Z) (i : Z) : Z :=
  if found flips i then -1 else 1.

(** The spin [s'] stands, under [flips'], for the spin [s] under [flips]:
    same place, same flag, and the same value once the hypothetical flips
    are applied. *)
Definition sameSpin {double} (flips flips' : list Z) (i : Z)
    (s s' : spin double) : Prop :=
  active s' = active s /\ coords s' = coords s /\
  flipSign flips i * S_val s = flipSign flips' i * S_val s'.

(** The arrays hold, index by index, spins that stand for each other. *)
Definition sameSpins {double} (flips flips' : list Z)
    (arr arr' : list (spin double)) : Prop :=
  List.length arr' = List.length arr /\
  forall k s s',
    nth_error arr k = Some s -> nth_error arr' k = Some s' ->
    sameSpin flips flips' (Z.of_nat k) s s'.

(** The models agree on what the energy reads besides the spins. *)
Definition sameCouplings {double} (m m' : IsingModel double) : Prop :=
  nSpins m' = nSpins m /\
  latticeDimensions m' = latticeDimensions m /\
  interactionSigma m' = interactionSigma m /\
  kbT m' = kbT m /\ Hc m' = Hc m /\ Jc m' = Jc m.

(** Two read-only calls, one on [m] and one on [m'], end alike: both
    return, with values related by [Rel], or std::out_of_range escapes
    from both. *)
Definition alike {St A B} (Rel : A -> B -> Prop) (m m' : St)
    (o : outcome St A) (o' : outcome St B) : Prop :=
  (exists a b, o = Returned a m /\ o' = Returned b m' /\ Rel a b) \/
  (o = Thrown out_of_range m /\ o' = Thrown out_of_range m').

(** The spins of [arr] from index [i] on, those of [flips] negated. *)
Fixpoint flipFrom {double} (flips : list Z) (i : Z) (arr : list (spin double))
  : list (spin double) :=
  match arr with
  | [] => []
  | s :: arr' =>
      (if found flips i then with_S_val (- S_val s) s else s)
      :: flipFrom flips (i + 1) arr'
  end.

(** The model with the spins of [flips] really flipped. *)
Definition flipSpins {double} (flips : list Z) (m : IsingModel double)
  : IsingModel double :=
  with_spinArray (flipFrom flips 0 (spinArray m)) m.

(** The cached energy is the energy of the configuration. *)
Definition coherent {double} {FO : FloatOps double} {EX : Externals double}
    (m : IsingModel double) : Prop :=
  getEffHamiltonian [] m = Returned (currentEffH m) m.

(** The spins of [arr] from index [i] on, each negated once for each time
    its index occurs in [flips]. *)
Fixpoint flipTimes {double} (flips : list Z) (i : Z) (arr : list (spin double))
  : list (spin double) :=
  match arr with
  | [] => []
  | s :: arr' =>
      (if Nat.odd (count_occ Z.eq_dec flips i)
       then with_S_val (- S_val s) s else s)
      :: flipTimes flips (i + 1) arr'
  end.


(* ------------------------------------------------------------------ *)
(** * Properties *)

(** ** Calls that only read *)

Section ReadOnly.
Context {St : Type}.

Lemma readonly_ret {A} (a : A) : readonly (St := St) (ret a).
Proof. intros s. left. now exists a. Qed.

Lemma readonly_gets {A} (f : St -> A) : readonly (gets f).
Proof. intros s. left. now exists (f s). Qed.

Lemma readonly_throw {A} : readonly (St := St) (A := A) (throw out_of_range).
Proof. intros s. now right. Qed.

Lemma readonly_bind {A B} (c : M St A) (k : A -> M St B) :
  readonly c -> (forall a, readonly (k a)) -> readonly (bind c k).
Proof.
  intros Hc Hk s. unfold bind.
  destruct (Hc s) as [[a Ha] | Ht]; rewrite ?Ha, ?Ht; [apply Hk | now right].
Qed.

Lemma readonly_if {A} (b : bool) (c1 c2 : M St A) :
  readonly c1 -> readonly c2 -> readonly (if b then c1 else c2).
Proof. now destruct b. Qed.

Lemma readonly_at {A} (v : list A) (i : Z) : readonly (St := St) (at_ v i).
Proof.
  unfold at_. apply readonly_if; [apply readonly_throw|].
  destruct (nth_error v (Z.to_nat i)); [apply readonly_ret | apply readonly_throw].
Qed.

Lemma readonly_andM (a b : M St bool) :
  readonly a -> readonly b -> readonly (andM a b).
Proof.
  intros Ha Hb. apply readonly_bind; [exact Ha|].
  intros x. apply readonly_if; [exact Hb | apply readonly_ret].
Qed.

Lemma readonly_foldM {A B} (body : A -> B -> M St A) (l : list B) :
  (forall acc x, readonly (body acc x)) ->
  forall acc, readonly (foldM body l acc).
Proof.
  intros Hb. induction l as [|x l IH]; intros acc; simpl.
  - apply readonly_ret.
  - apply readonly_bind; [apply Hb | exact IH].
Qed.

End ReadOnly.

Ltac readonly_step :=
  cbv beta;
  first [ apply readonly_bind; [|intros ?]
        | apply readonly_foldM; intros ? ?
        | match goal with
          | |- readonly (match ?x with _ => _ end) => destruct x
          end
        | apply readonly_andM
        | apply readonly_if
        | apply readonly_ret | apply readonly_gets
        | apply readonly_at | apply readonly_throw ].

Section EnergyReadOnly.
Context {double : Type} {FO : FloatOps double} {EX : Externals double}.

Lemma readonly_getK : readonly getK.
Proof. unfold getK. repeat readonly_step. Qed.

Lemma readonly_geth : readonly geth.
Proof. unfold geth. repeat readonly_step. Qed.

Lemma readonly_getDistanceSq (s1 s2 : spin double) :
  readonly (getDistanceSq s1 s2).
Proof. unfold getDistanceSq. repeat readonly_step. Qed.

Lemma readonly_neighbourTerm flips (s : spin double) spinFlip newIndex energy :
  readonly (neighbourTerm flips s spinFlip newIndex energy).
Proof.
  unfold neighbourTerm.
  repeat first [ apply readonly_getK | apply readonly_getDistanceSq
               | readonly_step ].
Qed.

Lemma readonly_getEffHamiltonian (flips : list Z) :
  readonly (getEffHamiltonian flips).
Proof.
  unfold getEffHamiltonian.
  repeat first [ apply readonly_geth | apply readonly_neighbourTerm
               | readonly_step ].
Qed.

End EnergyReadOnly.

(* ------------------------------------------------------------------ *)
(** ** The energy model reads only *)

Section Frame.
Context {double : Type} {FO : FloatOps double} {EX : Externals double}.

Lemma readonly_state_after {A} (c : M (IsingModel double) A) m :
  readonly c -> state_after (c m) = Some m.
Proof. intros Hc. destruct (Hc m) as [[a Ha] | Ht]; rewrite ?Ha, ?Ht; reflexivity. Qed.

(** C7: evaluating the effective Hamiltonian, for any flip set (a list of
    indices, the single index of the overload, or none), leaves the whole
    object as it was: the state after the call, returned or thrown, is the
    state before it.  The same holds for getDistanceSq. *)
Theorem getEffHamiltonian_leaves_state_unchanged :
  forall (flips : list Z) (flip : Z) (s1 s2 : spin double)
         (m : IsingModel double),
    state_after (getEffHamiltonian flips m) = Some m /\
    state_after (getEffHamiltonian [] m) = Some m /\
    state_after (getEffHamiltonian1 flip m) = Some m /\
    state_after (getDistanceSq s1 s2 m) = Some m.
Proof.
  intros flips flip s1 s2 m. repeat split; apply readonly_state_after.
  - apply readonly_getEffHamiltonian.
  - apply readonly_getEffHamiltonian.
  - unfold getEffHamiltonian1. apply readonly_getEffHamiltonian.
  - apply readonly_getDistanceSq.
Qed.

End Frame.

(* ------------------------------------------------------------------ *)
(** ** The configuration setters *)

Section Setters.
Context {double : Type} {FO : FloatOps double} {EX : Externals double}.

Ltac run_setter :=
  unfold setNumThreads, setNumMCSteps, setLatticeDepth, setInteractionSigma,
    setHausdorffDimension, setHausdorffMethod, setMCMethod,
    setCouplingConsts, setTemperature, bind, gets, modify, ret.

(** C8: a non-positive dimension, a negative temperature and a
    non-positive step count are ignored: the setter returns and the object,
    the stored parameter with it, is unchanged. *)
Theorem invalid_setter_arguments_are_ignored :
  forall (m : IsingModel double) (dim tkbT : double) (num : Z),
    (dim <=? of_int 0)%D = true ->
    (tkbT <? of_int 0)%D = true ->
    num <= 0 ->
    setHausdorffDimension dim m = Returned tt m /\
    setTemperature tkbT m = Returned tt m /\
    setNumMCSteps num m = Returned tt m.
Proof.
  intros m dim tkbT num Hdim Ht Hnum. run_setter.
  rewrite Hdim, Ht.
  destruct (Z.ltb_spec num 1); [auto | lia].
Qed.

(** C9, amended: a setter call whose argument the setter accepts leaves
    the "set up" flag false, and a call whose argument the setter rejects
    (a step count below 1, a dimension that is not positive, a negative
    temperature) returns with the flag as it was.  setLatticeDepth,
    setInteractionSigma, setHausdorffMethod, setMCMethod and
    setCouplingConsts take every argument.  For setNumThreads the
    statement covers a thread count of at least 1 given to an object whose
    stored count is at least 1; it says nothing of the other calls of
    setNumThreads. *)
Theorem accepted_setter_clears_setup_flag :
  forall (m : IsingModel double),
    (forall num, 1 <= num -> 1 <= nThreads m ->
       flag_after (setNumThreads num m) = Some false) /\
    (forall num, 1 <= num ->
       flag_after (setNumMCSteps num m) = Some false) /\
    (forall num, flag_after (setLatticeDepth num m) = Some false) /\
    (forall sig, flag_after (setInteractionSigma sig m) = Some false) /\
    (forall dim, (dim <=? of_int 0)%D = false ->
       flag_after (setHausdorffDimension dim m) = Some false) /\
    (forall hmtd, flag_after (setHausdorffMethod hmtd m) = Some false) /\
    (forall mcmd, flag_after (setMCMethod mcmd m) = Some false) /\
    (forall tH tJ, flag_after (setCouplingConsts tH tJ m) = Some false) /\
    (forall tkbT, (tkbT <? of_int 0)%D = false ->
       flag_after (setTemperature tkbT m) = Some false) /\
    (forall num, num < 1 ->
       flag_after (setNumMCSteps num m) = Some (hasBeenSetup m)) /\
    (forall dim, (dim <=? of_int 0)%D = true ->
       flag_after (setHausdorffDimension dim m) = Some (hasBeenSetup m)) /\
    (forall tkbT, (tkbT <? of_int 0)%D = true ->
       flag_after (setTemperature tkbT m) = Some (hasBeenSetup m)).
Proof.
  intros m. destruct m.
  repeat match goal with |- _ /\ _ => split end;
    intros; run_setter; simpl in *;
    rewrite ?H; try reflexivity.
  - destruct (Z.ltb_spec nThreads0 1); [lia | reflexivity].
  - destruct (Z.ltb_spec num 1); [lia | reflexivity].
  - destruct (Z.ltb_spec num 1); [reflexivity | lia].
Qed.

(** C10: setNumThreads tests the stored thread count, not its argument.
    With a stored count of at least 1 it stores any [num], zero and
    negative ones too, and clears the "set up" flag; with a stored count
    below 1 it changes nothing, whatever [num] is. *)
Theorem setNumThreads_tests_the_stored_count :
  forall (m : IsingModel double) (num : Z),
    (1 <= nThreads m ->
       exists m',
         setNumThreads num m = Returned tt m' /\
         m' = with_hasBeenSetup false (with_nThreads num m) /\
         nThreads m' = num /\ hasBeenSetup m' = false) /\
    (nThreads m < 1 -> setNumThreads num m = Returned tt m).
Proof.
  intros m num. destruct m. run_setter. simpl. split; intros Hn.
  - destruct (Z.ltb_spec nThreads0 1); [lia|].
    eexists. repeat split.
  - destruct (Z.ltb_spec nThreads0 1); [reflexivity | lia].
Qed.

End Setters.

(** The witness of C8 on the four-spin lattice. *)
Lemma invalid_setter_arguments_are_ignored_witness :
  setHausdorffDimension (-1)%R (lattice4 "HYBRID")
    = Returned tt (lattice4 "HYBRID") /\
  setTemperature (-1)%R (lattice4 "HYBRID")
    = Returned tt (lattice4 "HYBRID") /\
  setNumMCSteps 0 (lattice4 "HYBRID") = Returned tt (lattice4 "HYBRID").
Proof.
  apply (invalid_setter_arguments_are_ignored (lattice4 "HYBRID")
           (-1)%R (-1)%R 0).
  - simpl. unfold real_leb. destruct (Rle_dec (-1) 0); [reflexivity | lra].
  - simpl. unfold real_ltb. destruct (Rlt_dec (-1) 0); [reflexivity | lra].
  - lia.
Defined.

(* ------------------------------------------------------------------ *)
(** ** The partition function *)

(** Sums in a commutative monoid. *)
Section Sums.
Variables (A : Type) (op : A -> A -> A) (e : A).
Hypothesis op_comm : forall x y, op x y = op y x.
Hypothesis op_assoc : forall x y z, op x (op y z) = op (op x y) z.
Hypothesis op_e_l : forall x, op e x = x.

#[local] Abbreviation msum := (fold_right op e).

Lemma op_e_r x : op x e = x.
Proof. rewrite op_comm. apply op_e_l. Qed.

Lemma msum_app l1 l2 : msum (l1 ++ l2) = op (msum l1) (msum l2).
Proof.
  induction l1 as [|x l1 IH]; simpl.
  - now rewrite op_e_l.
  - now rewrite IH, op_assoc.
Qed.

Lemma fold_left_msum (l : list A) (a : A) :
  fold_left op l a = op a (msum l).
Proof.
  revert a. induction l as [|x l IH]; intros a; simpl.
  - now rewrite op_e_r.
  - now rewrite IH, op_assoc.
Qed.

End Sums.

Section PartitionFunction.
Context {double : Type} {FO : FloatOps double} {EX : Externals double}.
#[local] Abbreviation model := (IsingModel double).

Hypothesis add_comm : forall x y : double, (x + y = y + x)%D.
Hypothesis add_assoc : forall x y z : double, (x + (y + z) = (x + y) + z)%D.
Hypothesis add_0_l : forall x : double, (of_int 0 + x = x)%D.

#[local] Abbreviation osum := (fold_right oadd (Some (of_int 0))).

Lemma oadd_comm a b : oadd a b = oadd b a.
Proof. destruct a, b; simpl; congruence. Qed.

Lemma oadd_assoc a b c : oadd a (oadd b c) = oadd (oadd a b) c.
Proof. destruct a, b, c; simpl; congruence. Qed.

Lemma oadd_0_l a : oadd (Some (of_int 0)) a = a.
Proof. destruct a; simpl; congruence. Qed.

Lemma osum_app l1 l2 : osum (l1 ++ l2) = oadd (osum l1) (osum l2).
Proof. apply msum_app; [apply oadd_assoc | apply oadd_0_l]. Qed.

Lemma getEffHamiltonian_lift (m : model) F :
  getEffHamiltonian F m = lift (effValue m F) m.
Proof.
  unfold effValue, lift.
  destruct (readonly_getEffHamiltonian F m) as [[a Ha] | Ht];
    rewrite ?Ha, ?Ht; reflexivity.
Qed.

Lemma subsets_nonempty l : subsets l = [] :: nonemptySubsets l.
Proof.
  induction l as [|x l IH]; simpl; [reflexivity|].
  rewrite IH. reflexivity.
Qed.

Lemma range_cons k n : k < n -> range k n = k :: range (k + 1) n.
Proof.
  intros Hk. unfold range.
  replace (Z.to_nat (n - k)) with (S (Z.to_nat (n - (k + 1)))) by lia.
  simpl. f_equal; [lia|].
  rewrite <- seq_shift, map_map. apply map_ext. intros a. lia.
Qed.

Lemma range_nil k n : n <= k -> range k n = [].
Proof. intros Hk. unfold range. now replace (Z.to_nat (n - k)) with O by lia. Qed.

(** The sum over the non-empty subsets of [k :: r], in the order in which
    computePartitionFunction adds its three terms. *)
Lemma osum_nonemptySubsets_cons (m : model) F k r :
  osum (map (fun G => oexp (effValue m (F ++ G))) (nonemptySubsets (k :: r)))
  = oadd (oadd (oadd (Some (of_int 0)) (oexp (effValue m (F ++ [k]))))
               (osum (map (fun G => oexp (effValue m ((F ++ [k]) ++ G)))
                          (nonemptySubsets r))))
         (osum (map (fun G => oexp (effValue m (F ++ G))) (nonemptySubsets r))).
Proof.
  rewrite oadd_0_l.
  change (nonemptySubsets (k :: r))
    with (nonemptySubsets r ++ [k] :: map (cons k) (nonemptySubsets r)).
  rewrite map_app, osum_app.
  change (osum (map (fun G => oexp (effValue m (F ++ G)))
                    ([k] :: map (cons k) (nonemptySubsets r))))
    with (oadd (oexp (effValue m (F ++ [k])))
               (osum (map (fun G => oexp (effValue m (F ++ G)))
                          (map (cons k) (nonemptySubsets r))))).
  rewrite map_map, oadd_comm. f_equal. f_equal.
  f_equal. apply map_ext. intros G. now rewrite <- app_assoc.
Qed.

Lemma computePartitionFunction_rec_lift (m : model) :
  forall fuel start flips,
    (Z.to_nat (nSpins m - start) <= fuel)%nat ->
    0 < start ->
    computePartitionFunction_rec fuel start flips m
    = lift (osum (map (fun G => oexp (effValue m (flips ++ G)))
                      (nonemptySubsets (range start (nSpins m))))) m.
Proof.
  induction fuel as [|fuel IH]; intros start flips Hfuel Hstart.
  - simpl. unfold bind, gets.
    destruct (Z.leb_spec (nSpins m) start); [|lia].
    rewrite range_nil by lia. reflexivity.
  - simpl. unfold bind at 1. unfold gets at 1.
    destruct (Z.leb_spec (nSpins m) start) as [Hge | Hlt].
    + rewrite range_nil by lia. reflexivity.
    + rewrite range_cons by lia. rewrite osum_nonemptySubsets_cons.
      unfold bind. rewrite getEffHamiltonian_lift.
      destruct (effValue m (flips ++ [start])) as [e1|]; simpl; [|reflexivity].
      rewrite (IH (start + 1) (flips ++ [start])) by lia.
      destruct (osum (map (fun G => oexp (effValue m ((flips ++ [start]) ++ G)))
                          (nonemptySubsets (range (start + 1) (nSpins m)))))
        as [z|]; simpl; [|reflexivity].
      rewrite (IH (start + 1) flips) by lia.
      destruct (osum (map (fun G => oexp (effValue m (flips ++ G)))
                          (nonemptySubsets (range (start + 1) (nSpins m)))))
        as [z'|]; simpl; [|reflexivity].
      destruct (Z.eqb_spec start 0); [lia | reflexivity].
Qed.

Lemma boltzmannSum_lift (m : model) Fs :
  forall acc,
    foldM (fun acc F => e <- getEffHamiltonian F ;; ret (acc + dexp e)%D)
          Fs acc m
    = lift (fold_left oadd (map (fun F => oexp (effValue m F)) Fs) (Some acc)) m.
Proof.
  induction Fs as [|F Fs IH]; intros acc; simpl; [reflexivity|].
  unfold bind at 1. unfold bind at 1. rewrite getEffHamiltonian_lift.
  destruct (effValue m F) as [e|]; simpl.
  - apply IH.
  - clear IH. induction Fs as [|G Fs IH]; simpl; [reflexivity | exact IH].
Qed.

(** *** The flip sets *)

Lemma length_subsets l : List.length (subsets l) = (2 ^ List.length l)%nat.
Proof.
  induction l as [|x l IH]; simpl; [reflexivity|].
  rewrite length_app, length_map, IH. lia.
Qed.

Lemma subsets_incl l : forall F, In F (subsets l) -> incl F l.
Proof.
  induction l as [|x l IH]; simpl; intros F HF.
  - destruct HF as [<- | []]. intros i [].
  - apply in_app_or in HF. destruct HF as [HF | HF].
    + intros i Hi. right. now apply (IH F).
    + apply in_map_iff in HF. destruct HF as (G & <- & HG).
      intros i [-> | Hi]; [now left | right; now apply (IH G)].
Qed.

Lemma found_In F i : found F i = true <-> In i F.
Proof.
  unfold found. rewrite existsb_exists. split.
  - intros (x & Hx & Heq). apply Z.eqb_eq in Heq. now subst.
  - intros Hi. exists i. split; [exact Hi | apply Z.eqb_refl].
Qed.

Lemma filter_subsets (g : Z -> bool) l : In (filter g l) (subsets l).
Proof.
  induction l as [|x l IH]; simpl; [now left|].
  apply in_or_app. destruct (g x); [right | now left].
  now apply in_map.
Qed.

Lemma subsets_filter l :
  NoDup l -> forall F, In F (subsets l) -> filter (found F) l = F.
Proof.
  induction l as [|x l IH]; simpl; intros Hnd F HF.
  - now destruct HF as [<- | []].
  - inversion Hnd as [|? ? Hx Hnd']; subst.
    apply in_app_or in HF. destruct HF as [HF | HF].
    + destruct (found F x) eqn:Hfx.
      * apply found_In in Hfx. apply (subsets_incl l F HF) in Hfx. contradiction.
      * now apply IH.
    + apply in_map_iff in HF. destruct HF as (G & <- & HG).
      replace (found (x :: G) x) with true
        by (symmetry; apply found_In; now left).
      f_equal. rewrite <- (IH Hnd' G HG) at 2.
      apply filter_ext_in. intros i Hi. unfold found. simpl.
      destruct (Z.eqb_spec i x) as [-> | _]; [contradiction | reflexivity].
Qed.

Lemma In_range i lo hi : In i (range lo hi) <-> lo <= i < hi.
Proof.
  unfold range. rewrite in_map_iff. split.
  - intros (k & <- & Hk). apply in_seq in Hk. lia.
  - intros Hi. exists (Z.to_nat (i - lo)). split; [lia|]. apply in_seq. lia.
Qed.

Lemma NoDup_range lo hi : NoDup (range lo hi).
Proof.
  unfold range. apply Finite.Injective_map_NoDup; [|apply seq_NoDup].
  intros a b Hab. lia.
Qed.

Lemma length_range lo hi : List.length (range lo hi) = Z.to_nat (hi - lo).
Proof. unfold range. now rewrite length_map, length_seq. Qed.

Lemma NoDup_subsets l : NoDup l -> NoDup (subsets l).
Proof.
  induction l as [|x l IH]; simpl; intros Hnd.
  - constructor; [intros [] | constructor].
  - inversion Hnd as [|? ? Hx Hnd']; subst.
    apply NoDup_app.
    + now apply IH.
    + apply Finite.Injective_map_NoDup; [|now apply IH].
      intros a b Hab. now inversion Hab.
    + intros F HF HF'. apply in_map_iff in HF'. destruct HF' as (G & <- & HG).
      apply Hx. apply (subsets_incl l _ HF). now left.
Qed.

Lemma activeCount_all (m : model) :
  Forall (fun s => active s = true) (spinArray m) ->
  activeCount m = List.length (spinArray m).
Proof.
  unfold activeCount. intros Hall.
  induction Hall as [|s l Hs Hall IH]; simpl; [reflexivity|].
  rewrite Hs. simpl. now rewrite IH.
Qed.

(** On a model in a [setUpState], computePartitionFunction(0, {}) is the
    sum over the flip sets of [allFlipSets], one for each configuration. *)
Lemma partition_function_of_setUpState :
  forall (m : model),
    setUpState m ->
    computePartitionFunction 0 [] m = boltzmannSum (allFlipSets (nSpins m)) m /\
    List.length (allFlipSets (nSpins m)) = (2 ^ activeCount m)%nat /\
    NoDup (allFlipSets (nSpins m)) /\
    (forall flipped : Z -> bool,
        exists F,
          In F (allFlipSets (nSpins m)) /\
          (forall i, 0 <= i < nSpins m -> found F i = flipped i) /\
          (forall F',
              In F' (allFlipSets (nSpins m)) ->
              (forall i, 0 <= i < nSpins m -> found F' i = flipped i) ->
              F' = F)).
Proof.
  intros m (_ & Hpos & Hlen & Hact). repeat split.
  - (* the value *)
    unfold boltzmannSum, allFlipSets. rewrite boltzmannSum_lift.
    rewrite (fold_left_msum _ oadd (Some (of_int 0)) oadd_comm oadd_assoc oadd_0_l).
    rewrite oadd_0_l, subsets_nonempty.
    cbn [map fold_right]. rewrite (range_cons 0) by lia.
    rewrite (osum_nonemptySubsets_cons m [] 0).
    rewrite (oadd_comm (oexp (effValue m ([] ++ [])))).
    unfold computePartitionFunction. unfold bind at 1. unfold gets at 1.
    replace (Z.to_nat (nSpins m - 0)) with (S (Z.to_nat (nSpins m - 1))) by lia.
    cbn [computePartitionFunction_rec]. unfold bind at 1. unfold gets at 1.
    destruct (Z.leb_spec (nSpins m) 0); [lia|].
    unfold bind. rewrite getEffHamiltonian_lift.
    destruct (effValue m ([] ++ [0])) as [e1|]; [|reflexivity].
    cbv beta iota delta [lift].
    rewrite (computePartitionFunction_rec_lift m _ (0 + 1) ([] ++ [0])) by lia.
    destruct (fold_right oadd (Some (of_int 0))
                (map (fun G => oexp (effValue m (([] ++ [0]) ++ G)))
                     (nonemptySubsets (range (0 + 1) (nSpins m)))))
      as [z|]; [|reflexivity].
    cbv beta iota delta [lift].
    rewrite (computePartitionFunction_rec_lift m _ (0 + 1) []) by lia.
    destruct (fold_right oadd (Some (of_int 0))
                (map (fun G => oexp (effValue m ([] ++ G)))
                     (nonemptySubsets (range (0 + 1) (nSpins m)))))
      as [z'|]; [|reflexivity].
    cbv beta iota delta [lift].
    change (0 =? 0) with true. cbv beta iota.
    rewrite getEffHamiltonian_lift.
    change ([] ++ []) with (@nil Z).
    destruct (effValue m []) as [e0|]; reflexivity.
  - (* 2^N flip sets *)
    unfold allFlipSets. rewrite length_subsets, length_range.
    rewrite activeCount_all by exact Hact. f_equal. unfold len in Hlen. lia.
  - apply NoDup_subsets, NoDup_range.
  - (* one flip set for each configuration *)
    intros flipped. exists (filter flipped (range 0 (nSpins m))).
    split; [apply filter_subsets|]. split.
    + intros i Hi. apply In_range in Hi.
      destruct (flipped i) eqn:Hf.
      * apply found_In, filter_In. now split.
      * destruct (found _ i) eqn:Hfi; [|reflexivity].
        apply found_In, filter_In in Hfi. destruct Hfi. congruence.
    + intros F' HF' Hsame.
      rewrite <- (subsets_filter _ (NoDup_range 0 (nSpins m)) F' HF').
      apply filter_ext_in. intros i Hi. apply In_range in Hi. now apply Hsame.
Qed.

End PartitionFunction.

(* ------------------------------------------------------------------ *)
(** ** Use before setup *)

Section UseBeforeSetup.
Context {double rng : Type} {FO : FloatOps double} {EX : Externals double}
        {RG : RandomGen double rng}.

Lemma computePartitionFunction_rec_never_exits fuel :
  forall start flips (m : IsingModel double),
    exited (computePartitionFunction_rec fuel start flips m) = false.
Proof.
  induction fuel as [|fuel IH]; intros start flips m; simpl;
    unfold bind at 1; unfold gets at 1;
    destruct (nSpins m <=? start); try reflexivity.
  unfold bind.
  destruct (readonly_getEffHamiltonian (flips ++ [start]) m) as [[e He] | Ht];
    rewrite ?He, ?Ht; [|reflexivity].
  specialize (IH (start + 1)) as IH1. specialize (IH1 (flips ++ [start]) m).
  destruct (computePartitionFunction_rec fuel (start + 1) (flips ++ [start]) m)
    as [z m1 | | | |]; try reflexivity; try discriminate.
  specialize (IH (start + 1) flips m1).
  destruct (computePartitionFunction_rec fuel (start + 1) flips m1)
    as [z' m2 | | | |]; try reflexivity; try discriminate.
  destruct (start =? 0); [|reflexivity].
  destruct (readonly_getEffHamiltonian [] m2) as [[e0 He0] | Ht];
    rewrite ?He0, ?Ht; reflexivity.
Qed.

(** C2, evaluated: runMonteCarlo on a model whose "set up" flag is false
    prints its diagnostic and exits; computePartitionFunction has no such
    test: it never exits, and on a newly constructed model, which was
    never set up, it returns 0. *)
Theorem computePartitionFunction_ignores_setup_flag :
  (forall m : IsingModel double,
      hasBeenSetup m = false ->
      runMonteCarlo m = Exited "ERROR: Object has not been setup!") /\
  (forall (m : IsingModel double) start flips msg,
      computePartitionFunction start flips m <> Exited msg) /\
  (forall mcmd effH,
      hasBeenSetup (newIsingModel mcmd effH) = false /\
      computePartitionFunction 0 [] (newIsingModel mcmd effH)
        = Returned (of_int 0) (newIsingModel mcmd effH)).
Proof.
  split; [|split].
  - intros m Hm. unfold runMonteCarlo, bind, gets. rewrite Hm. reflexivity.
  - intros m start flips msg Hex.
    pose proof (computePartitionFunction_rec_never_exits
                  (Z.to_nat (nSpins m - start)) start flips m) as Hne.
    unfold computePartitionFunction, bind, gets in Hex.
    rewrite Hex in Hne. discriminate.
  - intros mcmd effH. split; reflexivity.
Qed.

End UseBeforeSetup.

(* ------------------------------------------------------------------ *)
(** ** The lattice at depth 0 *)

Section DepthZero.
Context {double : Type} {FO : FloatOps double} {EX : Externals double}.

Lemma with_latticeDimensions_twice d1 d2 (m : IsingModel double) :
  with_latticeDimensions d2 (with_latticeDimensions d1 m)
  = with_latticeDimensions d2 m.
Proof. now destruct m. Qed.

Lemma with_latticeDimensions_same (m : IsingModel double) :
  with_latticeDimensions (latticeDimensions m) m = m.
Proof. now destruct m. Qed.

(** The loop of lines 383-385 writes [latticeDimensions] only. *)
Lemma pushDimensions_outcome fuel :
  forall i (m : IsingModel double),
    match pushDimensions fuel i m with
    | Returned _ m' => exists dims, m' = with_latticeDimensions dims m
    | OutOfFuel => True
    | _ => False
    end.
Proof.
  induction fuel as [|fuel IH]; intros i m; simpl;
    unfold bind at 1; unfold gets at 1;
    destruct (of_int i <? dceil (hausdorffDim m))%D.
  - exact I.
  - exists (latticeDimensions m). now rewrite with_latticeDimensions_same.
  - unfold bind, gets, modify.
    match goal with |- context [pushDimensions fuel (i + 1) ?m1] =>
      specialize (IH (i + 1) m1); destruct (pushDimensions fuel (i + 1) m1)
    end; try exact IH.
    destruct IH as [dims ->]. exists dims.
    now rewrite with_latticeDimensions_twice.
  - exists (latticeDimensions m). now rewrite with_latticeDimensions_same.
Qed.

(** At depth 0 the index vector [vN] is empty and the loop test
    [vN.at(0) != -1] throws before any spin is made. *)
Lemma addSpins_depth_zero fuel x0 x1 (m : IsingModel double) :
  addSpins fuel 0 x0 x1 m = Thrown out_of_range m.
Proof.
  unfold addSpins, bind.
  destruct (readonly_at (St := IsingModel double) x1 0 m) as [[a Ha] | Ht];
    rewrite ?Ha, ?Ht; [|reflexivity].
  destruct (readonly_at (St := IsingModel double) x0 0 m) as [[b Hb] | Ht];
    rewrite ?Hb, ?Ht; [|reflexivity].
  unfold gets. rewrite Z.mul_0_r. simpl.
  destruct fuel; reflexivity.
Qed.

(** C5, evaluated: with the lattice depth 0, setup() never returns, for
    no dimension, scale or number of slices.  Unless the scale test ends
    the process (or the loop that pushes the dimensions does not end),
    std::out_of_range escapes from addSpins, with no spin made, [nSpins]
    as before and the "set up" flag untouched. *)
Theorem setup_at_depth_zero_throws :
  forall (fuel : nat) (m : IsingModel double),
    latticeDepth m = 0 ->
    match setup fuel m with
    | Returned _ _ => False
    | Thrown e m' =>
        e = out_of_range /\ spinArray m' = spinArray m /\
        nSpins m' = nSpins m /\ hasBeenSetup m' = hasBeenSetup m
    | Exited msg => msg = "ERROR: Invalid Hausdorff scaling"%string
    | Undefined => False
    | OutOfFuel => True
    end.
Proof.
  intros fuel m Hdepth. unfold setup.
  unfold bind at 1. unfold gets at 1.
  set (m1 := if String.eqb (hausdorffMethod m) "SCALING"
             then with_hausdorffScale
                    (dexp (- dceil (hausdorffDim m) * dlog (hausdorffSlices m)
                           / hausdorffDim m))%D m
             else m).
  assert (Hm1 : spinArray m1 = spinArray m /\ nSpins m1 = nSpins m /\
                hasBeenSetup m1 = hasBeenSetup m /\ latticeDepth m1 = 0).
  { unfold m1. destruct (String.eqb _ _); destruct m; simpl in *; auto. }
  assert (Hwhen : forall k : M (IsingModel double) unit,
             bind (when (String.eqb (hausdorffMethod m) "SCALING")
                     (dim <- gets hausdorffDim ;;
                      slices <- gets hausdorffSlices ;;
                      modify (with_hausdorffScale
                                (dexp (- dceil dim * dlog slices / dim))%D)))
                  (fun _ => k) m = k m1).
  { intros k. unfold m1, when, bind, gets, modify, ret.
    destruct (String.eqb _ _); reflexivity. }
  rewrite Hwhen. clear Hwhen.
  unfold bind at 1. unfold gets at 1.
  unfold bind at 1. unfold gets at 1.
  unfold bind at 1.
  destruct (of_int 1 / hausdorffSlices m1 <? hausdorffScale m1)%D;
    [reflexivity|].
  unfold ret at 1. unfold bind at 1.
  pose proof (pushDimensions_outcome fuel 0 m1) as Hpush.
  destruct (pushDimensions fuel 0 m1) as [[] m2 | | | |];
    try contradiction; [|exact I].
  destruct Hpush as [dims ->].
  unfold bind at 1. unfold gets at 1.
  unfold bind at 1. unfold gets at 1.
  replace (latticeDepth (with_latticeDimensions dims m1)) with 0
    by (destruct Hm1 as (_ & _ & _ & <-); now destruct m1).
  unfold bind. rewrite addSpins_depth_zero.
  destruct Hm1 as (Hs & Hn & Hf & _).
  rewrite <- Hs, <- Hn, <- Hf. destruct m1. repeat split.
Qed.

End DepthZero.

(* ------------------------------------------------------------------ *)
(** ** Acceptance of a single-spin flip *)

Section Acceptance.
Context {double rng : Type} {FO : FloatOps double} {EX : Externals double}
        {RG : RandomGen double rng}.


End Acceptance.

Lemma real_ltb_true x y : (x < y)%R -> real_ltb x y = true.
Proof. intros H. unfold real_ltb. now destruct (Rlt_dec x y). Qed.

Lemma real_ltb_false x y : (y <= x)%R -> real_ltb x y = false.
Proof. intros H. unfold real_ltb. destruct (Rlt_dec x y); [lra | reflexivity]. Qed.

Lemma real_leb_true x y : (x <= y)%R -> real_leb x y = true.
Proof. intros H. unfold real_leb. now destruct (Rle_dec x y). Qed.

Lemma real_leb_false x y : (y < x)%R -> real_leb x y = false.
Proof. intros H. unfold real_leb. destruct (Rle_dec x y); [lra | reflexivity]. Qed.

Lemma real_eqb_false x y : x <> y -> real_eqb x y = false.
Proof. intros H. unfold real_eqb. now destruct (Req_dec_T x y). Qed.





(* ------------------------------------------------------------------ *)
(** ** The adaptive group size of the Hybrid policy *)

Section Granularity.
Context {double : Type} {FO : FloatOps double} {EX : Externals double}.

Hypothesis lt_le : forall x y : double, (x <? y)%D = true -> (x <=? y)%D = true.

Lemma adaptGranularity_decreasing (m : IsingModel double) g newAvg avg :
  (newAvg <? avg)%D = true ->
  adaptGranularity g newAvg avg m
  = Returned (halvedSize (Z.abs (magnetization m) <? Z.quot (nSpins m) 2)
                         (Z.max g 1)) m.
Proof.
  intros Hlt. unfold adaptGranularity, halvedSize, bind, gets, ret.
  rewrite (lt_le _ _ Hlt), orb_true_r, orb_true_l, andb_true_r.
  replace (if g <? 1 then 1 else g) with (Z.max g 1)
    by (destruct (Z.ltb_spec g 1); lia).
  destruct (Z.ltb_spec 1 (Z.max g 1)) as [Hg | Hg].
  - f_equal. apply Z.max_l.
    assert (1 * 2 <= Z.max g 1) by lia.
    apply Z.quot_le_lower_bound; lia.
  - replace (Z.max g 1) with 1 by lia. simpl.
    now destruct (Z.abs (magnetization m) <? Z.quot (nSpins m) 2).
Qed.

(** C6, amended: the group size starts at floor(nSpins/nThreads); on a
    sequence of sums that strictly decreases at every step the control loop
    sets a size at every step, and each size follows the one before (raised
    to 1 when it is below) by halving, with the integer division, while it
    is above 1; a size of 1 becomes 2 when |magnetization| < nSpins/2 and
    stays 1 otherwise.  The comparison is assumed to map [x < y] to
    [x <= y]. *)
Theorem decreasing_sums_halve_the_group_size :
  forall (m : IsingModel double) (g : Z) (avg : double) (newAvgs : list double),
    strictlyDecreasing avg newAvgs ->
    List.length (hybridSizes m g avg newAvgs) = List.length newAvgs /\
    followsHalving (Z.abs (magnetization m) <? Z.quot (nSpins m) 2) g
                   (hybridSizes m g avg newAvgs) /\
    (nThreads m <> 0 ->
       initialGranularity m
       = Returned (to_int (dfloor (of_int (Z.quot (nSpins m) (nThreads m))))) m).
Proof.
  intros m g avg newAvgs Hdec. split; [|split].
  - revert g avg Hdec. induction newAvgs as [|a rest IH]; intros g avg Hdec;
      simpl; [reflexivity|].
    destruct Hdec as [Ha Hrest].
    rewrite (adaptGranularity_decreasing m g a avg Ha). simpl.
    now rewrite IH.
  - revert g avg Hdec. induction newAvgs as [|a rest IH]; intros g avg Hdec;
      simpl; [exact I|].
    destruct Hdec as [Ha Hrest].
    rewrite (adaptGranularity_decreasing m g a avg Ha). simpl.
    split; [reflexivity | now apply IH].
  - intros Ht. unfold initialGranularity, bind, gets.
    destruct (Z.eqb_spec (nThreads m) 0); [contradiction | reflexivity].
Qed.

End Granularity.

Lemma real_lt_le (x y : R) : real_ltb x y = true -> real_leb x y = true.
Proof.
  unfold real_ltb, real_leb. destruct (Rlt_dec x y); [|discriminate].
  intros _. destruct (Rle_dec x y); [reflexivity | lra].
Qed.

Lemma Int_part_IZR z : Int_part (IZR z) = z.
Proof. symmetry. apply Int_part_spec. split; lra. Qed.

Lemma real_trunc_IZR z : 0 <= z -> real_trunc (IZR z) = z.
Proof.
  intros Hz. unfold real_trunc.
  destruct (Rle_dec 0 (IZR z)) as [_ | Hn]; [apply Int_part_IZR|].
  exfalso. apply Hn. now apply IZR_le.
Qed.

Ltac real_decide :=
  repeat match goal with
         | |- context [real_ltb ?x ?y] =>
             first [ rewrite (real_ltb_true x y) by lra
                   | rewrite (real_ltb_false x y) by lra ]
         | |- context [real_leb ?x ?y] =>
             first [ rewrite (real_leb_true x y) by lra
                   | rewrite (real_leb_false x y) by lra ]
         end.

(** C6 as stated fails: on the four-spin lattice with one thread the group
    size starts at 4, not at 1, and on the sums 3, 2, 1, which decrease, it
    goes 2, 1, 2: halved twice, and doubled only from 1. *)
Lemma decreasing_sums_do_not_double_the_group_size :
  strictlyDecreasing (FO := RealOps) 3%R [2%R; 1%R] /\
  initialGranularity (lattice4 "HYBRID") = Returned 4 (lattice4 "HYBRID") /\
  hybridSizes (lattice4 "HYBRID") 4 (of_int (-1)) [3%R; 2%R; 1%R] = [2; 1; 2].
Proof.
  split; [|split].
  - simpl. split; [apply real_ltb_true; lra|].
    split; [apply real_ltb_true; lra | exact I].
  - unfold initialGranularity, bind, gets, ret. simpl.
    change (4 ÷ 1) with 4.
    rewrite Int_part_IZR, real_trunc_IZR by lia. reflexivity.
  - unfold hybridSizes, adaptGranularity, bind, gets, ret. simpl.
    real_decide. simpl. real_decide. simpl. real_decide. reflexivity.
Qed.

(** The witness of C6, amended: the sums 2, 1 after a sum of 3, from the
    size 4. *)
Lemma decreasing_sums_halve_the_group_size_witness :
  List.length (hybridSizes (lattice4 "HYBRID") 4 3%R [2%R; 1%R]) = 2%nat /\
  followsHalving true 4 (hybridSizes (lattice4 "HYBRID") 4 3%R [2%R; 1%R]).
Proof.
  destruct (decreasing_sums_halve_the_group_size (FO := RealOps) real_lt_le
              (lattice4 "HYBRID") 4 3%R [2%R; 1%R]) as (Hl & Hf & _).
  - simpl. split; [apply real_ltb_true; lra|].
    split; [apply real_ltb_true; lra | exact I].
  - split; [exact Hl | exact Hf].
Defined.

(* ------------------------------------------------------------------ *)
(** ** The groups of a Hybrid step *)

Section Groups.
Context {double rng : Type} {FO : FloatOps double} {EX : Externals double}
        {RG : RandomGen double rng}.

Lemma erase_incl {A} (v : list A) k : incl (erase v k) v.
Proof.
  revert k. induction v as [|x v IH]; intros k; simpl.
  - destruct k; apply incl_refl.
  - destruct k as [|k]; [apply incl_tl, incl_refl|].
    intros y [-> | Hy]; [now left | right; now apply (IH k)].
Qed.

Lemma at_outcome {A} (v : list A) i (m : IsingModel double) :
  (exists x, at_ v i m = Returned x m /\ In x v) \/
  at_ v i m = Thrown out_of_range m.
Proof.
  unfold at_. destruct (i <? 0); [now right|].
  destruct (nth_error v (Z.to_nat i)) as [x|] eqn:E; [left | now right].
  exists x. split; [reflexivity | eapply nth_error_In; eassumption].
Qed.

(** The loop of lines 477-482 pushes one index of the pool per round
    behind what [spinFlips] holds already. *)
Lemma drawing_loop_outcome (m : IsingModel double) :
  forall (l : list Z) spinFlips popVector popVectorSize (r : rng),
    match foldM drawIndex l (spinFlips, popVector, popVectorSize, r) m with
    | Returned (spinFlips', popVector', _, _) m' =>
        m' = m /\ incl popVector' popVector /\
        exists drawn,
          spinFlips' = spinFlips ++ drawn /\
          List.length drawn = List.length l /\ incl drawn popVector
    | Thrown e m' => e = out_of_range /\ m' = m
    | _ => False
    end.
Proof.
  induction l as [|j l IH]; intros spinFlips popVector popVectorSize r.
  - simpl. split; [reflexivity|]. split; [apply incl_refl|].
    exists []. rewrite app_nil_r. repeat split. intros x [].
  - cbn [foldM]. unfold bind at 1. unfold drawIndex at 1.
    destruct (Integer popVectorSize r) as [index r1].
    unfold bind at 1.
    destruct (at_outcome popVector index m) as [(x & -> & Hx) | ->];
      [|now split].
    cbv beta iota delta [ret].
    specialize (IH (spinFlips ++ [x]) (erase popVector (Z.to_nat index))
                   (popVectorSize - 1) r1).
    match goal with
    | |- match ?o with _ => _ end =>
        match type of IH with match ?o' with _ => _ end =>
          change o with o'; destruct o' as [[[[sf pv] ps] r2] m' | e m' | | |]
        end
    end; try exact IH.
    destruct IH as (-> & Hpv & drawn & -> & Hlen & Hdrawn).
    split; [reflexivity|].
    split; [intros y Hy; eapply erase_incl; now apply Hpv|].
    exists (x :: drawn). rewrite <- app_assoc. repeat split.
    + simpl. now rewrite Hlen.
    + intros y [<- | Hy]; [exact Hx | eapply erase_incl; now apply Hdrawn].
Qed.

(** While the pool holds at least [nSpinsPerThread] indices, the group
    drawn is [nSpinsPerThread] times the index 0 followed by the
    [nSpinsPerThread] indices drawn from the pool. *)
Lemma drawSpinFlips_pads_with_index_zero :
  forall (nSpinsPerThread : Z) (popVector : list Z) (popVectorSize : Z)
         (r : rng) (m : IsingModel double),
    1 <= nSpinsPerThread ->
    nSpinsPerThread <= len popVector ->
    match drawSpinFlips nSpinsPerThread popVector popVectorSize r m with
    | Returned (spinFlips, popVector', _, _) m' =>
        m' = m /\ incl popVector' popVector /\
        In 0 spinFlips /\
        (2 <= nSpinsPerThread -> ~ NoDup spinFlips) /\
        exists drawn,
          spinFlips = repeat 0 (Z.to_nat nSpinsPerThread) ++ drawn /\
          len drawn = nSpinsPerThread /\ incl drawn popVector
    | Thrown e m' => e = out_of_range /\ m' = m
    | _ => False
    end.
Proof.
  intros g pop size r m Hg Hpop. unfold drawSpinFlips.
  destruct (Z.ltb_spec (len pop) g) as [Hlt | _]; [lia|].
  pose proof (drawing_loop_outcome m (range 0 g)
                (repeat 0 (Z.to_nat g)) pop size r) as Hloop.
  match goal with
  | |- match ?o with _ => _ end =>
      match type of Hloop with match ?o' with _ => _ end =>
        change o with o'; destruct o' as [[[[sf pv] ps] r2] m' | e m' | | |]
      end
  end; try exact Hloop.
  destruct Hloop as (-> & Hpv & drawn & -> & Hlen & Hdrawn).
  rewrite length_range in Hlen.
  assert (Hrep : exists k, Z.to_nat g = S k) by (exists (Z.to_nat (g - 1)); lia).
  destruct Hrep as [k Hk].
  split; [reflexivity|]. split; [exact Hpv|]. split; [|split].
  - rewrite Hk. now left.
  - intros H2 Hnd. destruct k as [|k]; [lia|].
    rewrite Hk in Hnd. simpl in Hnd.
    inversion Hnd as [|? ? Hnotin _]. apply Hnotin. now left.
  - exists drawn. repeat split; [unfold len; lia | exact Hdrawn].
Qed.

Lemma padded_has_zero g G :
  1 <= g -> padded g G -> In 0 G /\ (2 <= g -> ~ NoDup G).
Proof.
  intros Hg (drawn & -> & _).
  assert (Hrep : exists k, Z.to_nat g = S k) by (exists (Z.to_nat (g - 1)); lia).
  destruct Hrep as [k Hk]. rewrite Hk. split; [now left|].
  intros H2 Hnd. destruct k as [|k]; [lia|].
  simpl in Hnd. inversion Hnd as [|? ? Hnotin _]. apply Hnotin. now left.
Qed.

(** C3, evaluated: in the loop over the threads of one Hybrid step, every
    group handed to hybridStep, except possibly the last, is
    [nSpinsPerThread] times the index 0 followed by [nSpinsPerThread]
    indices drawn from the pool.  So index 0 is in every such group, drawn
    or not: the groups are not disjoint, and a group of two or more drawn
    indices holds index 0 more than once. *)
Theorem hybridThreads_pads_groups_with_index_zero :
  forall (fuel : nat) (nSpinsPerThread : Z) (popVector : list Z)
         (popVectorSize : Z) (r : rng) (groups : list (list Z))
         (m : IsingModel double),
    1 <= nSpinsPerThread ->
    match hybridThreads fuel nSpinsPerThread popVector popVectorSize r groups m with
    | Returned (out, _) _ =>
        exists new,
          out = groups ++ new /\
          Forall (padded nSpinsPerThread) (removelast new) /\
          (forall G, In G (removelast new) ->
                     In 0 G /\ (2 <= nSpinsPerThread -> ~ NoDup G))
    | _ => True
    end.
Proof.
  intros fuel g pop size r groups m Hg.
  assert (Hmain :
    match hybridThreads fuel g pop size r groups m with
    | Returned (out, _) _ =>
        exists new, out = groups ++ new /\ Forall (padded g) (removelast new)
    | _ => True
    end).
  { revert pop size r groups m.
    induction fuel as [|fuel IH]; intros pop size r groups m; simpl.
    - destruct (0 <? size); [exact I|].
      exists []. rewrite app_nil_r. split; [reflexivity | constructor].
    - destruct (0 <? size).
      2:{ exists []. rewrite app_nil_r. split; [reflexivity | constructor]. }
      unfold bind at 1.
      destruct (Z.ltb_spec (len pop) g) as [Hshort | Hlong].
      + (* the rest of the pool *)
        unfold drawSpinFlips.
        destruct (Z.ltb_spec (len pop) g) as [_ | Hge]; [|lia].
        cbv beta iota delta [ret].
        destruct (Uniform r) as [u r1]. unfold bind at 1.
        destruct (hybridStep u pop m) as [[] m1 | | | |]; trivial.
        destruct fuel; simpl; exists [pop]; split; trivial; constructor.
      + (* a drawn group *)
        pose proof (drawSpinFlips_pads_with_index_zero g pop size r m Hg Hlong)
          as Hdraw.
        destruct (drawSpinFlips g pop size r m)
          as [[[[G pop'] size'] r1] m1 | | | |]; trivial.
        destruct Hdraw as (-> & _ & _ & _ & drawn & HG & Hlen).
        destruct (Uniform r1) as [u r2]. unfold bind at 1.
        destruct (hybridStep u G m) as [[] m2 | | | |]; trivial.
        specialize (IH pop' size' r2 (groups ++ [G]) m2).
        destruct (hybridThreads fuel g pop' size' r2 (groups ++ [G]) m2)
          as [[out r3] m3 | | | |]; trivial.
        destruct IH as (new & -> & Hnew).
        exists (G :: new). rewrite <- app_assoc. split; [reflexivity|].
        destruct new as [|G' new]; [constructor|].
        change (removelast (G :: G' :: new)) with (G :: removelast (G' :: new)).
        constructor; [|exact Hnew].
        exists drawn. split; [exact HG | apply Hlen]. }
  destruct (hybridThreads fuel g pop size r groups m)
    as [[out r'] m' | | | |]; trivial.
  destruct Hmain as (new & Hout & Hpad). exists new.
  split; [exact Hout|]. split; [exact Hpad|].
  intros G HG. rewrite Forall_forall in Hpad.
  now apply padded_has_zero, Hpad.
Qed.

End Groups.

(* ------------------------------------------------------------------ *)
(** ** Over the real numbers the energy of a consistent model is defined *)

Section Returns.
Context {St : Type} (s : St).

Lemma returnsAt_ret {A} (a : A) : returnsAt s (ret a).
Proof. now exists a. Qed.

Lemma returnsAt_gets {A} (f : St -> A) : returnsAt s (gets f).
Proof. now exists (f s). Qed.

Lemma returnsAt_bind {A B} (c : M St A) (k : A -> M St B) :
  returnsAt s c -> (forall a, returnsAt s (k a)) -> returnsAt s (bind c k).
Proof. intros [a Ha] Hk. unfold returnsAt, bind. rewrite Ha. apply Hk. Qed.

(** As [returnsAt_bind], knowing the value [c] returns. *)
Lemma returnsAt_bind_val {A B} (c : M St A) (k : A -> M St B) a :
  c s = Returned a s -> returnsAt s (k a) -> returnsAt s (bind c k).
Proof. intros Ha Hk. unfold returnsAt, bind. now rewrite Ha. Qed.

Lemma returnsAt_if {A} (b : bool) (c1 c2 : M St A) :
  (b = true -> returnsAt s c1) -> (b = false -> returnsAt s c2) ->
  returnsAt s (if b then c1 else c2).
Proof. destruct b; auto. Qed.

Lemma returnsAt_at {A} (v : list A) i :
  0 <= i < len v -> returnsAt s (at_ v i).
Proof.
  intros Hi. unfold at_. destruct (Z.ltb_spec i 0); [lia|].
  destruct (nth_error v (Z.to_nat i)) eqn:E; [apply returnsAt_ret|].
  apply nth_error_None in E. unfold len in Hi. lia.
Qed.

Lemma at_value {A} (v : list A) i :
  0 <= i < len v ->
  exists a, at_ v i s = Returned a s /\ In a v.
Proof.
  intros Hi. unfold at_. destruct (Z.ltb_spec i 0); [lia|].
  destruct (nth_error v (Z.to_nat i)) eqn:E.
  - exists a. split; [reflexivity | eapply nth_error_In; eassumption].
  - apply nth_error_None in E. unfold len in Hi. lia.
Qed.

Lemma returnsAt_andM (a b : M St bool) :
  returnsAt s a -> returnsAt s b -> returnsAt s (andM a b).
Proof.
  intros Ha Hb. apply returnsAt_bind; [exact Ha|].
  intros x. apply returnsAt_if; intros _; [exact Hb | apply returnsAt_ret].
Qed.

Lemma returnsAt_foldM {A B} (body : A -> B -> M St A) (l : list B) :
  (forall acc x, In x l -> returnsAt s (body acc x)) ->
  forall acc, returnsAt s (foldM body l acc).
Proof.
  induction l as [|x l IH]; intros Hb acc; simpl.
  - apply returnsAt_ret.
  - apply returnsAt_bind; [apply Hb; now left|].
    intros acc'. apply IH. intros acc'' y Hy. apply Hb. now right.
Qed.

End Returns.

Lemma real_pow_pos x y : (0 < x)%R -> (0 < real_pow x y)%R.
Proof.
  intros Hx. unfold real_pow.
  destruct (Req_dec_T y 0); [lra|].
  destruct (Rlt_dec 0 x); [|contradiction].
  unfold Rpower. apply exp_pos.
Qed.

Lemma real_trunc_range (x : R) (n : Z) :
  (-1 < x)%R -> (x < IZR n)%R -> 0 < n -> 0 <= real_trunc x < n.
Proof.
  intros Hlo Hhi Hn. unfold real_trunc.
  destruct (Rle_dec 0 x) as [Hx | Hx].
  - destruct (base_Int_part x) as [H1 H2]. split.
    + assert (H : (IZR (-1) < IZR (Int_part x))%R) by lra.
      apply lt_IZR in H. lia.
    + apply lt_IZR. lra.
  - assert (H : Int_part (- x) = 0).
    { symmetry. apply Int_part_spec. split; lra. }
    rewrite H. lia.
Qed.

Section RealEnergy.
#[local] Existing Instance RealOps.
Context {EX : Externals R}.

Lemma returnsAt_getDistanceSq (m : IsingModel R) (s1 s2 : spin R) :
  len (coords s1) = len (coords s2) ->
  returnsAt m (getDistanceSq s1 s2).
Proof.
  intros Hlen. unfold getDistanceSq.
  apply returnsAt_bind; [apply returnsAt_gets | intros sigma].
  apply returnsAt_if; intros _; [apply returnsAt_ret|].
  apply returnsAt_bind.
  - apply returnsAt_foldM. intros acc i Hi. apply In_range in Hi.
    apply returnsAt_bind; [apply returnsAt_at; lia | intros a].
    apply returnsAt_bind; [apply returnsAt_at; lia | intros b].
    apply returnsAt_ret.
  - intros d. apply returnsAt_if; intros _; apply returnsAt_ret.
Qed.

Ltac returns_gets := eapply returnsAt_bind_val; [reflexivity|]; cbv beta.

Lemma real_ltb_lt x y : real_ltb x y = true -> (x < y)%R.
Proof. unfold real_ltb. destruct (Rlt_dec x y); [trivial | discriminate]. Qed.

Lemma returnsAt_getK (m : IsingModel R) : returnsAt m getK.
Proof. unfold getK. do 2 returns_gets. apply returnsAt_ret. Qed.

Lemma returnsAt_geth (m : IsingModel R) : returnsAt m geth.
Proof. unfold geth. do 2 returns_gets. apply returnsAt_ret. Qed.

Lemma returnsAt_neighbourTerm (m : IsingModel R) flips s spinFlip newIndex energy :
  consistent m ->
  len (coords s) = len (latticeDimensions m) ->
  0 <= newIndex < nSpins m ->
  returnsAt m (neighbourTerm flips s spinFlip newIndex energy).
Proof.
  intros (Hn & Hdims & Hcoords) Hs Hidx. unfold neighbourTerm.
  returns_gets.
  destruct (at_value m (spinArray m) newIndex) as (t & Ht & Hin); [lia|].
  eapply returnsAt_bind_val; [exact Ht|].
  apply returnsAt_if; intros _; [|apply returnsAt_ret].
  apply returnsAt_bind; [apply returnsAt_getK | intros K].
  apply returnsAt_bind.
  - apply returnsAt_getDistanceSq.
    rewrite Forall_forall in Hcoords. rewrite (Hcoords t Hin). exact Hs.
  - intros dsq. returns_gets. apply returnsAt_ret.
Qed.

(** A guarded test [c1 && X]: it returns, and it holds only when [c1] does. *)
Lemma andM_guard {St} (s : St) (c1 : bool) (X : M St bool) :
  (c1 = true -> returnsAt s X) ->
  exists b, andM (ret c1) X s = Returned b s /\ (b = true -> c1 = true).
Proof.
  intros HX. unfold andM, bind, ret. destruct c1.
  - destruct (HX eq_refl) as [b Hb]. exists b. now split.
  - exists false. now split.
Qed.

(** Over the real numbers getEffHamiltonian returns on every consistent
    model, for every flip set: no index it computes leaves the arrays. *)
Lemma getEffHamiltonian_returns (m : IsingModel R) (flips : list Z) :
  consistent m -> returnsAt m (getEffHamiltonian flips).
Proof.
  intros Hc. pose proof Hc as (Hn & Hdims & Hcoords).
  rewrite Forall_forall in Hdims, Hcoords.
  unfold getEffHamiltonian. returns_gets.
  apply returnsAt_foldM. intros energy i Hi. apply In_range in Hi.
  returns_gets.
  destruct (at_value m (spinArray m) i) as (s & Hs & Hin); [lia|].
  eapply returnsAt_bind_val; [exact Hs|].
  pose proof (Hcoords s Hin) as Hlen.
  apply returnsAt_if; intros _; [apply returnsAt_ret|].
  apply returnsAt_bind; [apply returnsAt_geth | intros h].
  returns_gets.
  apply returnsAt_foldM. intros energy' j Hj. apply In_range in Hj.
  destruct (at_value m (latticeDimensions m) j) as (dj & Hdj & Hdin); [lia|].
  eapply returnsAt_bind_val; [exact Hdj|].
  pose proof (Hdims dj Hdin) as Hpos.
  assert (HPM : (0 < real_pow (IZR dj)
                       (IZR (len (latticeDimensions m) - 1 - j)))%R).
  { apply real_pow_pos. now apply (IZR_lt 0). }
  set (indexPM := dpow (of_int dj)
                       (of_int (len (latticeDimensions m) - 1 - j))) in *.
  assert (Hi0 : (0 <= IZR i)%R) by (apply (IZR_le 0); lia).
  assert (Hin' : (IZR i < IZR (nSpins m))%R) by (apply IZR_lt; lia).
  (* the neighbour to the left *)
  match goal with
  | |- returnsAt m (bind (andM (ret ?c1) ?X) _) =>
      destruct (andM_guard m c1 X) as (left & Hleft & Hguard)
  end.
  { intros Hc1. apply real_ltb_lt in Hc1. cbn in Hc1.
    apply returnsAt_andM.
    - apply returnsAt_bind; [apply returnsAt_at; lia | intros c].
      apply returnsAt_ret.
    - destruct (at_value m (spinArray m) (to_int (of_int i - indexPM)%D))
        as (t & Ht & Htin).
      { rewrite <- Hn. apply real_trunc_range; cbn; lra || lia. }
      eapply returnsAt_bind_val; [exact Ht|].
      apply returnsAt_bind; [|intros c; apply returnsAt_ret].
      apply returnsAt_at. rewrite (Hcoords t Htin). lia. }
  eapply returnsAt_bind_val; [exact Hleft|].
  apply returnsAt_bind.
  { apply returnsAt_if; intros Hl; [|apply returnsAt_ret].
    apply Hguard, real_ltb_lt in Hl. cbn in Hl.
    apply returnsAt_neighbourTerm; [exact Hc | exact Hlen|].
    apply real_trunc_range; cbn; lra || lia. }
  intros energy''.
  (* the neighbour to the right *)
  match goal with
  | |- returnsAt m (bind (andM (ret ?c1) ?X) _) =>
      destruct (andM_guard m c1 X) as (right & Hright & Hguard')
  end.
  { intros Hc1. apply real_ltb_lt in Hc1. cbn in Hc1.
    apply returnsAt_andM.
    - apply returnsAt_bind; [apply returnsAt_at; lia | intros c].
      apply returnsAt_ret.
    - destruct (at_value m (spinArray m) (to_int (of_int i + indexPM)%D))
        as (t & Ht & Htin).
      { rewrite <- Hn. apply real_trunc_range; cbn; lra || lia. }
      eapply returnsAt_bind_val; [exact Ht|].
      apply returnsAt_bind; [|intros c; apply returnsAt_ret].
      apply returnsAt_at. rewrite (Hcoords t Htin). lia. }
  eapply returnsAt_bind_val; [exact Hright|].
  apply returnsAt_if; intros Hr; [|apply returnsAt_ret].
  apply Hguard', real_ltb_lt in Hr. cbn in Hr.
  apply returnsAt_neighbourTerm; [exact Hc | exact Hlen|].
  apply real_trunc_range; cbn; lra || lia.
Qed.

End RealEnergy.

Lemma boltzmannSum_returns {EX : Externals R} (m : IsingModel R) Fs :
  consistent m -> returnsAt m (boltzmannSum Fs).
Proof.
  intros Hc. unfold boltzmannSum. apply returnsAt_foldM. intros acc F _.
  apply returnsAt_bind; [now apply getEffHamiltonian_returns | intros e].
  apply returnsAt_ret.
Qed.

Lemma consistent_lattice4 mcmd : consistent (lattice4 mcmd).
Proof.
  unfold consistent, lattice4, site. simpl.
  repeat split; repeat constructor.
Qed.

(* ------------------------------------------------------------------ *)
(** ** The invariant of the object *)

Section Triples.
Context {St : Type}.

Lemma triple_ret {A} (P : St -> Prop) (a : A) Q E :
  (forall s, P s -> Q a s) -> triple P (ret a) Q E.
Proof. intros H s Hs. now apply H. Qed.

Lemma triple_bind {A B} (P : St -> Prop) (c : M St A) (k : A -> M St B) Q R E :
  triple P c Q E -> (forall a, triple (Q a) (k a) R E) ->
  triple P (bind c k) R E.
Proof.
  intros Hc Hk s Hs. unfold bind. specialize (Hc s Hs).
  destruct (c s) as [a s' | e s' | | |]; trivial. now apply Hk.
Qed.

Lemma triple_weaken {A} (P P' : St -> Prop) (c : M St A) (Q Q' : A -> St -> Prop) E E' :
  triple P c Q E ->
  (forall s, P' s -> P s) -> (forall a s, Q a s -> Q' a s) ->
  (forall s, E s -> E' s) ->
  triple P' c Q' E'.
Proof.
  intros Hc HP HQ HE s Hs. specialize (Hc s (HP s Hs)).
  destruct (c s); auto.
Qed.

Lemma triple_readonly {A} (P : St -> Prop) (c : M St A) :
  readonly c -> triple P c (fun _ => P) P.
Proof.
  intros Hr s Hs. destruct (Hr s) as [[a Ha] | Ht]; rewrite ?Ha, ?Ht; exact Hs.
Qed.

Lemma triple_gets {A} (P : St -> Prop) (f : St -> A) E :
  triple P (gets f) (fun a s => P s /\ a = f s) E.
Proof. intros s Hs. now split. Qed.

Lemma triple_modify (P : St -> Prop) (f : St -> St) (Q : unit -> St -> Prop) E :
  (forall s, P s -> Q tt (f s)) -> triple P (modify f) Q E.
Proof. intros H s Hs. now apply H. Qed.

Lemma triple_throw {A} (P : St -> Prop) e (Q : A -> St -> Prop) (E : St -> Prop) :
  (forall s, P s -> E s) -> triple P (throw e) Q E.
Proof. intros H s Hs. now apply H. Qed.

Lemma triple_if {A} (P : St -> Prop) (b : bool) (c1 c2 : M St A) Q E :
  triple P c1 Q E -> triple P c2 Q E -> triple P (if b then c1 else c2) Q E.
Proof. now destruct b. Qed.

Lemma triple_foldM {A B} (J : St -> Prop) (body : A -> B -> M St A) E :
  (forall acc x, triple J (body acc x) (fun _ => J) E) ->
  forall l acc, triple J (foldM body l acc) (fun _ => J) E.
Proof.
  intros Hb. induction l as [|x l IH]; intros acc; simpl.
  - now apply triple_ret.
  - eapply triple_bind; [apply Hb | exact IH].
Qed.

(** A triple whose precondition fixes a quantity of the state. *)
Lemma triple_at_state {A X} (P : St -> Prop) (f : St -> X)
    (c : M St A) (Q : X -> A -> St -> Prop) E :
  (forall x, triple (fun s => P s /\ f s = x) c (Q x) E) ->
  forall s, P s ->
    match c s with
    | Returned a s' => Q (f s) a s'
    | Thrown _ s' => E s'
    | _ => True
    end.
Proof. intros H s Hs. now apply (H (f s) s). Qed.

End Triples.

Lemma readonly_set_at {St A} (v : list A) i x :
  readonly (St := St) (set_at v i x).
Proof.
  unfold set_at. apply readonly_if; [apply readonly_throw | apply readonly_ret].
Qed.

Lemma length_update {A} (v : list A) i x :
  List.length (update v i x) = List.length v.
Proof.
  revert i. induction v as [|y v IH]; intros i; simpl; [now destruct i|].
  destruct i; simpl; [reflexivity | now rewrite IH].
Qed.

Lemma Forall_update {A} (P : A -> Prop) (v : list A) i x :
  Forall P v -> P x -> Forall P (update v i x).
Proof.
  intros Hv Hx. revert i. induction Hv as [|y v Hy Hv IH]; intros i; simpl.
  - destruct i; constructor.
  - destruct i; constructor; auto.
Qed.

Section LatticeInvariant.
Context {double : Type} {FO : FloatOps double} {EX : Externals double}.
#[local] Abbreviation model := (IsingModel double).

Lemma atLeast_le b n n' (m : model) : n' <= n -> atLeast b n m -> atLeast b n' m.
Proof. intros Hle (Hc & Hb & Hn). split; [exact Hc|]. split; [exact Hb | lia]. Qed.

(** *** The permutation loops *)

Lemma triple_permutationLoop (J E : model -> Prop) max body :
  (forall v, triple J (body v) (fun _ => J) E) ->
  (forall s, J s -> E s) ->
  forall fuel v, triple J (permutationLoop fuel v max body) (fun _ => J) E.
Proof.
  intros Hbody HIE. induction fuel as [|fuel IH]; intros v; simpl.
  - eapply (triple_bind _ _ _ (fun _ => J)).
    + eapply triple_weaken; [apply (triple_readonly J), readonly_at | | |]; auto.
    + intros v0. destruct (v0 =? -1); [now apply triple_ret | easy].
  - eapply (triple_bind _ _ _ (fun _ => J)).
    + eapply triple_weaken; [apply (triple_readonly J), readonly_at | | |]; auto.
    + intros v0. destruct (v0 =? -1); [now apply triple_ret|].
      eapply triple_bind; [apply Hbody | intros ?; apply IH].
Qed.

(** From the vector of zeros the body runs once at least. *)
Lemma triple_permutationLoop_zeros (P J E : model -> Prop) max body :
  (forall v, triple P (body v) (fun _ => J) E) ->
  (forall v, triple J (body v) (fun _ => J) E) ->
  (forall s, P s -> E s) -> (forall s, J s -> E s) ->
  forall fuel k,
    triple P (permutationLoop fuel (repeat 0 k) max body) (fun _ => J) E.
Proof.
  intros HP HI HPE HIE fuel k s Hs.
  destruct k as [|k].
  - destruct fuel; simpl; now apply HPE.
  - destruct fuel as [|fuel]; [exact I|].
    cbn [permutationLoop repeat]. unfold bind at 1.
    change (at_ (0 :: repeat 0 k) 0 s) with (Returned (St := model) 0 s).
    cbv beta iota. change (0 =? -1) with false. cbv iota.
    unfold bind. specialize (HP (0 :: repeat 0 k) s Hs).
    destruct (body (0 :: repeat 0 k) s) as [[] s1 | e s1 | | |]; trivial.
    now apply (triple_permutationLoop J E max body HI HIE).
Qed.

(** *** One corner, one hypercube *)

Lemma triple_addCorner b depth delta cPos cubePoints n :
  triple (atLeast b n) (addCorner depth delta cPos cubePoints)
         (fun _ => atLeast b (n + 1)) (atLeast b n).
Proof.
  unfold addCorner.
  eapply triple_bind; [apply triple_gets | intros dims].
  eapply triple_bind.
  - eapply triple_weaken with (P := atLeast b n);
      [apply triple_readonly | | intros a s H; exact H | intros s H; exact H].
    + apply readonly_foldM. intros acc x.
      repeat first [apply readonly_set_at | readonly_step].
    + now intros s [H _].
  - intros tcoords s ((Hlen & Hact) & Hb & Hn).
    unfold bind, gets, modify. destruct s; simpl in *.
    unfold atLeast, spinsCounted. simpl. split; [split|split].
    + unfold len in *. rewrite length_app. simpl. lia.
    + apply Forall_app. split; [exact Hact | repeat constructor].
    + exact Hb.
    + lia.
Qed.

Lemma readonly_cornerPosition depth x0 delta vN :
  readonly (cornerPosition depth x0 delta vN).
Proof.
  unfold cornerPosition.
  repeat first [apply readonly_set_at | readonly_step].
Qed.

Lemma triple_hypercube b fuel depth x0 delta k vN n :
  triple (atLeast b n)
         (cPos <- cornerPosition depth x0 delta vN ;;
          permutationLoop fuel (repeat 0 k) 2 (addCorner depth delta cPos))
         (fun _ => atLeast b (n + 1)) (atLeast b n).
Proof.
  eapply triple_bind.
  - apply triple_readonly, readonly_cornerPosition.
  - intros cPos. apply triple_permutationLoop_zeros.
    + intros v. apply triple_addCorner.
    + intros v. eapply triple_weaken; [apply (triple_addCorner b _ _ _ _ (n + 1)) | | |].
      * auto.
      * intros ? s. apply atLeast_le. lia.
      * intros s. apply atLeast_le. lia.
    + auto.
    + intros s. apply atLeast_le. lia.
Qed.

(** *** The sort *)

Lemma index_outcome {A} (vec : list A) i (m : model) :
  (exists a, index_ vec i m = Returned a m /\ In a vec) \/
  index_ vec i m = Undefined.
Proof.
  unfold index_. destruct (i <? 0); [now right|].
  destruct (nth_error vec (Z.to_nat i)) as [a|] eqn:E; [left | now right].
  exists a. split; [reflexivity | eapply nth_error_In; eassumption].
Qed.

Lemma triple_swap b n i j :
  triple (atLeast b n) (swap (double := double) i j)
         (fun _ => atLeast b n) (atLeast b n).
Proof.
  intros s ((Hlen & Hact) & Hb & Hn). unfold swap, bind, gets.
  destruct (index_outcome (spinArray s) i s) as [(a & -> & Ha) | ->]; [|exact I].
  destruct (index_outcome (spinArray s) j s) as [(c & -> & Hc) | ->]; [|exact I].
  unfold modify. rewrite Forall_forall in Hact.
  assert (Hupd : Forall (fun s0 : spin double => active s0 = true)
                   (update (update (spinArray s) (Z.to_nat i) c) (Z.to_nat j) a)).
  { apply Forall_update; [apply Forall_update|]; auto.
    now apply Forall_forall. }
  destruct s; simpl in *. unfold atLeast, spinsCounted. simpl.
  split; [split|split]; trivial.
  unfold len in *. now rewrite !length_update.
Qed.

Lemma triple_QSPartition b n low high :
  triple (atLeast b n) (QSPartition low high) (fun _ => atLeast b n) (atLeast b n).
Proof.
  unfold QSPartition.
  eapply triple_bind; [apply triple_gets | intros vec].
  eapply (triple_bind _ _ _ (fun _ => atLeast b n)).
  { intros s [Hs _].
    destruct (index_outcome vec high s) as [(a & -> & _) | ->]; [exact Hs | exact I]. }
  intros pivot.
  eapply (triple_bind _ _ _ (fun _ => atLeast b n)).
  - apply triple_foldM. intros i j.
    eapply triple_bind; [apply triple_gets | intros vec'].
    eapply (triple_bind _ _ _ (fun _ => atLeast b n)).
    { intros s [Hs _].
      destruct (index_outcome vec' j s) as [(a & -> & _) | ->]; [exact Hs | exact I]. }
    intros vj. apply triple_if; [|now apply triple_ret].
    eapply triple_bind; [apply triple_swap | intros ?; now apply triple_ret].
  - intros i. eapply triple_bind; [apply triple_swap | intros ?; now apply triple_ret].
Qed.

Lemma triple_QuickSort b n fuel :
  forall left right,
    triple (atLeast b n) (QuickSort fuel left right)
           (fun _ => atLeast b n) (atLeast b n).
Proof.
  induction fuel as [|fuel IH]; intros left right; simpl;
    destruct (left <? right); try (now apply triple_ret); [easy|].
  eapply triple_bind; [apply triple_QSPartition | intros pi].
  destruct (pi - left <? right - pi);
    (eapply triple_bind; [apply IH | intros ?; apply IH]).
Qed.

(** *** addSpins and setup *)

Lemma triple_gets_keep {A} (P : model -> Prop) (f : model -> A) E :
  triple P (gets f) (fun _ => P) E.
Proof. intros s Hs. exact Hs. Qed.

Lemma triple_addSpins b n fuel depth x0 x1 :
  triple (atLeast b n) (addSpins fuel depth x0 x1)
         (fun _ => atLeast b (n + 1)) (atLeast b n).
Proof.
  unfold addSpins.
  eapply triple_bind; [apply triple_readonly, readonly_at | intros a].
  eapply triple_bind; [apply triple_readonly, readonly_at | intros c].
  eapply triple_bind; [apply triple_gets_keep | intros dims].
  eapply (triple_bind _ _ _ (fun _ => atLeast b n)).
  { apply triple_if; [apply triple_throw | apply triple_ret]; auto. }
  intros ?.
  eapply triple_bind; [apply triple_gets_keep | intros slices].
  eapply (triple_bind _ _ _ (fun _ => atLeast b (n + 1))).
  - apply triple_permutationLoop_zeros.
    + intros v. apply triple_hypercube.
    + intros v.
      eapply triple_weaken; [apply (triple_hypercube b _ _ _ _ _ _ (n + 1)) | | |].
      * auto.
      * intros ? s. apply atLeast_le. lia.
      * intros s. apply atLeast_le. lia.
    + auto.
    + intros s. apply atLeast_le. lia.
  - intros ?.
    eapply triple_bind; [apply triple_gets_keep | intros k].
    eapply triple_weaken; [apply (triple_QuickSort b (n + 1)) | | |]; auto.
    intros s. apply atLeast_le. lia.
Qed.

Lemma atLeast_with_hausdorffScale b n v (m : model) :
  atLeast b n m -> atLeast b n (with_hausdorffScale v m).
Proof. now destruct m. Qed.

Lemma atLeast_with_latticeDimensions b n v (m : model) :
  atLeast b n m -> atLeast b n (with_latticeDimensions v m).
Proof. now destruct m. Qed.

Lemma triple_pushDimensions b n fuel i :
  triple (atLeast b n) (pushDimensions fuel i)
         (fun _ => atLeast b n) (atLeast b n).
Proof.
  intros s Hs. pose proof (pushDimensions_outcome fuel i s) as Hout.
  destruct (pushDimensions fuel i s) as [[] s' | | | |]; try contradiction; trivial.
  destruct Hout as [dims ->]. now apply atLeast_with_latticeDimensions.
Qed.

Lemma triple_setup b n fuel :
  0 <= n ->
  triple (atLeast b n) (setup fuel) (fun _ => setUpState) (atLeast b n).
Proof.
  intros Hn. unfold setup.
  eapply triple_bind; [apply triple_gets_keep | intros method].
  eapply (triple_bind _ _ _ (fun _ => atLeast b n)).
  { unfold when. apply triple_if; [|now apply triple_ret].
    eapply triple_bind; [apply triple_gets_keep | intros dim].
    eapply triple_bind; [apply triple_gets_keep | intros slices].
    apply triple_modify. intros s. apply atLeast_with_hausdorffScale. }
  intros ?.
  eapply triple_bind; [apply triple_gets_keep | intros scale].
  eapply triple_bind; [apply triple_gets_keep | intros slices].
  eapply (triple_bind _ _ _ (fun _ => atLeast b n)).
  { apply triple_if; [easy | now apply triple_ret]. }
  intros ?.
  eapply triple_bind; [apply triple_pushDimensions | intros ?].
  eapply triple_bind; [apply triple_gets_keep | intros dims].
  eapply triple_bind; [apply triple_gets_keep | intros depth].
  eapply triple_bind; [apply triple_addSpins | intros ?].
  apply triple_modify. intros s ((Hlen & Hact) & _ & Hge).
  destruct s; simpl in *. unfold setUpState. simpl.
  repeat split; trivial. lia.
Qed.

(** setup() establishes [setUpState]: when it returns, the flag is set,
    there is at least one spin, [nSpins] counts the spins and all are
    active; when an exception escapes it, the object is still well formed. *)
Lemma setup_establishes_setUpState (fuel : nat) (m : model) :
  wellFormed m ->
  match setup fuel m with
  | Returned _ m' => setUpState m'
  | Thrown _ m' => wellFormed m'
  | _ => True
  end.
Proof.
  intros (Hc & Hflag).
  assert (Hn : 0 <= nSpins m) by (destruct Hc as [-> _]; unfold len; lia).
  assert (Hpre : atLeast (hasBeenSetup m) (nSpins m) m)
    by (repeat split; try apply Hc; lia).
  pose proof (triple_setup (hasBeenSetup m) (nSpins m) fuel Hn m Hpre) as H.
  destruct (setup fuel m) as [a m' | e m' | | |]; trivial.
  destruct H as (Hc' & Hb & Hge). split; [exact Hc'|].
  intros Hset. rewrite Hset in Hb. symmetry in Hb. specialize (Hflag Hb). lia.
Qed.

End LatticeInvariant.

Section ObjectInvariant.
Context {double rng : Type} {FO : FloatOps double} {EX : Externals double}
        {RG : RandomGen double rng}.
#[local] Abbreviation model := (IsingModel double).
#[local] Abbreviation keeps c :=
  (triple (St := IsingModel double) wellFormed c (fun _ => wellFormed) wellFormed).

Lemma wellFormed_same (m m' : model) :
  spinArray m' = spinArray m -> nSpins m' = nSpins m ->
  hasBeenSetup m' = hasBeenSetup m ->
  wellFormed m -> wellFormed m'.
Proof.
  intros Hs Hn Hb ((Hlen & Hact) & Hflag).
  unfold wellFormed, spinsCounted. now rewrite Hs, Hn, Hb.
Qed.

Lemma wellFormed_unset (m m' : model) :
  spinArray m' = spinArray m -> nSpins m' = nSpins m ->
  hasBeenSetup m' = false ->
  wellFormed m -> wellFormed m'.
Proof.
  intros Hs Hn Hb ((Hlen & Hact) & Hflag).
  unfold wellFormed, spinsCounted. rewrite Hs, Hn, Hb. now repeat split.
Qed.

Lemma keeps_readonly {A} (c : M model A) : readonly c -> keeps c.
Proof. apply triple_readonly. Qed.

Lemma keeps_bind {A B} (c : M model A) (k : A -> M model B) :
  keeps c -> (forall a, keeps (k a)) -> keeps (bind c k).
Proof. intros Hc Hk. eapply triple_bind; [exact Hc | exact Hk]. Qed.

Lemma keeps_ret {A} (a : A) : keeps (ret a).
Proof. now apply triple_ret. Qed.

Lemma keeps_gets {A} (f : model -> A) : keeps (gets f).
Proof. apply triple_gets_keep. Qed.

Lemma keeps_if {A} (b : bool) (c1 c2 : M model A) :
  keeps c1 -> keeps c2 -> keeps (if b then c1 else c2).
Proof. now destruct b. Qed.

Lemma keeps_foldM {A B} (body : A -> B -> M model A) l acc :
  (forall acc x, keeps (body acc x)) -> keeps (foldM body l acc).
Proof. intros Hb. now apply triple_foldM. Qed.

Lemma keeps_modify (f : model -> model) :
  (forall m, spinArray (f m) = spinArray m) ->
  (forall m, nSpins (f m) = nSpins m) ->
  (forall m, hasBeenSetup (f m) = hasBeenSetup m) ->
  keeps (modify f).
Proof.
  intros Hs Hn Hb. apply triple_modify. intros m.
  apply wellFormed_same; auto.
Qed.

Lemma keeps_clear_flag : keeps (modify (with_hasBeenSetup (double := double) false)).
Proof.
  apply triple_modify. intros m.
  apply wellFormed_unset; now destruct m.
Qed.

Ltac keeps_field := apply keeps_modify; intros m; now destruct m.

Ltac keeps_step :=
  cbv beta;
  first [ apply keeps_bind; [|intros ?]
        | apply keeps_foldM; intros ? ?
        | apply keeps_if
        | apply keeps_ret | apply keeps_gets
        | apply keeps_clear_flag
        | keeps_field
        | apply keeps_readonly, readonly_at
        | apply keeps_readonly, readonly_set_at
        | apply keeps_readonly, readonly_getEffHamiltonian
        | match goal with
          | |- triple _ (match ?x with _ => _ end) _ _ => destruct x
          | |- triple _ ((match ?x with _ => _ end) _) _ _ => destruct x
          end ].

(** *** Settings, observables, reset *)

Lemma keeps_setters :
  (forall num, keeps (setNumThreads num)) /\
  (forall num, keeps (setNumMCSteps num)) /\
  (forall num, keeps (setLatticeDepth num)) /\
  (forall sig, keeps (setInteractionSigma sig)) /\
  (forall dim, keeps (setHausdorffDimension dim)) /\
  (forall hmtd, keeps (setHausdorffMethod hmtd)) /\
  (forall mcmd, keeps (setMCMethod mcmd)) /\
  (forall tH tJ, keeps (setCouplingConsts tH tJ)) /\
  (forall tkbT, keeps (setTemperature tkbT)).
Proof.
  repeat match goal with |- _ /\ _ => split end; intros;
    unfold setNumThreads, setNumMCSteps, setLatticeDepth, setInteractionSigma,
      setHausdorffDimension, setHausdorffMethod, setMCMethod,
      setCouplingConsts, setTemperature;
    repeat keeps_step.
Qed.

Lemma keeps_getMagnetization : keeps getMagnetization.
Proof. unfold getMagnetization. repeat keeps_step. Qed.

Lemma keeps_reset : keeps reset.
Proof.
  intros m _. unfold reset, bind, modify. destruct m; simpl.
  unfold wellFormed, spinsCounted. simpl. repeat split; try constructor.
  discriminate.
Qed.

Lemma keeps_computePartitionFunction start flips :
  keeps (computePartitionFunction start flips).
Proof.
  unfold computePartitionFunction. apply keeps_bind; [apply keeps_gets | intros n].
  generalize (Z.to_nat (n - start)) as fuel. intros fuel.
  revert start flips. induction fuel as [|fuel IH]; intros start flips; simpl.
  - repeat keeps_step. easy.
  - repeat first [apply IH | keeps_step].
Qed.

(** *** Writing a spin value *)

Lemma keeps_storeS i v : keeps (storeS i v).
Proof.
  intros m ((Hlen & Hact) & Hflag). unfold storeS, bind, gets.
  destruct (at_outcome (spinArray m) i m) as [(s & -> & Hs) | ->];
    [|now repeat split].
  unfold set_at. destruct ((i <? 0) || (len (spinArray m) <=? i));
    [now repeat split|].
  unfold ret, modify.
  assert (Hupd : Forall (fun s0 : spin double => active s0 = true)
                   (update (spinArray m) (Z.to_nat i) (with_S_val v s))).
  { apply Forall_update; [exact Hact|]. rewrite Forall_forall in Hact.
    simpl. now apply Hact. }
  destruct m; simpl in *. unfold wellFormed, spinsCounted. simpl.
  split; [split|]; trivial. unfold len in *. now rewrite length_update.
Qed.

Lemma keeps_setAllSpins direction : keeps (setAllSpins direction).
Proof. unfold setAllSpins. repeat first [apply keeps_storeS | keeps_step]. Qed.

Lemma keeps_flipSpin i : keeps (flipSpin i).
Proof. unfold flipSpin. repeat first [apply keeps_storeS | keeps_step]. Qed.

Lemma keeps_recordFlip tE : keeps (recordFlip tE).
Proof. unfold recordFlip. repeat keeps_step. Qed.

Lemma keeps_randomizeSpins : keeps randomizeSpins.
Proof.
  unfold randomizeSpins.
  repeat first [apply keeps_storeS | keeps_step].
Qed.

(** *** The Monte Carlo engine *)

Lemma keeps_metropolisStep r : keeps (metropolisStep r).
Proof.
  unfold metropolisStep, metropolisAccept, getEffHamiltonian1.
  repeat first [apply keeps_flipSpin | apply keeps_recordFlip | keeps_step].
Qed.

Lemma keeps_heatBathStep r : keeps (heatBathStep r).
Proof.
  unfold heatBathStep, heatBathAccept, getEffHamiltonian1.
  repeat first [apply keeps_flipSpin | apply keeps_recordFlip | keeps_step].
Qed.

Lemma keeps_hybridStep u spinFlips : keeps (hybridStep u spinFlips).
Proof.
  unfold hybridStep.
  repeat first [apply keeps_flipSpin | apply keeps_recordFlip | keeps_step].
Qed.

Lemma keeps_adaptGranularity g a b : keeps (adaptGranularity g a b).
Proof. unfold adaptGranularity. repeat keeps_step. Qed.

Lemma keeps_drawSpinFlips g pop size r : keeps (drawSpinFlips g pop size r).
Proof. unfold drawSpinFlips, drawIndex. repeat keeps_step. Qed.

Lemma keeps_hybridThreads fuel :
  forall g pop size r groups, keeps (hybridThreads fuel g pop size r groups).
Proof.
  induction fuel as [|fuel IH]; intros g pop size r groups; simpl.
  - apply keeps_if; [easy | apply keeps_ret].
  - apply keeps_if; [|apply keeps_ret].
    repeat first [apply IH | apply keeps_drawSpinFlips | apply keeps_hybridStep
                 | keeps_step].
Qed.

Lemma keeps_mcStep avg g r : keeps (mcStep avg g r).
Proof.
  unfold mcStep.
  repeat first [ apply keeps_metropolisStep | apply keeps_heatBathStep
               | apply keeps_hybridThreads | apply keeps_adaptGranularity
               | apply triple_throw; now auto
               | keeps_step ].
Qed.

Lemma keeps_runMonteCarlo : keeps runMonteCarlo.
Proof.
  unfold runMonteCarlo, initialGranularity.
  repeat first [ apply keeps_mcStep | keeps_step | easy ].
Qed.

(** Every reachable state is well formed, so every reachable state with the
    "set up" flag set is a [setUpState]. *)
Lemma reachable_wellFormed (m : model) :
  reachable (rng := rng) m -> wellFormed m.
Proof.
  induction 1 as [mcmd effH | A c m m' Hreach IH Hcall Hafter].
  - unfold newIsingModel, wellFormed, spinsCounted. simpl.
    repeat split; try constructor. discriminate.
  - assert (Hk : keeps c).
    { destruct Hcall; try apply keeps_setters.
      - apply keeps_getMagnetization.
      - apply keeps_readonly, readonly_getEffHamiltonian.
      - apply keeps_readonly, readonly_getEffHamiltonian.
      - apply keeps_computePartitionFunction.
      - intros s Hs. pose proof (setup_establishes_setUpState fuel s Hs) as H.
        destruct (setup fuel s); trivial.
        destruct H as (Hf & Hp & Hl & Ha). now repeat split.
      - apply keeps_runMonteCarlo.
      - apply keeps_reset.
      - apply keeps_randomizeSpins.
      - apply keeps_setAllSpins. }
    specialize (Hk m IH). destruct (c m); inversion Hafter; now subst.
Qed.

Lemma reachable_setUpState (m : model) :
  reachable (rng := rng) m -> hasBeenSetup m = true -> setUpState m.
Proof.
  intros Hr Hflag. destruct (reachable_wellFormed m Hr) as ((Hl & Ha) & Hp).
  repeat split; auto.
Qed.

End ObjectInvariant.

(* ------------------------------------------------------------------ *)
(** ** Running the model over the real numbers

    The calls are run one command at a time from the head of the
    computation; the tests on real numbers are decided by linear
    arithmetic. *)

Section Run.
Context {St : Type}.

Lemma run_start {A} (c : M St A) s : c s = bind c ret s.
Proof. unfold bind, ret. now destruct (c s). Qed.

Lemma run_assoc {A B C} (c : M St A) (k : A -> M St B) (k' : B -> M St C) s :
  bind (bind c k) k' s = bind c (fun x => bind (k x) k') s.
Proof. unfold bind. now destruct (c s). Qed.

Lemma run_gets {A B} (f : St -> A) (k : A -> M St B) s :
  bind (gets f) k s = k (f s) s.
Proof. reflexivity. Qed.

Lemma run_ret {A B} (a : A) (k : A -> M St B) s : bind (ret a) k s = k a s.
Proof. reflexivity. Qed.

Lemma run_modify {B} (f : St -> St) (k : unit -> M St B) s :
  bind (modify f) k s = k tt (f s).
Proof. reflexivity. Qed.

Lemma run_at {A B} (v : list A) i a (k : A -> M St B) s :
  (i <? 0) = false -> nth_error v (Z.to_nat i) = Some a ->
  bind (at_ v i) k s = k a s.
Proof. intros Hi Ha. unfold bind, at_. now rewrite Hi, Ha. Qed.

Lemma run_at_throw {A B} (v : list A) i (k : A -> M St B) s :
  (i <? 0) = false -> nth_error v (Z.to_nat i) = None ->
  bind (at_ v i) k s = Thrown out_of_range s.
Proof. intros Hi Ha. unfold bind, at_. now rewrite Hi, Ha. Qed.

Lemma run_set_at {A B} (v : list A) i x (k : list A -> M St B) s :
  ((i <? 0) || (len v <=? i)) = false ->
  bind (set_at v i x) k s = k (update v (Z.to_nat i) x) s.
Proof. intros Hi. unfold bind, set_at. now rewrite Hi. Qed.

Lemma run_foldM_nil {A B C} (body : A -> B -> M St A) acc (k : A -> M St C) s :
  bind (foldM body [] acc) k s = k acc s.
Proof. reflexivity. Qed.

Lemma run_foldM_cons {A B C} (body : A -> B -> M St A) x l acc (k : A -> M St C) s :
  bind (foldM body (x :: l) acc) k s
  = bind (body acc x) (fun acc' => bind (foldM body l acc') k) s.
Proof. cbn [foldM]. apply run_assoc. Qed.

Lemma run_if_true {A B} (c1 c2 : M St A) (k : A -> M St B) s :
  bind (if true then c1 else c2) k s = bind c1 k s.
Proof. reflexivity. Qed.

Lemma run_if_false {A B} (c1 c2 : M St A) (k : A -> M St B) s :
  bind (if false then c1 else c2) k s = bind c2 k s.
Proof. reflexivity. Qed.

End Run.

Lemma run_index {double} {A B} (v : list A) i a (k : A -> M (IsingModel double) B) s :
  (i <? 0) = false -> nth_error v (Z.to_nat i) = Some a ->
  bind (index_ v i) k s = k a s.
Proof. intros Hi Ha. unfold bind, index_. now rewrite Hi, Ha. Qed.

Section RunModel.
Context {double : Type} {FO : FloatOps double} {EX : Externals double}.

Lemma run_permutationLoop {B} fuel v max body (k : unit -> M (IsingModel double) B) s :
  bind (permutationLoop (S fuel) v max body) k s
  = bind (v0 <- at_ v 0 ;;
          if v0 =? -1 then ret tt
          else body v ;;; permutationLoop fuel (nextPermutation v max) max body) k s.
Proof. reflexivity. Qed.

Lemma run_permutationLoop_end {B} fuel v max body
    (k : unit -> M (IsingModel double) B) s :
  nth_error v 0 = Some (-1) ->
  bind (permutationLoop fuel v max body) k s = k tt s.
Proof.
  intros Hv.
  assert (Hat : at_ (St := IsingModel double) v 0 s = Returned (-1) s).
  { unfold at_. change (0 <? 0) with false. change (Z.to_nat 0) with O.
    now rewrite Hv. }
  destruct fuel; cbn [permutationLoop]; unfold bind at 1; unfold bind at 1;
    rewrite Hat; reflexivity.
Qed.

Lemma run_pushDimensions {B} fuel i (k : unit -> M (IsingModel double) B) s :
  bind (pushDimensions (S fuel) i) k s
  = bind (dim <- gets hausdorffDim ;;
          if (of_int i <? dceil dim)%D then
            slices <- gets hausdorffSlices ;;
            depth <- gets latticeDepth ;;
            dims <- gets latticeDimensions ;;
            modify (with_latticeDimensions
                      (dims ++ [to_int (of_int 2 * dpow slices (of_int depth))%D])) ;;;
            pushDimensions fuel (i + 1)
          else ret tt) k s.
Proof. reflexivity. Qed.

Lemma run_QuickSort {B} fuel left right (k : unit -> M (IsingModel double) B) s :
  bind (QuickSort (S fuel) left right) k s
  = bind (if left <? right then
            pi <- QSPartition left right ;;
            if pi - left <? right - pi
            then QuickSort fuel left (pi - 1) ;;; QuickSort fuel (pi + 1) right
            else QuickSort fuel (pi + 1) right ;;; QuickSort fuel left (pi - 1)
          else ret tt) k s.
Proof. reflexivity. Qed.

Lemma run_QuickSort_done {B} fuel left right (k : unit -> M (IsingModel double) B) s :
  (left <? right) = false ->
  bind (QuickSort fuel left right) k s = k tt s.
Proof. intros H. destruct fuel; simpl; unfold bind; now rewrite H. Qed.

End RunModel.

Lemma real_eqb_true x y : x = y -> real_eqb x y = true.
Proof. intros H. unfold real_eqb. now destruct (Req_dec_T x y). Qed.

Lemma real_pow_1 x : (0 < x)%R -> real_pow x 1 = x.
Proof.
  intros Hx. unfold real_pow.
  destruct (Req_dec_T 1 0); [lra|].
  destruct (Rlt_dec 0 x); [|contradiction].
  now apply Rpower_1.
Qed.

Lemma real_pow_0 x : real_pow x 0 = 1%R.
Proof. unfold real_pow. destruct (Req_dec_T 0 0); [reflexivity | contradiction]. Qed.

Lemma real_trunc_of x z : x = IZR z -> 0 <= z -> real_trunc x = z.
Proof. intros -> Hz. now apply real_trunc_IZR. Qed.

Lemma ceil_1 : (- Int_part (- (1)))%Z = 1.
Proof.
  replace (- (1))%R with (IZR (-1)) by (simpl; lra).
  now rewrite Int_part_IZR.
Qed.

Lemma scale_half : exp (- IZR (- Int_part (- (1))) * ln 2 / 1) = (1/2)%R.
Proof.
  rewrite ceil_1.
  replace (- (1) * ln 2 / 1)%R with (- ln 2)%R by lra.
  rewrite exp_Ropp, exp_ln by lra. lra.
Qed.

Lemma scale_half2 : exp (- (1) * ln 2 / 1) = (1/2)%R.
Proof.
  replace (- (1) * ln 2 / 1)%R with (- ln 2)%R by lra.
  rewrite exp_Ropp, exp_ln by lra. lra.
Qed.

Lemma Rabs_1_0 : Rabs (1 - 0) = 1%R.
Proof. replace (1 - 0)%R with 1%R by lra. apply Rabs_R1. Qed.

Ltac real_ops :=
  cbn [of_int to_int dadd dsub dmul ddiv dopp dlt dle deq dexp dlog dceil
       dfloor dabs dpow disinf RealOps xmin xmax spin_gt UnitInterval].

Ltac fields :=
  cbn [spinArray latticeDimensions latticeDepth nThreads nSpins interactionSigma
       hausdorffDim hausdorffSlices hausdorffScale hausdorffMethod mcMethod
       nMCSteps kbT Hc Jc magnetization currentEffH mcInfo hybridInfo hasBeenSetup
       with_spinArray with_latticeDimensions with_latticeDepth with_nThreads
       with_nSpins with_interactionSigma with_hausdorffDim with_hausdorffScale
       with_hausdorffMethod with_mcMethod with_nMCSteps with_kbT with_Hc with_Jc
       with_magnetization with_currentEffH with_mcInfo with_hybridInfo
       with_hasBeenSetup S_val active coords with_S_val].

(* closed integer and list computations *)
Ltac ints :=
  repeat match goal with
  | |- context [Z.ltb ?a ?b] =>
      let v := eval vm_compute in (Z.ltb a b) in
      match v with true => idtac | false => idtac end;
      change (Z.ltb a b) with v
  | |- context [Z.leb ?a ?b] =>
      let v := eval vm_compute in (Z.leb a b) in
      match v with true => idtac | false => idtac end;
      change (Z.leb a b) with v
  | |- context [Z.eqb ?a ?b] =>
      let v := eval vm_compute in (Z.eqb a b) in
      match v with true => idtac | false => idtac end;
      change (Z.eqb a b) with v
  | |- context [Z.add ?a ?b] =>
      let v := eval vm_compute in (Z.add a b) in
      match v with Z0 => idtac | Zpos _ => idtac | Zneg _ => idtac end;
      progress change (Z.add a b) with v
  | |- context [Z.sub ?a ?b] =>
      let v := eval vm_compute in (Z.sub a b) in
      match v with Z0 => idtac | Zpos _ => idtac | Zneg _ => idtac end;
      progress change (Z.sub a b) with v
  | |- context [Z.mul ?a ?b] =>
      let v := eval vm_compute in (Z.mul a b) in
      match v with Z0 => idtac | Zpos _ => idtac | Zneg _ => idtac end;
      progress change (Z.mul a b) with v
  | |- context [Z.to_nat ?a] =>
      let v := eval vm_compute in (Z.to_nat a) in
      match v with O => idtac | S _ => idtac end;
      change (Z.to_nat a) with v
  | |- context [Pos.to_nat ?a] =>
      let v := eval vm_compute in (Pos.to_nat a) in
      match v with O => idtac | S _ => idtac end;
      change (Pos.to_nat a) with v
  | |- context [nextPermutation ?a ?b] =>
      let v := eval vm_compute in (nextPermutation a b) in
      change (nextPermutation a b) with v
  | |- context [range ?a ?b] =>
      let v := eval vm_compute in (range a b) in
      change (range a b) with v
  | |- context [String.eqb ?a ?b] =>
      let v := eval vm_compute in (String.eqb a b) in
      change (String.eqb a b) with v
  end.

Ltac lists :=
  cbn [app repeat List.length len Z.to_nat Pos.to_nat Pos.iter_op Init.Nat.add
       Z.of_nat Pos.of_succ_nat Pos.succ update erase nth_error].

Ltac reals :=
  rewrite ?scale_half, ?scale_half2, ?ceil_1, ?Rabs_1_0, ?real_pow_0;
  repeat match goal with
  | |- context [real_pow ?x 1] => rewrite (real_pow_1 x) by lra
  | |- context [real_trunc ?x] =>
      first [ rewrite (real_trunc_of x 0) by (lra || lia)
            | rewrite (real_trunc_of x 1) by (lra || lia)
            | rewrite (real_trunc_of x 2) by (lra || lia)
            | rewrite (real_trunc_of x 3) by (lra || lia)
            | rewrite (real_trunc_of x 4) by (lra || lia) ]
  | |- context [real_ltb ?x ?y] =>
      first [ rewrite (real_ltb_true x y) by lra
            | rewrite (real_ltb_false x y) by lra ]
  | |- context [real_leb ?x ?y] =>
      first [ rewrite (real_leb_true x y) by lra
            | rewrite (real_leb_false x y) by lra ]
  | |- context [real_eqb ?x ?y] =>
      first [ rewrite (real_eqb_true x y) by lra
            | rewrite (real_eqb_false x y) by lra ]
  end.

Ltac unfold_head :=
  match goal with
  | |- @bind ?St ?A ?B ?c ?k ?s = ?rhs =>
      let c' := eval cbv beta delta [setup when addSpins cornerPosition addCorner
                                     QSPartition swap andM] in c in
      progress change (@bind St A B c' k s = rhs)
  end.

Ltac step :=
  first
    [ rewrite run_assoc
    | rewrite run_gets
    | rewrite run_ret
    | rewrite run_modify
    | rewrite run_foldM_nil
    | rewrite run_foldM_cons
    | erewrite run_at by reflexivity
    | rewrite run_at_throw by reflexivity
    | erewrite run_index by reflexivity
    | rewrite run_set_at by reflexivity
    | rewrite run_permutationLoop_end by reflexivity
    | rewrite run_permutationLoop
    | rewrite run_pushDimensions
    | rewrite run_QuickSort_done by reflexivity
    | rewrite run_QuickSort
    | unfold_head ];
  cbv beta iota; fields; real_ops; cbn [coords_gt negb andb orb].


(** The end-to-end scenario of the specification: on a new object (target
    dimension 1, depth 1, two slices, the SCALING method) setup() derives
    the scale 1/2 and the lattice shape (4) and leaves four active spins of
    value +1 at 0, 1/2, 1/2 and 1: the state [lattice4]. *)
Lemma setup_new_model mcmd :
  setup 2 (newIsingModel mcmd 0%R) = Returned tt (lattice4 mcmd).
Proof.
  unfold newIsingModel. real_ops. rewrite run_start.
  repeat (step; lists; ints; reals; cbv beta iota; cbn [negb andb orb]).
  unfold ret, lattice4, site.
  repeat match goal with
         | |- context [mkSpin 1 true [(?a + ?b)%R]] =>
             first [ replace (a + b)%R with 0%R by lra
                   | replace (a + b)%R with (1 / 2)%R by lra
                   | replace (a + b)%R with 1%R by lra ]
         end.
  reflexivity.
Qed.

Lemma lattice4_reachable {rng} {RG : RandomGen R rng} mcmd :
  reachable (rng := rng) (lattice4 mcmd).
Proof.
  apply (reachable_call unit (setup 2) (newIsingModel mcmd 0%R)).
  - apply reachable_new.
  - apply call_setup.
  - now rewrite setup_new_model.
Qed.

(** The failing input of C5: a new object, setLatticeDepth(0), setup().
    The scale is 1/2 and the lattice shape (2); then std::out_of_range
    escapes, with no spin made and the flag not set. *)
Lemma setup_new_model_depth_zero mcmd :
  setLatticeDepth 0 (newIsingModel mcmd 0%R)
    = Returned tt (with_latticeDepth 0 (newIsingModel mcmd 0%R)) /\
  setup 2 (with_latticeDepth 0 (newIsingModel mcmd 0%R))
    = Thrown out_of_range
        (with_latticeDimensions [2]
           (with_hausdorffScale (1 / 2)%R
              (with_latticeDepth 0 (newIsingModel mcmd 0%R)))).
Proof.
  split; [reflexivity|].
  unfold newIsingModel. real_ops. fields. rewrite run_start.
  repeat (step; lists; ints; reals; cbv beta iota; cbn [negb andb orb]).
  reflexivity.
Qed.

(* ------------------------------------------------------------------ *)
(** ** A Hybrid step on the set-up lattice *)

Section Total.
Context {St : Type}.

Lemma total_ret {A} (P : St -> Prop) (a : A) (Q : A -> St -> Prop) :
  (forall s, P s -> Q a s) -> total P (ret a) Q.
Proof. intros H s Hs. exists a, s. split; [reflexivity | now apply H]. Qed.

Lemma total_bind {A B} (P : St -> Prop) (c : M St A) (k : A -> M St B) Q R :
  total P c Q -> (forall a, total (Q a) (k a) R) -> total P (bind c k) R.
Proof.
  intros Hc Hk s Hs. destruct (Hc s Hs) as (a & s1 & Ha & Hq).
  destruct (Hk a s1 Hq) as (b & s2 & Hb & Hr).
  exists b, s2. unfold bind. rewrite Ha. now split.
Qed.

Lemma total_gets {A} (P : St -> Prop) (f : St -> A) :
  total P (gets f) (fun a s => P s /\ a = f s).
Proof. intros s Hs. exists (f s), s. now repeat split. Qed.

Lemma total_gets_keep {A} (P : St -> Prop) (f : St -> A) :
  total P (gets f) (fun _ => P).
Proof. intros s Hs. now exists (f s), s. Qed.

Lemma total_modify (P : St -> Prop) (f : St -> St) (Q : unit -> St -> Prop) :
  (forall s, P s -> Q tt (f s)) -> total P (modify f) Q.
Proof. intros H s Hs. exists tt, (f s). split; [reflexivity | now apply H]. Qed.

Lemma total_if {A} (P : St -> Prop) (b : bool) (c1 c2 : M St A) Q :
  total P c1 Q -> total P c2 Q -> total P (if b then c1 else c2) Q.
Proof. now destruct b. Qed.

Lemma total_foldM {A B} (J : St -> Prop) (body : A -> B -> M St A) l :
  (forall acc x, In x l -> total J (body acc x) (fun _ => J)) ->
  forall acc, total J (foldM body l acc) (fun _ => J).
Proof.
  induction l as [|x l IH]; intros Hb acc; simpl.
  - now apply total_ret.
  - eapply total_bind; [apply Hb; now left|].
    intros acc'. apply IH. intros acc'' y Hy. apply Hb. now right.
Qed.

Lemma total_returnsAt {A} (P : St -> Prop) (c : M St A) :
  (forall s, P s -> returnsAt s c) -> total P c (fun _ => P).
Proof. intros H s Hs. destruct (H s Hs) as [a Ha]. now exists a, s. Qed.

Lemma total_weaken {A} (P P' : St -> Prop) (c : M St A) (Q Q' : A -> St -> Prop) :
  total P c Q -> (forall s, P' s -> P s) -> (forall a s, Q a s -> Q' a s) ->
  total P' c Q'.
Proof.
  intros Hc HP HQ s Hs. destruct (Hc s (HP s Hs)) as (a & s' & Ha & Hq).
  exists a, s'. split; [exact Ha | now apply HQ].
Qed.

End Total.

Section HybridOnReals.
#[local] Existing Instance RealOps.
Context {EX : Externals R}.

Lemma total_storeS n i v :
  0 <= i < n ->
  total (shape (double := R) n) (storeS i v) (fun _ => shape n).
Proof.
  intros Hi m ((Hlen & Hdims & Hcoords) & Hn). unfold storeS, bind, gets.
  destruct (at_value m (spinArray m) i) as (s & -> & Hs); [lia|].
  unfold set_at.
  replace ((i <? 0) || (len (spinArray m) <=? i)) with false
    by (symmetry; apply orb_false_iff; split;
        [apply Z.ltb_ge | apply Z.leb_gt]; lia).
  exists tt. eexists. split; [reflexivity|].
  assert (Hupd : Forall (fun s0 : spin R => len (coords s0) = len (latticeDimensions m))
                   (update (spinArray m) (Z.to_nat i) (with_S_val v s))).
  { apply Forall_update; [exact Hcoords|]. rewrite Forall_forall in Hcoords.
    simpl. now apply Hcoords. }
  destruct m; simpl in *. unfold shape, consistent. simpl.
  repeat split; trivial. unfold len in *. now rewrite length_update.
Qed.

Lemma total_flipSpin n i :
  0 <= i < n ->
  total (shape (double := R) n) (flipSpin i) (fun _ => shape n).
Proof.
  intros Hi. unfold flipSpin.
  eapply total_bind; [apply total_gets | intros arr].
  eapply (total_bind _ _ _ (fun _ => shape n)).
  - intros m ((Hs & Hn) & ->).
    destruct (at_value m (spinArray m) i) as (s & Hat & _).
    { destruct Hs as (<- & _). lia. }
    exists s, m. now split.
  - intros s. now apply total_storeS.
Qed.

Lemma total_recordFlip n tE : total (shape n) (recordFlip tE) (fun _ => shape n).
Proof.
  unfold recordFlip.
  eapply total_bind; [apply total_gets_keep | intros cur].
  eapply total_bind; [apply total_gets_keep | intros info].
  eapply (total_bind _ _ _ (fun _ => shape n)).
  - apply total_modify. intros m Hm. now destruct m.
  - intros ?. apply total_modify. intros m Hm. now destruct m.
Qed.

(** On a consistent model of [n] spins hybridStep returns, for every group
    of indices below [n], and leaves a consistent model of [n] spins. *)
Lemma total_hybridStep n u spinFlips :
  Forall (fun i => 0 <= i < n) spinFlips ->
  total (shape n) (hybridStep u spinFlips) (fun _ => shape n).
Proof.
  intros Hflips. unfold hybridStep.
  eapply (total_bind _ _ _ (fun _ => shape n)).
  { apply total_returnsAt. intros m [Hm _]. now apply getEffHamiltonian_returns. }
  intros tE.
  eapply total_bind; [apply total_gets_keep | intros cur].
  apply total_if; [|now apply total_ret].
  eapply (total_bind _ _ _ (fun _ => shape n)); [|intros ?; apply total_recordFlip].
  apply total_foldM. intros acc i Hi. apply In_range in Hi.
  intros m Hm.
  destruct (at_value m spinFlips i) as (k & Hk & Hin); [lia|].
  rewrite Forall_forall in Hflips.
  destruct (total_flipSpin n k (Hflips k Hin) m Hm) as (a & m' & Ha & Hm').
  exists a, m'. unfold bind. rewrite Hk. now split.
Qed.

End HybridOnReals.

Lemma shape_lattice4 mcmd : shape 4 (lattice4 mcmd).
Proof. split; [apply consistent_lattice4 | reflexivity]. Qed.

(** The witness of C3: the set-up four-spin lattice, two spins per thread
    (the size of the first step with one thread) and a generator that draws
    the second index of the pool, then the first, and then twice the first
    of what is left.  hybridStep is called with the groups (0, 0, 1, 0) and
    (0, 0, 2, 3). *)
Lemma hybridThreads_pads_groups_with_index_zero_witness :
  exists m' r',
    hybridThreads
      (RG := Scripted [(1, 4); (1, 4); (1, 2); (0, 1); (0, 1); (1, 2)])
      (Z.to_nat 4) 2 (range 0 4) 4
      [(1, 4); (1, 4); (1, 2); (0, 1); (0, 1); (1, 2)] []
      (lattice4 "HYBRID")
    = Returned ([[0; 0; 1; 0]; [0; 0; 2; 3]], r') m' /\
    Forall (padded 2) (removelast [[0; 0; 1; 0]; [0; 0; 2; 3]]).
Proof.
  pose proof (hybridThreads_pads_groups_with_index_zero
                (FO := RealOps) (EX := UnitInterval)
                (RG := Scripted [(1, 4); (1, 4); (1, 2); (0, 1); (0, 1); (1, 2)])
                (Z.to_nat 4) 2 (range 0 4) 4
                [(1, 4); (1, 4); (1, 2); (0, 1); (0, 1); (1, 2)] []
                (lattice4 "HYBRID")) as Hthm.
  assert (H12 : 1 <= 2) by lia. specialize (Hthm H12).
  change (Z.to_nat 4) with 4%nat in *.
  change (range 0 4) with [0; 1; 2; 3] in *.
  assert (Hrun : exists m' r',
    hybridThreads
      (RG := Scripted [(1, 4); (1, 4); (1, 2); (0, 1); (0, 1); (1, 2)])
      4 2 [0; 1; 2; 3] 4
      [(1, 4); (1, 4); (1, 2); (0, 1); (0, 1); (1, 2)] []
      (lattice4 "HYBRID")
    = Returned ([[0; 0; 1; 0]; [0; 0; 2; 3]], r') m').
  { destruct (total_hybridStep (EX := UnitInterval) 4 (1 / 2)%R [0; 0; 1; 0])
      with (s := lattice4 "HYBRID") as ([] & m1 & H1 & Hm1).
    { repeat constructor; lia. }
    { apply shape_lattice4. }
    destruct (total_hybridStep (EX := UnitInterval) 4 (1 / 2)%R [0; 0; 2; 3])
      with (s := m1) as ([] & m2 & H2 & Hm2).
    { repeat constructor; lia. }
    { exact Hm1. }
    exists m2, []. cbn [hybridThreads].
    change (0 <? 4) with true. cbv iota. unfold bind at 1.
    change (drawSpinFlips
              (RG := Scripted [(1, 4); (1, 4); (1, 2); (0, 1); (0, 1); (1, 2)])
              2 [0; 1; 2; 3] 4
              [(1, 4); (1, 4); (1, 2); (0, 1); (0, 1); (1, 2)]
              (lattice4 "HYBRID"))
      with (Returned (St := IsingModel R)
              ([0; 0; 1; 0], [2; 3], 2, [(1, 2); (0, 1); (0, 1); (1, 2)])
              (lattice4 "HYBRID")).
    cbv beta iota.
    change (Uniform (RandomGen := Scripted [(1, 4); (1, 4); (1, 2); (0, 1); (0, 1); (1, 2)])
              [(1, 2); (0, 1); (0, 1); (1, 2)])
      with ((1 / 2)%R, [(0, 1); (0, 1); (1, 2)]).
    cbv beta iota. unfold bind at 1. rewrite H1.
    change (0 <? 2) with true. cbv iota. unfold bind at 1.
    change (drawSpinFlips
              (RG := Scripted [(1, 4); (1, 4); (1, 2); (0, 1); (0, 1); (1, 2)])
              2 [2; 3] 2 [(0, 1); (0, 1); (1, 2)] m1)
      with (Returned (St := IsingModel R)
              ([0; 0; 2; 3], @nil Z, 0, [(1, 2)]) m1).
    cbv beta iota.
    change (Uniform (RandomGen := Scripted [(1, 4); (1, 4); (1, 2); (0, 1); (0, 1); (1, 2)])
              [(1, 2)])
      with ((1 / 2)%R, @nil (Z * Z)).
    cbv beta iota. unfold bind at 1. rewrite H2.
    reflexivity. }
  destruct Hrun as (m' & r' & Hrun). exists m', r'.
  split; [exact Hrun|].
  rewrite Hrun in Hthm. destruct Hthm as (new & Hnew & Hpad & _).
  simpl in Hnew. subst new. exact Hpad.
Defined.

(** The witness of C5: a new object over the real numbers, setLatticeDepth(0)
    and then setup(): std::out_of_range escapes and the object has no spin. *)
Lemma setup_at_depth_zero_throws_witness :
  setLatticeDepth 0 (newIsingModel "HYBRID" 0%R)
    = Returned tt (with_latticeDepth 0 (newIsingModel "HYBRID" 0%R)) /\
  exists m',
    setup 2 (with_latticeDepth 0 (newIsingModel "HYBRID" 0%R))
      = Thrown out_of_range m' /\
    spinArray m' = [] /\ nSpins m' = 0 /\ hasBeenSetup m' = false.
Proof.
  destruct (setup_new_model_depth_zero "HYBRID") as [Hset Hrun].
  split; [exact Hset|].
  pose proof (setup_at_depth_zero_throws (FO := RealOps) (EX := UnitInterval) 2
                (with_latticeDepth 0 (newIsingModel "HYBRID" 0%R)) eq_refl)
    as Hthm.
  rewrite Hrun in Hthm. destruct Hthm as (_ & Hs & Hn & Hf).
  eexists. split; [exact Hrun|]. now repeat split.
Defined.

(** The witness of C10: with the stored count 1, setNumThreads(0) stores 0;
    from then on setNumThreads(5) changes nothing. *)
Lemma setNumThreads_tests_the_stored_count_witness :
  setNumThreads 0 (lattice4 "HYBRID")
    = Returned tt (with_hasBeenSetup false (with_nThreads 0 (lattice4 "HYBRID"))) /\
  setNumThreads 5 (with_hasBeenSetup false (with_nThreads 0 (lattice4 "HYBRID")))
    = Returned tt (with_hasBeenSetup false (with_nThreads 0 (lattice4 "HYBRID"))).
Proof.
  split.
  - destruct (setNumThreads_tests_the_stored_count
                (lattice4 "HYBRID") 0) as [Hstore _].
    destruct Hstore as (m' & Hcall & -> & _); [simpl; lia | exact Hcall].
  - destruct (setNumThreads_tests_the_stored_count
                (with_hasBeenSetup false (with_nThreads 0 (lattice4 "HYBRID"))) 5)
      as [_ Hnoop].
    apply Hnoop. simpl. lia.
Defined.

(** C9 as stated fails: on the model that setup() leaves from a new
    object, a rejected call, here setTemperature(-1), setHausdorffDimension(0)
    or setNumMCSteps(0), returns with the flag still set. *)
Lemma rejected_setter_keeps_setup_flag :
  setup 2 (newIsingModel "HYBRID" 0%R) = Returned tt (lattice4 "HYBRID") /\
  hasBeenSetup (lattice4 "HYBRID") = true /\
  flag_after (setTemperature (-1)%R (lattice4 "HYBRID")) = Some true /\
  flag_after (setHausdorffDimension 0%R (lattice4 "HYBRID")) = Some true /\
  flag_after (setNumMCSteps 0 (lattice4 "HYBRID")) = Some true.
Proof.
  split; [apply setup_new_model|].
  repeat split.
  - unfold setTemperature. simpl. unfold real_ltb.
    destruct (Rlt_dec (-1) 0); [reflexivity | lra].
  - unfold setHausdorffDimension. simpl. unfold real_leb.
    destruct (Rle_dec 0 0); [reflexivity | lra].
Qed.

(** The witness of C9, amended: on the same model setTemperature(2),
    setNumThreads(3) and setLatticeDepth(2) are accepted and clear the
    flag, and setNumMCSteps(0) is rejected and leaves it set. *)
Lemma accepted_setter_clears_setup_flag_witness :
  hasBeenSetup (lattice4 "HYBRID") = true /\
  flag_after (setTemperature 2%R (lattice4 "HYBRID")) = Some false /\
  flag_after (setNumThreads 3 (lattice4 "HYBRID")) = Some false /\
  flag_after (setLatticeDepth 2 (lattice4 "HYBRID")) = Some false /\
  flag_after (setNumMCSteps 0 (lattice4 "HYBRID")) = Some true.
Proof.
  destruct (accepted_setter_clears_setup_flag (FO := RealOps)
              (lattice4 "HYBRID"))
    as (Hthreads & _ & Hdepth & _ & _ & _ & _ & _ & Htemp & Hsteps & _).
  split; [reflexivity|]. split; [|split; [|split]].
  - apply Htemp. simpl. apply real_ltb_false. lra.
  - apply Hthreads; simpl; lia.
  - apply Hdepth.
  - apply (Hsteps 0). lia.
Defined.

(* ------------------------------------------------------------------ *)
(** * Further properties of the member functions *)

(** ** Lists as vectors *)

Lemma nth_error_middle {A} (l1 l2 : list A) x :
  nth_error (l1 ++ x :: l2) (List.length l1) = Some x.
Proof. induction l1 as [|y l1 IH]; simpl; [reflexivity | exact IH]. Qed.

Lemma update_middle {A} (l1 l2 : list A) x y :
  update (l1 ++ x :: l2) (List.length l1) y = l1 ++ y :: l2.
Proof. induction l1 as [|z l1 IH]; simpl; [reflexivity | now rewrite IH]. Qed.

Lemma at_middle {St A} (l1 l2 : list A) x (s : St) :
  at_ (l1 ++ x :: l2) (len l1) s = Returned x s.
Proof.
  unfold at_, len. destruct (Z.ltb_spec (Z.of_nat (List.length l1)) 0); [lia|].
  now rewrite Nat2Z.id, nth_error_middle.
Qed.

Lemma set_at_middle {St A} (l1 l2 : list A) x y (s : St) :
  set_at (l1 ++ x :: l2) (len l1) y s = Returned (l1 ++ y :: l2) s.
Proof.
  unfold set_at, len. rewrite length_app. simpl.
  destruct (Z.ltb_spec (Z.of_nat (List.length l1)) 0); [lia|].
  destruct (Z.leb_spec (Z.of_nat (List.length l1 + S (List.length l2)))
                       (Z.of_nat (List.length l1))); [lia|].
  simpl. unfold ret. now rewrite Nat2Z.id, update_middle.
Qed.

Lemma len_app {A} (l1 l2 : list A) : len (l1 ++ l2) = len l1 + len l2.
Proof. unfold len. rewrite length_app. lia. Qed.

Lemma len_cons {A} (x : A) (l : list A) : len (x :: l) = 1 + len l.
Proof. unfold len. simpl List.length. lia. Qed.

Lemma len_nil {A} : len (@nil A) = 0.
Proof. reflexivity. Qed.

Lemma len_nonneg {A} (l : list A) : 0 <= len l.
Proof. unfold len. lia. Qed.

Lemma with_spinArray_twice {double} a b (m : IsingModel double) :
  with_spinArray a (with_spinArray b m) = with_spinArray a m.
Proof. now destruct m. Qed.

Lemma with_spinArray_same {double} (m : IsingModel double) :
  with_spinArray (spinArray m) m = m.
Proof. now destruct m. Qed.

Lemma spinArray_with_spinArray {double} a (m : IsingModel double) :
  spinArray (with_spinArray a m) = a.
Proof. now destruct m. Qed.

(* ------------------------------------------------------------------ *)
(** ** The magnetization and the spin values *)

Section Observables.
Context {double : Type} {FO : FloatOps double} {EX : Externals double}.
#[local] Abbreviation model := (IsingModel double).

Lemma getSpinArray_fold (arr : list (spin double)) acc :
  fold_left (fun spins it => spins ++ [if active it then S_val it else 0]) arr acc
  = acc ++ map (fun it => if active it then S_val it else 0) arr.
Proof.
  revert acc. induction arr as [|it arr IH]; intros acc; simpl.
  - now rewrite app_nil_r.
  - rewrite IH, <- app_assoc. reflexivity.
Qed.

Lemma getMagnetization_fold (arr : list (spin double)) acc :
  fold_left (fun mag it => mag + S_val it * (if active it then 1 else 0)) arr acc
  = acc + fold_right Z.add 0
            (map (fun it => if active it then S_val it else 0) arr).
Proof.
  revert acc. induction arr as [|it arr IH]; intros acc; simpl; [lia|].
  rewrite IH. destruct (active it); lia.
Qed.

(** X1: getSpinArray() returns, for each spin in the order of [spinArray], its
    value, or 0 when the spin is inactive, and leaves the object alone;
    getMagnetization() returns the sum of these entries and stores it in
    [magnetization], changing nothing else. *)
Theorem getMagnetization_sums_getSpinArray :
  forall m : model,
    let spins := map (fun it => if active it then S_val it else 0) (spinArray m) in
    getSpinArray m = Returned spins m /\
    getMagnetization m
    = Returned (fold_right Z.add 0 spins)
               (with_magnetization (fold_right Z.add 0 spins) m).
Proof.
  intros m spins. split.
  - unfold getSpinArray, bind, gets, ret. now rewrite getSpinArray_fold.
  - unfold getMagnetization, bind, gets, modify, ret.
    now rewrite getMagnetization_fold.
Qed.

Lemma storeS_middle (done todo : list (spin double)) s v (m : model) :
  spinArray m = done ++ s :: todo ->
  storeS (len done) v m
  = Returned tt (with_spinArray (done ++ with_S_val v s :: todo) m).
Proof.
  intros Harr. unfold storeS, bind, gets. rewrite Harr.
  rewrite at_middle, set_at_middle. reflexivity.
Qed.

Lemma setAllSpins_loop v (todo : list (spin double)) :
  forall done (m : model),
    spinArray m = done ++ todo ->
    foldM (fun _ i => storeS i v) (range (len done) (len done + len todo)) tt m
    = Returned tt (with_spinArray (done ++ map (with_S_val v) todo) m).
Proof.
  induction todo as [|s todo IH]; intros done m Harr.
  - rewrite range_nil by (unfold len; simpl; lia). simpl.
    rewrite app_nil_r in *. unfold ret. now rewrite <- Harr, with_spinArray_same.
  - rewrite range_cons by (unfold len; simpl; lia). simpl.
    unfold bind. rewrite (storeS_middle done todo s v m Harr).
    specialize (IH (done ++ [with_S_val v s])
                   (with_spinArray (done ++ with_S_val v s :: todo) m)).
    rewrite len_app in IH. change (len [with_S_val v s]) with 1 in IH.
    replace (len done + len (s :: todo)) with (len done + 1 + len todo)
      by (unfold len; simpl; lia).
    rewrite IH.
    + rewrite with_spinArray_twice, <- app_assoc. reflexivity.
    + rewrite spinArray_with_spinArray, <- app_assoc. reflexivity.
Qed.

(** X2: setAllSpins(direction) always returns: every spin gets the value +1
    when [direction > 0] and -1 otherwise (0 included), the [active] flags,
    the coordinates and every other member stay as they are, and a
    following getMagnetization() returns plus or minus the number of active
    spins. *)
Theorem setAllSpins_sets_every_spin :
  forall (direction : Z) (m : model),
    let allSpin := if 0 <? direction then 1 else -1 in
    let m' := with_spinArray (map (with_S_val allSpin) (spinArray m)) m in
    setAllSpins direction m = Returned tt m' /\
    getMagnetization m'
    = Returned (allSpin * Z.of_nat (activeCount m))
               (with_magnetization (allSpin * Z.of_nat (activeCount m)) m').
Proof.
  intros direction m allSpin m'. split.
  - unfold setAllSpins, bind, gets.
    apply (setAllSpins_loop allSpin (spinArray m) [] m). reflexivity.
  - unfold getMagnetization, bind, gets, modify, ret.
    rewrite getMagnetization_fold. unfold m'.
    rewrite spinArray_with_spinArray, map_map. simpl.
    replace (fold_right Z.add 0
               (map (fun x => if active x then allSpin else 0) (spinArray m)))
      with (allSpin * Z.of_nat (activeCount m)); [reflexivity|].
    unfold activeCount. induction (spinArray m) as [|s arr IH]; simpl; [lia|].
    destruct (active s); rewrite <- IH; [|reflexivity].
    change (List.length (s :: filter (fun s0 => active s0) arr))
      with (S (List.length (filter (fun s0 => active s0) arr))).
    rewrite Nat2Z.inj_succ. ring.
Qed.

End Observables.

Section Randomize.
Context {double rng : Type} {FO : FloatOps double} {EX : Externals double}
        {RG : RandomGen double rng}.
#[local] Abbreviation model := (IsingModel double).

Lemma signFlipped_refl (s : spin double) : signFlipped s s.
Proof. unfold signFlipped. auto. Qed.

Lemma Forall2_signFlipped_refl (l : list (spin double)) :
  Forall2 signFlipped l l.
Proof. induction l; constructor; auto using signFlipped_refl. Qed.

(** X3: randomizeSpins() always returns; it changes nothing but the values of
    the spins, and each value is kept or negated: the [active] flags, the
    coordinates, the number of spins and the [magnetization] member are as
    before. *)
Theorem randomizeSpins_negates_some_values :
  forall m : model,
    exists arr',
      randomizeSpins (RG := RG) m = Returned tt (with_spinArray arr' m) /\
      Forall2 signFlipped (spinArray m) arr'.
Proof.
  intros m. unfold randomizeSpins. unfold bind at 1. unfold gets at 1.
  match goal with |- context [foldM ?b _ _] => set (body := b) end.
  assert (Hloop : forall todo done acc (m0 : model),
             spinArray m0 = done ++ todo ->
             exists acc' todo',
               foldM body (range (len done) (len done + len todo)) acc m0
               = Returned acc' (with_spinArray (done ++ todo') m0) /\
               Forall2 signFlipped todo todo').
  { induction todo as [|s todo IH]; intros done acc m0 Harr.
    - rewrite range_nil by (unfold len; simpl; lia). simpl.
      exists acc, []. split; [|constructor].
      rewrite app_nil_r in *. unfold ret.
      now rewrite <- Harr, with_spinArray_same.
    - rewrite range_cons by (unfold len; simpl; lia). simpl.
      replace (len done + len (s :: todo)) with (len done + 1 + len todo)
        by (unfold len; simpl; lia).
      unfold bind at 1. unfold body at 1. destruct acc as [r nFlips].
      destruct (Uniform r) as [u r1].
      destruct (u <? of_int 1 / of_int 2)%D.
      + unfold bind at 1. unfold gets at 1. rewrite Harr.
        unfold bind at 1. rewrite at_middle.
        unfold bind at 1. rewrite (storeS_middle done todo s _ m0 Harr).
        unfold ret at 1.
        destruct (IH (done ++ [with_S_val (S_val s * -1) s]) (r1, nFlips + 1)
                     (with_spinArray
                        (done ++ with_S_val (S_val s * -1) s :: todo) m0))
          as (acc' & todo' & Hrun & Hrel).
        { rewrite spinArray_with_spinArray, <- app_assoc. reflexivity. }
        rewrite len_app in Hrun. change (len [_]) with 1 in Hrun.
        exists acc', (with_S_val (S_val s * -1) s :: todo').
        rewrite Hrun, with_spinArray_twice, <- app_assoc. split; [reflexivity|].
        constructor; [|exact Hrel].
        unfold signFlipped. simpl. repeat split. right. lia.
      + unfold ret at 1.
        destruct (IH (done ++ [s]) (r1, nFlips) m0) as (acc' & todo' & Hrun & Hrel).
        { rewrite Harr, <- app_assoc. reflexivity. }
        rewrite len_app in Hrun. change (len [s]) with 1 in Hrun.
        exists acc', (s :: todo').
        rewrite Hrun, <- app_assoc. split; [reflexivity|].
        constructor; [apply signFlipped_refl | exact Hrel]. }
  destruct (Hloop (spinArray m) [] (TRandom3_seeded 0, 0) m eq_refl)
    as (acc' & arr' & Hrun & Hrel).
  change (len []) with 0 in Hrun. simpl in Hrun.
  exists arr'. unfold bind. rewrite Hrun. split; [reflexivity | exact Hrel].
Qed.

End Randomize.

(* ------------------------------------------------------------------ *)
(** ** The partition function from any start *)

Section Trace.
Context {double : Type} {FO : FloatOps double} {EX : Externals double}.
#[local] Abbreviation model := (IsingModel double).

Lemma readonly_computePartitionFunction_rec (m : model) :
  forall fuel start flips,
    (Z.to_nat (nSpins m - start) <= fuel)%nat ->
    state_after (computePartitionFunction_rec fuel start flips m) = Some m.
Proof.
  induction fuel as [|fuel IH]; intros start flips Hfuel.
  - simpl. unfold bind, gets.
    destruct (Z.leb_spec (nSpins m) start); [reflexivity | lia].
  - simpl. unfold bind at 1. unfold gets at 1.
    destruct (Z.leb_spec (nSpins m) start) as [Hge | Hlt]; [reflexivity|].
    unfold bind at 1.
    destruct (readonly_getEffHamiltonian (flips ++ [start]) m) as [[e He] | Ht];
      rewrite ?He, ?Ht; [|reflexivity].
    unfold bind at 1.
    pose proof (IH (start + 1) (flips ++ [start]) ltac:(lia)) as H1.
    destruct (computePartitionFunction_rec fuel (start + 1) (flips ++ [start]) m)
      as [z s1 | ex s1 | | |]; try discriminate H1;
      injection H1 as ->; [|reflexivity].
    unfold bind at 1.
    pose proof (IH (start + 1) flips ltac:(lia)) as H2.
    destruct (computePartitionFunction_rec fuel (start + 1) flips m)
      as [z' s2 | ex s2 | | |]; try discriminate H2;
      injection H2 as ->; [|reflexivity].
    destruct (start =? 0); [|reflexivity].
    unfold bind.
    destruct (readonly_getEffHamiltonian [] m) as [[e0 He0] | Ht];
      rewrite ?He0, ?Ht; reflexivity.
Qed.

(** X4: computePartitionFunction(start, flips) only reads the object, for
    every [start], negative ones too, and every [flips]: it returns a
    value or an exception escapes, and in both cases the object is as
    before the call.  It never ends the process and its recursion always
    ends. *)
Theorem computePartitionFunction_only_reads :
  forall (start : Z) (flips : list Z) (m : model),
    state_after (computePartitionFunction start flips m) = Some m.
Proof.
  intros start flips m. unfold computePartitionFunction, bind, gets.
  apply readonly_computePartitionFunction_rec. lia.
Qed.

Lemma length_nonemptySubsets l :
  S (List.length (nonemptySubsets l)) = (2 ^ List.length l)%nat.
Proof.
  rewrite <- length_subsets, subsets_nonempty. reflexivity.
Qed.

(** X5: Called with a start index [start > 0], computePartitionFunction does
    not count the configuration [flips] itself: it returns the sum of
    exp(getEffHamiltonian(flips followed by F)) over the non-empty sets F
    of indices from [start] to [nSpins - 1], which are
    2^(nSpins - start) - 1 sets.  Only the call with [start = 0] adds the
    term of the empty set.  The sum is exact for an addition that is
    associative and commutative with 0 neutral. *)
Theorem computePartitionFunction_from_a_later_start :
  forall (add_comm : forall x y : double, (x + y = y + x)%D)
         (add_assoc : forall x y z : double, (x + (y + z) = (x + y) + z)%D)
         (add_0_l : forall x : double, (of_int 0 + x = x)%D)
         (m : model) (start : Z) (flips : list Z),
    0 < start ->
    computePartitionFunction start flips m
    = boltzmannSum (map (app flips)
                        (nonemptySubsets (range start (nSpins m)))) m /\
    S (List.length (nonemptySubsets (range start (nSpins m))))
    = (2 ^ Z.to_nat (nSpins m - start))%nat.
Proof.
  intros add_comm add_assoc add_0_l m start flips Hstart. split.
  - unfold computePartitionFunction, bind, gets.
    rewrite (computePartitionFunction_rec_lift add_comm add_assoc add_0_l)
      by lia.
    unfold boltzmannSum. rewrite boltzmannSum_lift.
    rewrite (fold_left_msum _ oadd (Some (of_int 0)) (oadd_comm add_comm)
               (oadd_assoc add_assoc) (oadd_0_l add_0_l)).
    rewrite (oadd_0_l add_0_l), map_map. reflexivity.
  - rewrite length_nonemptySubsets, length_range. reflexivity.
Qed.

End Trace.

(** On the four-spin lattice over the real numbers, from start 2 with
    spin 0 flipped: the three sets {2}, {3} and {2,3} are summed, and a
    value is returned. *)
Lemma computePartitionFunction_from_a_later_start_witness :
  exists z,
    computePartitionFunction 2 [0] (lattice4 "HYBRID")
    = Returned z (lattice4 "HYBRID") /\
    boltzmannSum [[0; 3]; [0; 2]; [0; 2; 3]] (lattice4 "HYBRID")
    = Returned z (lattice4 "HYBRID").
Proof.
  destruct (computePartitionFunction_from_a_later_start
              (FO := RealOps) (EX := UnitInterval)
              Rplus_comm (fun x y z => eq_sym (Rplus_assoc x y z)) Rplus_0_l
              (lattice4 "HYBRID") 2 [0]) as [Hsum _]; [lia|].
  destruct (boltzmannSum_returns (lattice4 "HYBRID")
              [[0; 3]; [0; 2]; [0; 2; 3]] (consistent_lattice4 "HYBRID"))
    as [z Hz].
  exists z. split; [|exact Hz].
  rewrite Hsum. exact Hz.
Defined.

(* ------------------------------------------------------------------ *)
(** ** The flip set of the effective Hamiltonian *)

Section FlipSets.
Context {double : Type} {FO : FloatOps double} {EX : Externals double}.
#[local] Abbreviation model := (IsingModel double).

Lemma bind_ext_readonly {A B} (c : M model A) (k k' : A -> M model B) m :
  readonly c ->
  (forall a, c m = Returned a m -> k a m = k' a m) ->
  bind c k m = bind c k' m.
Proof.
  intros Hc Hk. unfold bind.
  destruct (Hc m) as [[a Ha] | Ht]; rewrite ?Ha, ?Ht;
    [now apply Hk | reflexivity].
Qed.

Lemma bind_ext2 {A B} (c c' : M model A) (k k' : A -> M model B) m :
  c m = c' m ->
  readonly c ->
  (forall a, c m = Returned a m -> k a m = k' a m) ->
  bind c k m = bind c' k' m.
Proof.
  intros Hcc Hc Hk. unfold bind. rewrite <- Hcc.
  destruct (Hc m) as [[a Ha] | Ht]; rewrite ?Ha, ?Ht;
    [now apply Hk | reflexivity].
Qed.

Lemma foldM_ext_readonly {A B} (b1 b2 : A -> B -> M model A) m l :
  (forall acc x, readonly (b1 acc x)) ->
  (forall acc x, In x l -> b1 acc x m = b2 acc x m) ->
  forall acc, foldM b1 l acc m = foldM b2 l acc m.
Proof.
  intros Hro Hext. induction l as [|x l IH]; intros acc; simpl; [reflexivity|].
  unfold bind. rewrite <- (Hext acc x) by now left.
  destruct (Hro acc x m) as [[a Ha] | Ht]; rewrite ?Ha, ?Ht; [|reflexivity].
  apply IH. intros acc' y Hy. apply Hext. now right.
Qed.

Lemma at_in_range {A} (v : list A) i (m : model) a :
  at_ v i m = Returned a m -> 0 <= i < len v.
Proof.
  unfold at_, len. destruct (Z.ltb_spec i 0); [discriminate|].
  destruct (nth_error v (Z.to_nat i)) eqn:Hnth; [|discriminate].
  intros _. assert (Z.to_nat i < List.length v)%nat
    by (apply nth_error_Some; congruence). lia.
Qed.

Lemma neighbourTerm_ext flips flips' (s : spin double) spinFlip newIndex energy
      (m : model) :
  (forall i, 0 <= i < len (spinArray m) -> found flips i = found flips' i) ->
  neighbourTerm flips s spinFlip newIndex energy m
  = neighbourTerm flips' s spinFlip newIndex energy m.
Proof.
  intros Hsame. unfold neighbourTerm. rewrite !run_gets.
  apply bind_ext_readonly; [apply readonly_at|]. intros t Hat.
  now rewrite (Hsame newIndex (at_in_range _ _ _ _ Hat)).
Qed.

(** X6: getEffHamiltonian reads [flips] as a set of indices of [spinArray]:
    two vectors that hold the same indices of the array give the same
    outcome, so the order of the indices and their repetition do not
    matter, and an index that is negative or beyond the array is ignored. *)
Theorem getEffHamiltonian_reads_flips_as_a_set :
  forall (m : model) (flips flips' : list Z),
    (forall i, 0 <= i < len (spinArray m) -> found flips i = found flips' i) ->
    getEffHamiltonian flips m = getEffHamiltonian flips' m.
Proof.
  intros m flips flips' Hsame. unfold getEffHamiltonian. rewrite !run_gets.
  apply foldM_ext_readonly.
  - intros acc x. repeat readonly_step.
  - intros energy i _. rewrite !run_gets.
    apply bind_ext_readonly; [apply readonly_at|]. intros s Hat.
    destruct (negb (active s)); [reflexivity|].
    rewrite (Hsame i (at_in_range _ _ _ _ Hat)).
    apply bind_ext_readonly; [apply readonly_geth|]. intros h _.
    rewrite !run_gets.
    apply foldM_ext_readonly.
    + intros acc x. repeat readonly_step.
    + intros energy' j _.
      apply bind_ext_readonly; [apply readonly_at|]. intros dj _.
      apply bind_ext_readonly; [repeat readonly_step|]. intros left _.
      apply bind_ext2.
      { destruct left; [apply neighbourTerm_ext; exact Hsame | reflexivity]. }
      { destruct left; repeat readonly_step. }
      intros energy'' _.
      apply bind_ext_readonly; [repeat readonly_step|]. intros right _.
      destruct right; [apply neighbourTerm_ext; exact Hsame | reflexivity].
Qed.

End FlipSets.

(** On the four-spin lattice the vectors (2, 0, 2, 7, -1) and (0, 2) are
    the same flip set. *)
Lemma getEffHamiltonian_reads_flips_as_a_set_witness :
  getEffHamiltonian [2; 0; 2; 7; -1] (lattice4 "HYBRID")
  = getEffHamiltonian [0; 2] (lattice4 "HYBRID").
Proof.
  apply (getEffHamiltonian_reads_flips_as_a_set
           (FO := RealOps) (EX := UnitInterval) (lattice4 "HYBRID")).
  intros i Hi. change (len (spinArray (lattice4 "HYBRID"))) with 4 in Hi.
  assert (Hcases : i = 0 \/ i = 1 \/ i = 2 \/ i = 3) by lia.
  destruct Hcases as [-> | [-> | [-> | ->]]]; reflexivity.
Defined.

(* ------------------------------------------------------------------ *)
(** ** The energy of a consistent model over the real numbers *)

Section DefinedEnergy.
Context {EX : Externals R}.

Lemma returns_computePartitionFunction_rec (m : IsingModel R) :
  consistent m ->
  forall fuel start flips,
    (Z.to_nat (nSpins m - start) <= fuel)%nat ->
    returnsAt m (computePartitionFunction_rec fuel start flips).
Proof.
  intros Hm. induction fuel as [|fuel IH]; intros start flips Hfuel.
  - simpl. unfold returnsAt, bind, gets.
    destruct (Z.leb_spec (nSpins m) start); [now eexists | lia].
  - simpl. unfold returnsAt. unfold bind at 1. unfold gets at 1.
    destruct (Z.leb_spec (nSpins m) start) as [Hge | Hlt]; [now eexists|].
    unfold bind at 1.
    destruct (getEffHamiltonian_returns m (flips ++ [start]) Hm) as [e ->].
    unfold bind at 1.
    destruct (IH (start + 1) (flips ++ [start]) ltac:(lia)) as [z ->].
    unfold bind at 1.
    destruct (IH (start + 1) flips ltac:(lia)) as [z' ->].
    destruct (start =? 0); [|now eexists].
    unfold bind.
    destruct (getEffHamiltonian_returns m [] Hm) as [e0 ->]. now eexists.
Qed.

(** X7: Over the real numbers, on a model whose geometry is consistent
    ([nSpins] counts the spins, every lattice dimension is positive and
    every spin has one coordinate per dimension), no index leaves an
    array: getEffHamiltonian returns a value for every flip set, and
    computePartitionFunction for every start and flip set. *)
Theorem energy_is_defined_on_a_consistent_model :
  forall (m : IsingModel R) (start : Z) (flips : list Z),
    consistent m ->
    (exists e, getEffHamiltonian flips m = Returned e m) /\
    (exists z, computePartitionFunction start flips m = Returned z m).
Proof.
  intros m start flips Hm. split.
  - apply (getEffHamiltonian_returns m flips Hm).
  - unfold computePartitionFunction, bind, gets.
    apply (returns_computePartitionFunction_rec m Hm). lia.
Qed.

End DefinedEnergy.

Lemma energy_is_defined_on_a_consistent_model_witness :
  (exists e, getEffHamiltonian [1; 2] (lattice4 "HYBRID")
             = Returned e (lattice4 "HYBRID")) /\
  (exists z, computePartitionFunction 0 [1; 2] (lattice4 "HYBRID")
             = Returned z (lattice4 "HYBRID")).
Proof.
  apply (energy_is_defined_on_a_consistent_model (EX := UnitInterval)
           (lattice4 "HYBRID") 0 [1; 2] (consistent_lattice4 "HYBRID")).
Defined.

(* ------------------------------------------------------------------ *)
(** ** The distance of two spins *)

Lemma real_pow_2 x : real_pow x 2 = (x * x)%R.
Proof.
  assert (Hpos : forall y, (0 < y)%R -> Rpower y 2 = (y * y)%R).
  { intros y Hy. replace 2%R with (INR 2) by (simpl; lra).
    rewrite Rpower_pow by exact Hy. simpl. lra. }
  unfold real_pow.
  destruct (Req_dec_T 2 0) as [H20 | _]; [lra|].
  destruct (Rlt_dec 0 x) as [Hx | Hx]; [now apply Hpos|].
  destruct (Req_dec_T x 0) as [-> | Hx0]; [lra|].
  replace (Int_part 2) with 2 by (symmetry; apply (Int_part_IZR 2)).
  destruct (Req_dec_T (IZR 2) 2) as [_ | Hne]; [|now elim Hne].
  simpl. rewrite Hpos by lra. lra.
Qed.

Section Distance.
Context {EX : Externals R}.

Lemma at_beyond {St A} (v : list A) i (s : St) :
  len v <= i -> at_ v i s = Thrown out_of_range s.
Proof.
  intros Hi. unfold at_. pose proof (len_nonneg v).
  destruct (Z.ltb_spec i 0); [reflexivity|].
  destruct (nth_error v (Z.to_nat i)) eqn:Hnth; [|reflexivity].
  assert (Z.to_nat i < List.length v)%nat by (apply nth_error_Some; congruence).
  unfold len in Hi. lia.
Qed.

Lemma getDistanceSq_loop (m : IsingModel R) (t1 : list R) :
  forall d1 d2 t2 acc,
    len d1 = len d2 ->
    foldM (fun distance i =>
             a <- at_ (d1 ++ t1) i ;;
             b <- at_ (d2 ++ t2) i ;;
             ret (distance + dpow (a - b) (of_int 2))%D)
          (range (len d1) (len d1 + len t1)) acc m
    = if len t1 <=? len t2
      then Returned (fold_left (fun acc xy => acc + (fst xy - snd xy) * (fst xy - snd xy))%R
                               (combine t1 t2) acc) m
      else Thrown out_of_range m.
Proof.
  induction t1 as [|x t1 IH]; intros d1 d2 t2 acc Hlen.
  - rewrite range_nil by (unfold len; simpl; lia). simpl.
    destruct (Z.leb_spec (len (@nil R)) (len t2)) as [_ | Hlt];
      [reflexivity | pose proof (len_nonneg t2); unfold len in *; simpl in *; lia].
  - rewrite range_cons by (unfold len; simpl; lia). simpl.
    unfold bind at 1. unfold bind at 1. rewrite at_middle.
    unfold bind at 1. destruct t2 as [|y t2].
    + rewrite at_beyond by (rewrite app_nil_r; lia).
      destruct (Z.leb_spec (len (x :: t1)) (len (@nil R))) as [Hle | _];
        [unfold len in Hle; simpl in Hle; lia | reflexivity].
    + assert (Hat2 : at_ (d2 ++ y :: t2) (len d1) m = Returned y m)
        by (rewrite Hlen; apply at_middle).
      rewrite Hat2. unfold ret at 1.
      specialize (IH (d1 ++ [x]) (d2 ++ [y]) t2
                     (acc + dpow (x - y) (of_int 2))%D).
      rewrite !len_app in IH. change (len [x]) with 1 in IH.
      change (len [y]) with 1 in IH.
      rewrite <- !app_assoc in IH. simpl app in IH.
      replace (len d1 + len (x :: t1)) with (len d1 + 1 + len t1)
        by (unfold len; simpl; lia).
      refine (eq_trans (IH ltac:(lia)) _).
      replace (len (x :: t1) <=? len (y :: t2)) with (len t1 <=? len t2).
      2:{ unfold len. simpl.
          destruct (Z.leb_spec (Z.of_nat (List.length t1)) (Z.of_nat (List.length t2)));
            destruct (Z.leb_spec (Z.pos (Pos.of_succ_nat (List.length t1)))
                                 (Z.pos (Pos.of_succ_nat (List.length t2))));
            try reflexivity; lia. }
      simpl. change (dpow (x - y)%D (of_int 2)) with (real_pow (x - y) 2).
      rewrite real_pow_2. reflexivity.
Qed.

Lemma squares_nonneg (l : list (R * R)) :
  forall acc, (0 <= acc)%R ->
    (0 <= fold_left (fun acc xy => acc + (fst xy - snd xy) * (fst xy - snd xy))
                    l acc)%R.
Proof.
  induction l as [|xy l IH]; intros acc Hacc; simpl; [exact Hacc|].
  apply IH. pose proof (Rle_0_sqr (fst xy - snd xy)) as Hsq.
  unfold Rsqr in Hsq. lra.
Qed.

Lemma getDistanceSq_sum (m : IsingModel R) (s1 s2 : spin R) :
  foldM (fun distance i =>
           a <- at_ (coords s1) i ;;
           b <- at_ (coords s2) i ;;
           ret (distance + dpow (a - b) (of_int 2))%D)
        (range 0 (len (coords s1))) (of_int 0) m
  = if len (coords s1) <=? len (coords s2)
    then Returned (fold_left (fun acc xy => acc + (fst xy - snd xy) * (fst xy - snd xy))%R
                             (combine (coords s1) (coords s2)) 0%R) m
    else Thrown out_of_range m.
Proof.
  exact (getDistanceSq_loop m (coords s1) [] [] (coords s2) 0%R eq_refl).
Qed.

(** X8: Over the real numbers getDistanceSq(s1, s2) is the squared Euclidean
    distance of the two spins, taken over the coordinates of [s1], with 1
    in place of 0.  With [interactionSigma == 0] it is 1 and no coordinate
    is read.  Otherwise, when [s2] has at least as many coordinates as
    [s1], it returns the sum of the squared differences, or 1 when that
    sum is 0, so the value is always positive; when [s2] has fewer
    coordinates, std::out_of_range escapes. *)
Theorem getDistanceSq_is_the_squared_distance :
  forall (m : IsingModel R) (s1 s2 : spin R),
    let D := fold_left (fun acc xy => acc + (fst xy - snd xy) * (fst xy - snd xy))%R
                       (combine (coords s1) (coords s2)) 0%R in
    (interactionSigma m = 0%R -> getDistanceSq s1 s2 m = Returned 1%R m) /\
    (interactionSigma m <> 0%R -> len (coords s1) <= len (coords s2) ->
       getDistanceSq s1 s2 m = Returned (if Req_dec_T D 0 then 1%R else D) m /\
       (0 < (if Req_dec_T D 0 then 1 else D))%R) /\
    (interactionSigma m <> 0%R -> len (coords s2) < len (coords s1) ->
       getDistanceSq s1 s2 m = Thrown out_of_range m).
Proof.
  intros m s1 s2 D.
  assert (Hrun : interactionSigma m <> 0%R ->
                 getDistanceSq s1 s2 m
                 = if len (coords s1) <=? len (coords s2)
                   then Returned (if Req_dec_T D 0 then 1%R else D) m
                   else Thrown out_of_range m).
  { intros Hsig. unfold getDistanceSq. rewrite run_gets.
    change ((interactionSigma m =? of_int 0)%D)
      with (real_eqb (interactionSigma m) 0).
    rewrite real_eqb_false by exact Hsig.
    unfold bind at 1. rewrite getDistanceSq_sum. fold D.
    destruct (len (coords s1) <=? len (coords s2)); [|reflexivity].
    change ((D =? of_int 0)%D) with (real_eqb D 0). unfold real_eqb.
    destruct (Req_dec_T D 0); reflexivity. }
  split; [|split].
  - intros Hsig. unfold getDistanceSq. rewrite run_gets.
    change ((interactionSigma m =? of_int 0)%D)
      with (real_eqb (interactionSigma m) 0).
    now rewrite real_eqb_true.
  - intros Hsig Hlen. rewrite (Hrun Hsig).
    destruct (Z.leb_spec (len (coords s1)) (len (coords s2))); [|lia].
    split; [reflexivity|].
    destruct (Req_dec_T D 0) as [_ | Hne]; [lra|].
    assert (0 <= D)%R by (apply squares_nonneg; lra). lra.
  - intros Hsig Hshort. rewrite (Hrun Hsig).
    destruct (Z.leb_spec (len (coords s1)) (len (coords s2)));
      [lia | reflexivity].
Qed.

End Distance.

(* ------------------------------------------------------------------ *)
(** ** What a Monte Carlo run leaves alone *)

Lemma signFlipped_trans {double} (a b c : spin double) :
  signFlipped a b -> signFlipped b c -> signFlipped a c.
Proof.
  unfold signFlipped. intros (Ha & Hc & Hs) (Ha' & Hc' & Hs').
  repeat split; try congruence. lia.
Qed.

Lemma Forall2_signFlipped_trans {double} (l1 l2 l3 : list (spin double)) :
  Forall2 signFlipped l1 l2 -> Forall2 signFlipped l2 l3 ->
  Forall2 signFlipped l1 l3.
Proof.
  intros H12. revert l3. induction H12 as [|a b l1 l2 Hab H12 IH]; intros l3 H23.
  - inversion H23. constructor.
  - inversion H23 as [|b' c l2' l3' Hbc H23']. subst.
    constructor; [eapply signFlipped_trans; eassumption | now apply IH].
Qed.

Lemma Forall2_signFlipped_update {double} (arr : list (spin double)) i s :
  nth_error arr i = Some s ->
  Forall2 signFlipped arr (update arr i (with_S_val (- S_val s) s)).
Proof.
  revert i. induction arr as [|x arr IH]; intros i Hnth.
  - destruct i; discriminate.
  - destruct i as [|i]; simpl in *.
    + injection Hnth as ->. constructor.
      * unfold signFlipped. simpl. auto.
      * apply Forall2_signFlipped_refl.
    + constructor; [apply signFlipped_refl | now apply IH].
Qed.

Section Preserved.
Context {double rng : Type} {FO : FloatOps double} {EX : Externals double}
        {RG : RandomGen double rng}.
#[local] Abbreviation model := (IsingModel double).

(** A property [J] of the object that survives the three writes of the
    Monte Carlo engine: a change of sign of spin values, and an assignment
    to [mcInfo] or to [currentEffH]. *)
Variable J : model -> Prop.
Hypothesis J_spins :
  forall m arr', J m -> Forall2 signFlipped (spinArray m) arr' ->
                 J (with_spinArray arr' m).
Hypothesis J_mcInfo : forall m v, J m -> J (with_mcInfo v m).
Hypothesis J_currentEffH : forall m v, J m -> J (with_currentEffH v m).

#[local] Abbreviation pres c := (triple J c (fun _ => J) J).

Lemma pres_bind {A B} (c : M model A) (k : A -> M model B) :
  pres c -> (forall a, pres (k a)) -> pres (bind c k).
Proof. intros Hc Hk. eapply triple_bind; [exact Hc | exact Hk]. Qed.

Lemma pres_ret {A} (a : A) : pres (ret a).
Proof. now apply triple_ret. Qed.

Lemma pres_gets {A} (f : model -> A) : pres (gets f).
Proof. intros s Hs. exact Hs. Qed.

Lemma pres_readonly {A} (c : M model A) : readonly c -> pres c.
Proof. apply triple_readonly. Qed.

Lemma pres_foldM {A B} (body : A -> B -> M model A) l acc :
  (forall acc x, pres (body acc x)) -> pres (foldM body l acc).
Proof. intros Hb. now apply triple_foldM. Qed.

Lemma pres_flipSpin i : pres (flipSpin i).
Proof.
  intros m Hm. unfold flipSpin, storeS. rewrite !run_gets.
  unfold bind at 1.
  destruct (at_ (spinArray m) i m) as [s m1 | e m1 | | |] eqn:Hat; trivial.
  2:{ destruct (at_outcome (spinArray m) i m) as [(x & Hx & _) | Ht];
        congruence. }
  assert (m1 = m) as ->.
  { destruct (at_outcome (spinArray m) i m) as [(x & Hx & _) | Ht]; congruence. }
  rewrite run_gets. unfold bind at 1. rewrite Hat.
  pose proof (at_in_range _ _ _ _ Hat) as Hi.
  unfold bind, set_at.
  destruct (Z.ltb_spec i 0); [lia|].
  destruct (Z.leb_spec (len (spinArray m)) i); [lia|].
  simpl. apply J_spins; [exact Hm|].
  apply Forall2_signFlipped_update.
  unfold at_ in Hat. destruct (Z.ltb_spec i 0); [lia|].
  destruct (nth_error (spinArray m) (Z.to_nat i)); [|discriminate].
  unfold ret in Hat. congruence.
Qed.

Lemma pres_recordFlip tE : pres (recordFlip tE).
Proof.
  intros m Hm. unfold recordFlip, bind, gets, modify.
  now apply J_currentEffH, J_mcInfo.
Qed.

Ltac pres_step :=
  cbv beta;
  first [ apply pres_flipSpin | apply pres_recordFlip
        | apply pres_readonly, readonly_at
        | apply pres_readonly, readonly_getEffHamiltonian
        | apply pres_ret | apply pres_gets
        | apply pres_bind; [|intros ?]
        | apply pres_foldM; intros ? ?
        | apply triple_if
        | match goal with
          | |- triple _ (match ?x with _ => _ end) _ _ => destruct x
          | |- triple _ ((match ?x with _ => _ end) _) _ _ => destruct x
          end ].

Lemma pres_metropolisStep r : pres (metropolisStep r).
Proof.
  unfold metropolisStep, metropolisAccept, getEffHamiltonian1.
  repeat pres_step.
Qed.

Lemma pres_heatBathStep r : pres (heatBathStep r).
Proof.
  unfold heatBathStep, heatBathAccept, getEffHamiltonian1.
  repeat pres_step.
Qed.

Lemma pres_hybridStep u spinFlips : pres (hybridStep u spinFlips).
Proof. unfold hybridStep. repeat pres_step. Qed.

Lemma pres_adaptGranularity g a b : pres (adaptGranularity g a b).
Proof. unfold adaptGranularity. repeat pres_step. Qed.

Lemma pres_drawSpinFlips g pop size r : pres (drawSpinFlips g pop size r).
Proof. unfold drawSpinFlips, drawIndex. repeat pres_step. Qed.

Lemma pres_hybridThreads fuel :
  forall g pop size r groups, pres (hybridThreads fuel g pop size r groups).
Proof.
  induction fuel as [|fuel IH]; intros g pop size r groups; simpl.
  - apply triple_if; [easy | apply pres_ret].
  - apply triple_if; [|apply pres_ret].
    repeat first [apply IH | apply pres_drawSpinFlips | apply pres_hybridStep
                 | pres_step].
Qed.

(** The part of one step that depends on the method. *)
Lemma pres_method (method : string) g newAvg avg r :
  pres (if String.eqb method "METROPOLIS" then
          '(_, r) <- metropolisStep r ;; ret (g, r)
        else if String.eqb method "HEATBATH" then
          '(_, r) <- heatBathStep r ;; ret (g, r)
        else if String.eqb method "HYBRID" then
          n <- gets nSpins ;;
          (if n <? 0 then throw length_error else ret tt) ;;;
          let popVector := range 0 n in
          nSpinsPerThread <- adaptGranularity g newAvg avg ;;
          '(_, r) <- hybridThreads (Z.to_nat n) nSpinsPerThread popVector n r [] ;;
          ret (nSpinsPerThread, r)
        else ret (g, r)).
Proof.
  repeat first [ apply pres_metropolisStep | apply pres_heatBathStep
               | apply pres_hybridThreads | apply pres_adaptGranularity
               | apply triple_throw; now auto
               | pres_step ].
Qed.

Hypothesis J_hybridInfo : forall m v, J m -> J (with_hybridInfo v m).

Lemma pres_mcStep avg g r : pres (mcStep avg g r).
Proof.
  unfold mcStep.
  repeat first [ apply pres_method
               | apply triple_modify; intros; now auto
               | pres_step ].
Qed.

Lemma pres_runMonteCarlo : pres runMonteCarlo.
Proof.
  unfold runMonteCarlo, initialGranularity.
  repeat first [ apply pres_mcStep
               | apply triple_modify; intros; now auto
               | pres_step | easy ].
Qed.

End Preserved.

(* ------------------------------------------------------------------ *)
(** ** The convergence graph *)

Section Convergence.
Context {double : Type} {FO : FloatOps double}.
#[local] Abbreviation model := (IsingModel double).

Lemma stepIndices_loop (m : model) (t : nat) :
  forall done : list double,
    foldM (fun stepIndices i => set_at stepIndices i (of_int (i + 1)))
          (range (len done) (len done + Z.of_nat t))
          (done ++ repeat (of_int 0) t) m
    = Returned (done ++ map (fun i => of_int (i + 1))
                            (range (len done) (len done + Z.of_nat t))) m.
Proof.
  induction t as [|t IH]; intros done.
  - rewrite range_nil by lia. reflexivity.
  - replace (len done + Z.of_nat (S t)) with (len done + 1 + Z.of_nat t) by lia.
    rewrite range_cons by lia.
    change (repeat (of_int 0) (S t)) with (of_int 0 :: repeat (of_int 0) t).
    cbn [foldM]. unfold bind. rewrite set_at_middle. cbv beta iota.
    specialize (IH (done ++ [of_int (len done + 1)])).
    rewrite len_app in IH. change (len [_]) with 1 in IH.
    rewrite <- !app_assoc in IH. simpl app in IH.
    rewrite IH. reflexivity.
Qed.

(** What getConvergenceGr() returns. *)
Lemma getConvergenceGr_spec :
  forall m : model,
    (hybridInfo m = [] -> getConvergenceGr m = Undefined) /\
    (forall x rest,
        hybridInfo m = x :: rest ->
        getConvergenceGr m
        = Returned (len rest,
                    map (fun i => of_int (i + 1)) (range 0 (len rest)),
                    rest) m).
Proof.
  intros m. split.
  - intros Hnil. unfold getConvergenceGr, bind, gets. now rewrite Hnil.
  - intros x rest Hcons. unfold getConvergenceGr. rewrite run_gets, Hcons.
    unfold bind.
    pose proof (stepIndices_loop m (List.length rest) []) as Hloop.
    change (len []) with 0 in Hloop. simpl in Hloop.
    unfold len. rewrite Hloop. reflexivity.
Qed.

(** X9: getConvergenceGr() drops the first entry of [hybridInfo] and plots
    the others against 1, 2, ...; it leaves the object alone.  On an empty
    [hybridInfo] it erases [begin()] of an empty vector: the behaviour is
    undefined. *)
Theorem getConvergenceGr_drops_the_first_entry :
  forall m : model,
    (hybridInfo m = [] -> getConvergenceGr m = Undefined) /\
    (forall x rest,
        hybridInfo m = x :: rest ->
        getConvergenceGr m
        = Returned (len rest,
                    map (fun i => of_int (i + 1)) (range 0 (len rest)),
                    rest) m).
Proof. exact getConvergenceGr_spec. Qed.

End Convergence.

Section ConvergenceLog.
Context {double rng : Type} {FO : FloatOps double} {EX : Externals double}
        {RG : RandomGen double rng}.
#[local] Abbreviation model := (IsingModel double).

Hypothesis minus_one_negative : (of_int 0 <=? of_int (-1))%D = false.

#[local] Abbreviation logIs h := (fun s : model => hybridInfo s = h).

Lemma logIs_pres {A} (h : list double) (c : M model A) :
  (forall J : model -> Prop,
      (forall m arr', J m -> Forall2 signFlipped (spinArray m) arr' ->
                      J (with_spinArray arr' m)) ->
      (forall m v, J m -> J (with_mcInfo v m)) ->
      (forall m v, J m -> J (with_currentEffH v m)) ->
      triple J c (fun _ => J) J) ->
  triple (logIs h) c (fun _ => logIs h) (logIs h).
Proof.
  intros Hc. apply Hc; intros m ? Hm; [intros _| |]; now destruct m.
Qed.

Lemma mcStep_hybridInfo h avg g r :
  triple (logIs h) (mcStep (RG := RG) avg g r)
         (fun _ => logIs (h ++ if (of_int 0 <=? avg)%D then [avg] else []))
         (logIs h).
Proof.
  unfold mcStep.
  eapply triple_bind; [apply triple_gets_keep | intros info].
  apply (triple_bind _ _ _ (fun _ => logIs h)).
  { apply triple_modify. intros m Hm. now destruct m. }
  intros _.
  eapply triple_bind; [apply triple_gets_keep | intros method].
  apply (triple_bind _ _ _ (fun _ => logIs h)).
  { apply logIs_pres. intros J H1 H2 H3. now apply pres_method. }
  intros [g' r'].
  apply (triple_bind _ _ _
           (fun _ => logIs (h ++ if (of_int 0 <=? avg)%D then [avg] else []))).
  - destruct (of_int 0 <=? avg)%D.
    + intros m Hm. unfold bind, gets, modify. rewrite Hm. now destruct m.
    + apply triple_ret. intros m Hm. now rewrite app_nil_r.
  - intros _. apply triple_ret. intros m Hm. exact Hm.
Qed.

Lemma mcSteps_hybridInfo (l : list Z) :
  forall h acc,
    triple (logIs h)
           (foldM (fun '(avgAbsDeltaE, nSpinsPerThread, r) _ =>
                     mcStep (RG := RG) avgAbsDeltaE nSpinsPerThread r) l acc)
           (fun _ s => exists added,
                hybridInfo s = h ++ added /\ len added <= len l)
           (fun s => exists added,
                hybridInfo s = h ++ added /\ len added <= len l).
Proof.
  induction l as [|x l IH]; intros h acc.
  - simpl. apply triple_ret. intros m Hm. exists []. rewrite app_nil_r.
    split; [exact Hm | reflexivity].
  - simpl. destruct acc as [[avg g] r].
    eapply triple_bind.
    + eapply triple_weaken; [apply mcStep_hybridInfo | | |]; cbv beta.
      * intros s Hs. exact Hs.
      * intros a s Hs. exact Hs.
      * intros s Hs. exists []. rewrite app_nil_r.
        split; [exact Hs | rewrite len_nil, len_cons; pose proof (len_nonneg l); lia].
    + intros acc'. cbv beta.
      eapply triple_weaken; [apply IH | | |]; cbv beta.
      * intros s Hs. exact Hs.
      * intros _ s (added & Hadd & Hlen).
        exists ((if (of_int 0 <=? avg)%D then [avg] else []) ++ added).
        rewrite app_assoc. split; [exact Hadd|].
        rewrite len_app. pose proof (len_nonneg added).
        destruct (of_int 0 <=? avg)%D; rewrite ?len_cons, ?len_nil; lia.
      * intros s (added & Hadd & Hlen).
        exists ((if (of_int 0 <=? avg)%D then [avg] else []) ++ added).
        rewrite app_assoc. split; [exact Hadd|].
        rewrite len_app. pose proof (len_nonneg added).
        destruct (of_int 0 <=? avg)%D; rewrite ?len_cons, ?len_nil; lia.
Qed.

(** What runMonteCarlo() appends to [hybridInfo]. *)
Lemma runMonteCarlo_hybridInfo :
  forall m : model,
    match runMonteCarlo (RG := RG) m with
    | Returned _ m' | Thrown _ m' =>
        exists added,
          hybridInfo m' = hybridInfo m ++ added /\
          len added <= Z.max (nMCSteps m - 1) 0
    | _ => True
    end.
Proof.
  intros m.
  set (J := fun s : model => hybridInfo s = hybridInfo m /\
                             nMCSteps s = nMCSteps m).
  set (Q := fun s : model => exists added,
                hybridInfo s = hybridInfo m ++ added /\
                len added <= Z.max (nMCSteps m - 1) 0).
  assert (HJQ : forall s, J s -> Q s).
  { intros s [Hs _]. exists []. rewrite app_nil_r. split; [exact Hs|].
    unfold len. simpl. lia. }
  assert (Hrun : triple J (runMonteCarlo (RG := RG)) (fun _ => Q) Q).
  { unfold runMonteCarlo.
    eapply triple_bind; [apply triple_gets_keep | intros ok].
    apply (triple_bind _ _ _ (fun _ => J)).
    { destruct (negb ok); [easy | now apply triple_ret]. }
    intros _.
    apply (triple_bind _ _ _ (fun _ => J)).
    { eapply triple_weaken;
        [apply (triple_readonly J), readonly_getEffHamiltonian | | |]; auto. }
    intros e.
    apply (triple_bind _ _ _ (fun _ => J)).
    { apply triple_modify. intros s [Hs Hn]. split; now destruct s. }
    intros _.
    apply (triple_bind _ _ _ (fun _ => J)).
    { unfold initialGranularity.
      eapply triple_bind; [apply triple_gets_keep | intros n].
      eapply triple_bind; [apply triple_gets_keep | intros t].
      destruct (t =? 0); [easy | now apply triple_ret]. }
    intros g.
    eapply triple_bind; [apply triple_gets | intros steps].
    apply (triple_bind _ _ _ (fun _ => Q)); [|intros ?; now apply triple_ret].
    intros s [[Hs Hn] ->]. rewrite Hn.
    destruct (Z.ltb_spec 0 (nMCSteps m)) as [Hpos | Hnone].
    - rewrite range_cons by exact Hpos.
      cbn [foldM]. unfold bind at 1.
      pose proof (mcStep_hybridInfo (hybridInfo m) (of_int (-1)) g
                    TRandom3_new s Hs) as Hfirst.
      destruct (mcStep (of_int (-1)) g TRandom3_new s)
        as [acc s1 | ex s1 | | |]; trivial.
      2:{ exists []. rewrite app_nil_r. split; [exact Hfirst|].
          rewrite len_nil. lia. }
      rewrite minus_one_negative, app_nil_r in Hfirst.
      pose proof (mcSteps_hybridInfo (range (0 + 1) (nMCSteps m))
                    (hybridInfo m) acc s1 Hfirst) as Hrest.
      assert (Hlen : len (range (0 + 1) (nMCSteps m)) = nMCSteps m - 1).
      { unfold len. rewrite length_range. lia. }
      rewrite Hlen in Hrest.
      destruct (foldM _ (range (0 + 1) (nMCSteps m)) acc s1)
        as [acc' s2 | ex s2 | | |]; trivial;
        destruct Hrest as (added & Hadd & Hle); exists added;
        (split; [exact Hadd | lia]).
    - rewrite range_nil by lia. simpl. apply HJQ. now split. }
  specialize (Hrun m (conj eq_refl eq_refl)).
  destruct (runMonteCarlo m); trivial.
Qed.

(** X10: runMonteCarlo() only appends to [hybridInfo], the first step of a run
    appends nothing, and each later step at most one value: a run of
    [nMCSteps] steps leaves at most [nMCSteps - 1] new entries, whether it
    returns or an exception escapes.  After a single-step run
    [hybridInfo] is what it was.  The comparison [0 <= -1] is assumed to
    be false. *)
Theorem runMonteCarlo_appends_to_hybridInfo :
  forall m : model,
    match runMonteCarlo (RG := RG) m with
    | Returned _ m' | Thrown _ m' =>
        exists added,
          hybridInfo m' = hybridInfo m ++ added /\
          len added <= Z.max (nMCSteps m - 1) 0
    | _ => True
    end.
Proof. exact runMonteCarlo_hybridInfo. Qed.

End ConvergenceLog.

(* ------------------------------------------------------------------ *)
(** ** Sorting the spins *)

Lemma update_same {A} (v : list A) i x :
  nth_error v i = Some x -> update v i x = v.
Proof.
  revert i. induction v as [|y v IH]; intros i Hnth.
  - now destruct i.
  - destruct i as [|i]; simpl in *; [congruence | now rewrite IH].
Qed.

Lemma StronglySorted_app {A} (R : A -> A -> Prop) (l1 l2 : list A) :
  StronglySorted R l1 -> StronglySorted R l2 ->
  (forall a b, In a l1 -> In b l2 -> R a b) ->
  StronglySorted R (l1 ++ l2).
Proof.
  intros H1 H2 H12. induction H1 as [|a l1 H1 IH Ha]; simpl; [exact H2|].
  constructor.
  - apply IH. intros x y Hx Hy. apply H12; [now right | exact Hy].
  - apply Forall_app. split; [exact Ha|].
    apply Forall_forall. intros b Hb. apply H12; [now left | exact Hb].
Qed.

Section Sorting.
Context {double : Type} {FO : FloatOps double} {EX : Externals double}.
#[local] Abbreviation model := (IsingModel double).

Lemma index_middle {A} (l1 l2 : list A) x i (m : model) :
  i = len l1 -> index_ (l1 ++ x :: l2) i m = Returned x m.
Proof.
  intros ->. unfold index_, len.
  destruct (Z.ltb_spec (Z.of_nat (List.length l1)) 0); [lia|].
  now rewrite Nat2Z.id, nth_error_middle.
Qed.

(** swap of one element with itself *)
Lemma swap_same pre x post i (m : model) :
  spinArray m = pre ++ x :: post -> i = len pre ->
  swap i i m = Returned tt m.
Proof.
  intros Harr ->. unfold swap. rewrite run_gets, Harr.
  unfold bind. rewrite !index_middle by reflexivity. unfold modify.
  unfold len. rewrite Nat2Z.id, !update_middle.
  now rewrite <- Harr, with_spinArray_same.
Qed.

(** swap of two elements, the first before the second *)
Lemma swap_apart pre a mid b post i j (m : model) :
  spinArray m = pre ++ a :: mid ++ b :: post ->
  i = len pre -> j = len pre + 1 + len mid ->
  swap i j m = Returned tt (with_spinArray (pre ++ b :: mid ++ a :: post) m).
Proof.
  intros Harr -> ->. unfold swap. rewrite run_gets, Harr.
  unfold bind. rewrite index_middle by reflexivity.
  replace (pre ++ a :: mid ++ b :: post) with ((pre ++ a :: mid) ++ b :: post)
    by (rewrite <- app_assoc; reflexivity).
  rewrite index_middle by (rewrite len_app, len_cons; lia).
  unfold modify.
  rewrite <- app_assoc. simpl app.
  unfold len at 1. rewrite Nat2Z.id, update_middle.
  replace (pre ++ b :: mid ++ b :: post) with ((pre ++ b :: mid) ++ b :: post)
    by (rewrite <- app_assoc; reflexivity).
  replace (Z.to_nat (len pre + 1 + len mid)) with (List.length (pre ++ b :: mid)).
  2:{ unfold len. rewrite length_app. simpl List.length. lia. }
  rewrite update_middle, <- app_assoc. reflexivity.
Qed.

(** The loop of QSPartition: [L] holds the elements found not greater
    than the pivot, [G] the greater ones, [rest] is still to be read. *)
Lemma QSPartition_loop pre p post (rest : list (spin double)) :
  forall L G lo hi i0 (m : model),
    spinArray m = pre ++ L ++ G ++ rest ++ p :: post ->
    lo = len pre + len L + len G ->
    hi = lo + len rest ->
    i0 = len pre + len L - 1 ->
    returnsWith
      (foldM (fun i j =>
                vec <- gets spinArray ;;
                vj <- index_ vec j ;;
                if negb (spin_gt vj p)
                then swap (i + 1) j ;;; ret (i + 1)
                else ret i)
             (range lo hi) i0 m)
      (fun i m' =>
         exists L' G',
           i = len pre + len L' - 1 /\
           m' = with_spinArray (pre ++ L' ++ G' ++ p :: post) m /\
           Permutation (L ++ G ++ rest) (L' ++ G') /\
           (Forall (fun a => spin_gt a p = false) L ->
            Forall (fun a => spin_gt a p = false) L') /\
           (Forall (fun a => spin_gt a p = true) G ->
            Forall (fun a => spin_gt a p = true) G')).
Proof.
  induction rest as [|x rest IH]; intros L G lo hi i0 m Harr Hlo Hhi Hi0.
  - rewrite range_nil by (rewrite len_nil in Hhi; lia). simpl.
    exists L, G. repeat split; trivial.
    + simpl app in Harr. now rewrite <- Harr, with_spinArray_same.
    + now rewrite app_nil_r.
  - rewrite len_cons in Hhi. pose proof (len_nonneg rest) as Hrest.
    rewrite range_cons by lia.
    cbn [foldM]. unfold bind at 1. rewrite run_gets.
    assert (Hsplit : spinArray m = (pre ++ L ++ G) ++ x :: rest ++ p :: post)
      by (rewrite Harr, <- !app_assoc; reflexivity).
    unfold bind at 1. rewrite Hsplit at 1.
    rewrite index_middle by (rewrite !len_app; lia).
    destruct (spin_gt x p) eqn:Hgt; cbn [negb].
    + (* greater than the pivot: [G] grows *)
      unfold ret at 1.
      pose proof (IH L (G ++ [x]) (lo + 1) hi i0 m) as Hrec.
      destruct (foldM _ (range (lo + 1) hi) i0 m) as [i m' | | | |];
        try (exfalso; apply Hrec; trivial;
             [ rewrite Harr, <- !app_assoc; reflexivity
             | rewrite len_app, len_cons, len_nil; lia | lia ]).
      destruct Hrec as (L' & G' & Hi & Hm & Hperm & HL & HG); trivial.
      { rewrite Harr, <- !app_assoc. reflexivity. }
      { rewrite len_app, len_cons, len_nil. lia. }
      { lia. }
      exists L', G'. repeat split; trivial.
      * rewrite <- Hperm, <- !app_assoc. reflexivity.
      * intros HGall. apply HG. apply Forall_app. split; [exact HGall|].
        now constructor.
    + (* not greater: swapped behind [L] *)
      unfold bind at 1.
      destruct G as [|g0 G].
      * (* [G] is empty: the element is swapped with itself *)
        assert (Hlo' : lo = i0 + 1) by (rewrite len_nil in Hlo; lia).
        rewrite Hlo'.
        rewrite (swap_same (pre ++ L) x (rest ++ p :: post) (i0 + 1) m).
        2:{ rewrite Harr, <- !app_assoc. reflexivity. }
        2:{ rewrite len_app. lia. }
        unfold ret at 1. cbv beta iota.
        pose proof (IH (L ++ [x]) [] (i0 + 1 + 1) hi (i0 + 1) m) as Hrec.
        destruct (foldM _ (range (i0 + 1 + 1) hi) (i0 + 1) m) as [i m' | | | |];
          try (exfalso; apply Hrec; trivial;
               [ rewrite Harr, <- !app_assoc; reflexivity
               | rewrite len_app, len_cons, !len_nil; lia | lia
               | rewrite len_app, len_cons, !len_nil; lia ]).
        destruct Hrec as (L' & G' & Hi & Hm & Hperm & HL & HG); trivial.
        { rewrite Harr, <- !app_assoc. reflexivity. }
        { rewrite len_app, len_cons, !len_nil. lia. }
        { lia. }
        { rewrite len_app, len_cons, !len_nil. lia. }
        exists L', G'. repeat split; trivial.
        -- rewrite <- Hperm, <- !app_assoc. reflexivity.
        -- intros HLall. apply HL. apply Forall_app. split; [exact HLall|].
           now constructor.
      * (* the first of [G] goes behind it *)
        rewrite (swap_apart (pre ++ L) g0 G x (rest ++ p :: post) (i0 + 1) lo m).
        2:{ rewrite Harr, <- !app_assoc. reflexivity. }
        2:{ rewrite len_app. lia. }
        2:{ rewrite len_app. rewrite len_cons in Hlo. lia. }
        unfold ret at 1. cbv beta iota.
        set (m1 := with_spinArray
                     ((pre ++ L) ++ x :: G ++ g0 :: rest ++ p :: post) m).
        pose proof (IH (L ++ [x]) (G ++ [g0]) (lo + 1) hi (i0 + 1) m1) as Hrec.
        destruct (foldM _ (range (lo + 1) hi) (i0 + 1) m1) as [i m' | | | |];
          try (exfalso; apply Hrec; trivial;
               [ unfold m1; rewrite spinArray_with_spinArray, <- !app_assoc;
                 reflexivity
               | rewrite !len_app, !len_cons, !len_nil;
                 rewrite len_cons in Hlo; lia
               | lia
               | rewrite len_app, len_cons, !len_nil; lia ]).
        destruct Hrec as (L' & G' & Hi & Hm & Hperm & HL & HG); trivial.
        { unfold m1. rewrite spinArray_with_spinArray, <- !app_assoc.
          reflexivity. }
        { rewrite !len_app, !len_cons, !len_nil. rewrite len_cons in Hlo. lia. }
        { lia. }
        { rewrite len_app, len_cons, !len_nil. lia. }
        exists L', G'. repeat split; trivial.
        -- rewrite Hm. unfold m1. apply with_spinArray_twice.
        -- rewrite <- Hperm, <- !app_assoc. simpl app.
           apply Permutation_app_head.
           etransitivity; [apply perm_skip; symmetry; apply Permutation_middle|].
           etransitivity; [apply perm_swap|].
           apply perm_skip. apply Permutation_middle.
        -- intros HLall. apply HL. apply Forall_app. split; [exact HLall|].
           now constructor.
        -- intros HGall. apply HG. inversion HGall as [|? ? Hg0 HG']. subst.
           apply Forall_app. split; [exact HG' | now constructor].
Qed.

Lemma QSPartition_spec pre body p post low high (m : model) :
  spinArray m = pre ++ (body ++ [p]) ++ post ->
  low = len pre -> high = len pre + len body ->
  returnsWith (QSPartition low high m)
    (fun pi m' =>
       exists L G,
         pi = len pre + len L /\
         m' = with_spinArray (pre ++ (L ++ p :: G) ++ post) m /\
         Permutation body (L ++ G) /\
         Forall (fun a => spin_gt a p = false) L /\
         Forall (fun a => spin_gt a p = true) G).
Proof.
  intros Harr Hlow Hhigh. unfold QSPartition. rewrite run_gets.
  unfold bind at 1.
  assert (Hsplit : spinArray m = (pre ++ body) ++ p :: post)
    by (rewrite Harr, <- !app_assoc; reflexivity).
  rewrite Hsplit at 1. rewrite index_middle by (rewrite len_app; lia).
  unfold bind at 1.
  pose proof (QSPartition_loop pre p post body [] [] low high (low - 1) m) as Hloop.
  destruct (foldM _ (range low high) (low - 1) m) as [i m1 | | | |];
    try (exfalso; apply Hloop;
         [ rewrite Harr, <- !app_assoc; reflexivity
         | rewrite !len_nil; lia | lia | rewrite !len_nil; lia ]).
  destruct Hloop as (L & G & Hi & Hm1 & Hperm & HL & HG).
  { rewrite Harr, <- !app_assoc. reflexivity. }
  { rewrite !len_nil. lia. }
  { lia. }
  { rewrite !len_nil. lia. }
  simpl app in Hperm.
  assert (Hlen : len body = len L + len G).
  { unfold len. rewrite (Permutation_length Hperm), length_app. lia. }
  unfold bind at 1. destruct G as [|g0 G].
  - rewrite len_nil in Hlen. replace high with (i + 1) by lia.
    rewrite (swap_same (pre ++ L) p post (i + 1) m1).
    2:{ rewrite Hm1, spinArray_with_spinArray, <- !app_assoc. reflexivity. }
    2:{ rewrite len_app. lia. }
    simpl. exists L, []. repeat split; trivial.
    + lia.
    + rewrite Hm1, <- !app_assoc. reflexivity.
    + apply HL. constructor.
  - rewrite (swap_apart (pre ++ L) g0 G p post (i + 1) high m1).
    2:{ rewrite Hm1, spinArray_with_spinArray, <- !app_assoc. reflexivity. }
    2:{ rewrite len_app. lia. }
    2:{ rewrite len_app. rewrite len_cons in Hlen. lia. }
    simpl. exists L, (G ++ [g0]). repeat split.
    + lia.
    + rewrite Hm1, with_spinArray_twice, <- !app_assoc. simpl app.
      rewrite <- !app_assoc. reflexivity.
    + rewrite Hperm. apply Permutation_app_head.
      change (g0 :: G) with ([g0] ++ G). apply Permutation_app_comm.
    + apply HL. constructor.
    + assert (HGall : Forall (fun a => spin_gt a p = true) (g0 :: G))
        by (apply HG; constructor).
      inversion HGall as [|? ? Hg0 HG']. subst.
      apply Forall_app. split; [exact HG' | now constructor].
Qed.

(** QuickSort on the segment [seg] of the array, with fuel for its
    recursions: it returns, the segment is permuted and everything else is
    as before; when [operator>] is a strict order the segment is sorted. *)
Lemma QuickSort_spec (fuel : nat) :
  forall pre seg post left right (m : model),
    spinArray m = pre ++ seg ++ post ->
    left = len pre -> right = len pre + len seg - 1 ->
    len seg <= Z.of_nat fuel + 1 ->
    returnsWith (QuickSort fuel left right m)
      (fun _ m' =>
         exists seg',
           m' = with_spinArray (pre ++ seg' ++ post) m /\
           Permutation seg seg' /\
           ((forall a b, spin_gt a b = true -> spin_gt b a = false) ->
            (forall a b c, spin_gt a b = true -> spin_gt b c = true ->
                           spin_gt a c = true) ->
            StronglySorted (fun a b => spin_gt a b = false) seg')).
Proof.
  induction fuel as [|fuel IH]; intros pre seg post left right m Harr Hl Hr Hfuel.
  - (* at most one element *)
    simpl. destruct (Z.ltb_spec left right) as [Hlt | Hge]; [lia|].
    simpl. exists seg. repeat split; trivial.
    + now rewrite <- Harr, with_spinArray_same.
    + intros _ _. destruct seg as [|a [|b seg]].
      * constructor.
      * constructor; constructor.
      * rewrite !len_cons in Hfuel. pose proof (len_nonneg seg). lia.
  - simpl. destruct (Z.ltb_spec left right) as [Hlt | Hge].
    2:{ simpl. exists seg. repeat split; trivial.
        + now rewrite <- Harr, with_spinArray_same.
        + intros _ _. destruct seg as [|a [|b seg]].
          * constructor.
          * constructor; constructor.
          * rewrite !len_cons in Hr. pose proof (len_nonneg seg). lia. }
    destruct (exists_last (l := seg)) as (body & p & ->).
    { intros ->. rewrite len_nil in Hr. lia. }
    rewrite len_app, len_cons, len_nil in Hr, Hfuel.
    unfold bind at 1.
    pose proof (QSPartition_spec pre body p post left right m Harr Hl
                  ltac:(lia)) as Hpart.
    destruct (QSPartition left right m) as [pi m1 | | | |]; try contradiction.
    destruct Hpart as (L & G & Hpi & Hm1 & Hperm & HL & HG).
    assert (Hlen : len body = len L + len G).
    { unfold len. rewrite (Permutation_length Hperm), length_app. lia. }
    pose proof (len_nonneg L) as HLnn. pose proof (len_nonneg G) as HGnn.
    assert (Hsorted : forall L1 G1,
               Permutation L L1 -> Permutation G G1 ->
               ((forall a b, spin_gt a b = true -> spin_gt b a = false) ->
                (forall a b c, spin_gt a b = true -> spin_gt b c = true ->
                               spin_gt a c = true) ->
                StronglySorted (fun a b => spin_gt a b = false) L1) ->
               ((forall a b, spin_gt a b = true -> spin_gt b a = false) ->
                (forall a b c, spin_gt a b = true -> spin_gt b c = true ->
                               spin_gt a c = true) ->
                StronglySorted (fun a b => spin_gt a b = false) G1) ->
               Permutation (body ++ [p]) (L1 ++ p :: G1) /\
               ((forall a b, spin_gt a b = true -> spin_gt b a = false) ->
                (forall a b c, spin_gt a b = true -> spin_gt b c = true ->
                               spin_gt a c = true) ->
                StronglySorted (fun a b => spin_gt a b = false) (L1 ++ p :: G1))).
    { intros L1 G1 HpL HpG HsL HsG. split.
      - rewrite Hperm, HpL, HpG, <- app_assoc.
        apply Permutation_app_head. apply Permutation_app_comm.
      - intros Hasym Htrans.
        assert (HL1 : Forall (fun a => spin_gt a p = false) L1)
          by (eapply Permutation_Forall; eassumption).
        assert (HG1 : Forall (fun a => spin_gt a p = true) G1)
          by (eapply Permutation_Forall; eassumption).
        rewrite Forall_forall in HL1, HG1.
        apply StronglySorted_app; [now apply HsL | |].
        + constructor; [now apply HsG|].
          apply Forall_forall. intros b Hb. apply Hasym. now apply HG1.
        + intros a b Ha [<- | Hb]; [now apply HL1|].
          destruct (spin_gt a b) eqn:Hab; [|reflexivity].
          rewrite <- (HL1 a Ha). symmetry.
          apply (Htrans a b p Hab). now apply HG1. }
    destruct (Z.ltb_spec (pi - left) (right - pi)) as [Hsmall | Hbig].
    + (* the left part first *)
      unfold bind at 1.
      pose proof (IH pre L (p :: G ++ post) left (pi - 1) m1) as H1.
      destruct (QuickSort fuel left (pi - 1) m1) as [[] m2 | | | |];
        try (exfalso; apply H1;
             [ rewrite Hm1, spinArray_with_spinArray, <- !app_assoc; reflexivity
             | lia | lia | lia ]).
      destruct H1 as (L1 & Hm2 & HpL & HsL).
      { rewrite Hm1, spinArray_with_spinArray, <- !app_assoc. reflexivity. }
      { lia. } { lia. } { lia. }
      assert (HlenL : len L1 = len L)
        by (unfold len; now rewrite (Permutation_length HpL)).
      pose proof (IH (pre ++ L1 ++ [p]) G post (pi + 1) right m2) as H2.
      destruct (QuickSort fuel (pi + 1) right m2) as [[] m3 | | | |];
        try (exfalso; apply H2;
             [ rewrite Hm2, spinArray_with_spinArray, <- !app_assoc; reflexivity
             | rewrite !len_app, len_cons, len_nil; lia
             | rewrite !len_app, len_cons, len_nil; lia | lia ]).
      destruct H2 as (G1 & Hm3 & HpG & HsG).
      { rewrite Hm2, spinArray_with_spinArray, <- !app_assoc. reflexivity. }
      { rewrite !len_app, len_cons, len_nil. lia. }
      { rewrite !len_app, len_cons, len_nil. lia. }
      { lia. }
      exists (L1 ++ p :: G1).
      destruct (Hsorted L1 G1 HpL HpG HsL HsG) as [Hp Hs].
      repeat split; trivial.
      rewrite Hm3, Hm2, Hm1, !with_spinArray_twice, <- !app_assoc. reflexivity.
    + (* the right part first *)
      unfold bind at 1.
      pose proof (IH (pre ++ L ++ [p]) G post (pi + 1) right m1) as H1.
      destruct (QuickSort fuel (pi + 1) right m1) as [[] m2 | | | |];
        try (exfalso; apply H1;
             [ rewrite Hm1, spinArray_with_spinArray, <- !app_assoc; reflexivity
             | rewrite !len_app, len_cons, len_nil; lia
             | rewrite !len_app, len_cons, len_nil; lia | lia ]).
      destruct H1 as (G1 & Hm2 & HpG & HsG).
      { rewrite Hm1, spinArray_with_spinArray, <- !app_assoc. reflexivity. }
      { rewrite !len_app, len_cons, len_nil. lia. }
      { rewrite !len_app, len_cons, len_nil. lia. }
      { lia. }
      pose proof (IH pre L (p :: G1 ++ post) left (pi - 1) m2) as H2.
      destruct (QuickSort fuel left (pi - 1) m2) as [[] m3 | | | |];
        try (exfalso; apply H2;
             [ rewrite Hm2, spinArray_with_spinArray, <- !app_assoc; reflexivity
             | lia | lia | lia ]).
      destruct H2 as (L1 & Hm3 & HpL & HsL).
      { rewrite Hm2, spinArray_with_spinArray, <- !app_assoc. reflexivity. }
      { lia. } { lia. } { lia. }
      exists (L1 ++ p :: G1).
      destruct (Hsorted L1 G1 HpL HpG HsL HsG) as [Hp Hs].
      repeat split; trivial.
      rewrite Hm3, Hm2, Hm1, !with_spinArray_twice, <- !app_assoc. reflexivity.
Qed.

End Sorting.

Section SortingTheorems.
Context {double : Type} {FO : FloatOps double} {EX : Externals double}.
#[local] Abbreviation model := (IsingModel double).

(** X11: QuickSort(vec, left, right) on a segment inside the array returns
    (the model is given fuel for at least "length of the segment minus
    one" nested calls): no element outside the array is touched, the
    segment is a permutation of what it was, the elements before and
    behind it and every other member of the object stay as they are.
    When operator> on spins is asymmetric and transitive, the segment is
    sorted: no element is greater than one that comes later. *)
Theorem QuickSort_sorts_the_segment :
  forall (fuel : nat) (pre seg post : list (spin double)) (m : model),
    spinArray m = pre ++ seg ++ post ->
    len seg <= Z.of_nat fuel + 1 ->
    exists seg',
      QuickSort fuel (len pre) (len pre + len seg - 1) m
      = Returned tt (with_spinArray (pre ++ seg' ++ post) m) /\
      Permutation seg seg' /\
      ((forall a b, spin_gt a b = true -> spin_gt b a = false) ->
       (forall a b c, spin_gt a b = true -> spin_gt b c = true ->
                      spin_gt a c = true) ->
       StronglySorted (fun a b => spin_gt a b = false) seg').
Proof.
  intros fuel pre seg post m Harr Hfuel.
  pose proof (QuickSort_spec fuel pre seg post (len pre)
                (len pre + len seg - 1) m Harr eq_refl eq_refl Hfuel) as Hq.
  destruct (QuickSort fuel (len pre) (len pre + len seg - 1) m)
    as [[] m' | | | |]; try contradiction.
  destruct Hq as (seg' & -> & Hperm & Hsorted).
  exists seg'. repeat split; trivial.
Qed.

End SortingTheorems.

(** The order of the unit interval instance: spins compared by their
    coordinates, lexicographically. *)
Lemma coords_gt_asym a : forall b, coords_gt a b = true -> coords_gt b a = false.
Proof.
  induction a as [|x a IH]; intros [|y b]; simpl; try discriminate; trivial.
  unfold real_ltb, real_eqb.
  destruct (Rlt_dec y x), (Rlt_dec x y), (Req_dec_T x y), (Req_dec_T y x);
    simpl; try lra; try discriminate; trivial.
  apply IH.
Qed.

Lemma coords_gt_trans a :
  forall b c, coords_gt a b = true -> coords_gt b c = true ->
              coords_gt a c = true.
Proof.
  induction a as [|x a IH]; intros [|y b] [|z c]; simpl;
    try discriminate; trivial.
  unfold real_ltb, real_eqb.
  destruct (Rlt_dec y x), (Rlt_dec z y), (Rlt_dec z x),
           (Req_dec_T x y), (Req_dec_T y z), (Req_dec_T x z);
    simpl; try lra; try discriminate; trivial.
  apply IH.
Qed.

(** Three spins of the unit interval, at 1, 0 and 1/2, are sorted. *)
Lemma QuickSort_sorts_the_segment_witness :
  exists seg',
    QuickSort 2 0 2
      (with_spinArray [site 1; site 0; site (1/2)] (lattice4 "HYBRID"))
    = Returned tt (with_spinArray seg' (lattice4 "HYBRID")) /\
    Permutation [site 1; site 0; site (1/2)] seg' /\
    StronglySorted (fun a b => spin_gt a b = false) seg'.
Proof.
  destruct (QuickSort_sorts_the_segment (EX := UnitInterval)
              2 [] [site 1; site 0; site (1/2)] []
              (with_spinArray [site 1; site 0; site (1/2)] (lattice4 "HYBRID")))
    as (seg' & Hrun & Hperm & Hsorted).
  - reflexivity.
  - unfold len. simpl. lia.
  - exists seg'. rewrite app_nil_r in Hrun. split; [exact Hrun|].
    split; [exact Hperm|]. apply Hsorted.
    + intros a b. apply coords_gt_asym.
    + intros a b c. apply coords_gt_trans.
Defined.

(* ------------------------------------------------------------------ *)
(** ** Counting with nextPermutation *)

Lemma repeat_snoc {A} (x : A) n : repeat x n ++ [x] = repeat x (S n).
Proof. induction n as [|n IH]; simpl; [reflexivity | now rewrite IH]. Qed.

Lemma nth_middle_default {A} (l1 l2 : list A) x d :
  nth (List.length l1) (l1 ++ x :: l2) d = x.
Proof. induction l1 as [|y l1 IH]; simpl; [reflexivity | exact IH]. Qed.

Lemma digitsValue_full max v :
  Forall (fun d => d = max - 1) v ->
  digitsValue max v = max ^ len v - 1.
Proof.
  induction 1 as [|d v Hd Hv IH]; [reflexivity|].
  rewrite len_cons.
  change (digitsValue max (d :: v)) with (d + max * digitsValue max v).
  rewrite IH, Hd.
  replace (1 + len v) with (Z.succ (len v)) by lia.
  rewrite Z.pow_succ_r by apply len_nonneg. ring.
Qed.

Lemma nth_update_first {A} (v : list A) a d :
  v <> [] -> nth 0 (update v 0 a) d = a.
Proof. destruct v; [congruence | reflexivity]. Qed.

(** The loop of nextPermutation at the index behind [pre]: the digits of
    [pre] have been reset, [rest] are the digits still to be read. *)
Lemma nextPermutation_loop_spec max (rest : list Z) :
  forall pre,
    rest <> [] ->
    let res := nextPermutation_loop (List.length rest) (List.length pre)
                                    (pre ++ rest) max in
    (Forall (fun d => d = max - 1) rest ->
       nth 0 res 0 = -1 /\ List.length res = List.length (pre ++ rest)) /\
    (~ Forall (fun d => d = max - 1) rest ->
       exists rest',
         res = pre ++ rest' /\
         List.length rest' = List.length rest /\
         (Forall (fun d => 0 <= d < max) rest ->
          Forall (fun d => 0 <= d < max) rest') /\
         digitsValue max rest' = digitsValue max rest + 1).
Proof.
  induction rest as [|x rest IH]; intros pre Hne; [congruence|].
  intros res. unfold res. cbn [List.length nextPermutation_loop].
  rewrite nth_middle_default, length_app. cbn [List.length].
  destruct rest as [|y rest].
  - (* the last digit *)
    cbn [List.length].
    replace (List.length pre + 1 - 1)%nat with (List.length pre) by lia.
    rewrite Nat.eqb_refl.
    destruct (Z.eqb_spec x (max - 1)) as [Hx | Hx].
    + split.
      * intros _. split; [|rewrite length_update, length_app; reflexivity].
        apply nth_update_first. now destruct pre.
      * intros Hnot. elim Hnot. now constructor.
    + split.
      * intros Hall. inversion Hall. contradiction.
      * intros _. exists [x + 1]. rewrite update_middle. repeat split.
        -- intros Hr. inversion Hr as [|? ? Hx0 _].
           constructor; [lia | constructor].
        -- simpl. lia.
  - cbn [List.length].
    replace (Nat.eqb (List.length pre)
                     (List.length pre + S (S (List.length rest)) - 1))
      with false by (symmetry; apply Nat.eqb_neq; lia).
    destruct (Z.eqb_spec x (max - 1)) as [Hx | Hx].
    + rewrite update_middle.
      specialize (IH (pre ++ [0]) ltac:(discriminate)). cbv zeta in IH.
      rewrite length_app in IH. cbn [List.length] in IH.
      replace (List.length pre + 1)%nat with (S (List.length pre)) in IH by lia.
      rewrite <- app_assoc in IH. simpl app in IH.
      destruct IH as [IHfull IHnot]. split.
      * intros Hall. inversion Hall as [|? ? _ Hall']. subst.
        destruct (IHfull Hall') as [Hfirst Hlen]. split; [exact Hfirst|].
        rewrite Hlen, !length_app. reflexivity.
      * intros Hnot.
        destruct IHnot as (rest' & Hres & Hlen & Hrange & Hval).
        { intros Hall'. apply Hnot. now constructor. }
        exists (0 :: rest'). rewrite Hres. repeat split.
        -- rewrite <- app_assoc. reflexivity.
        -- simpl. now rewrite Hlen.
        -- intros Hr. inversion Hr as [|? ? Hx0 Hr']. subst.
           constructor; [lia | now apply Hrange].
        -- change (digitsValue max (0 :: rest'))
             with (0 + max * digitsValue max rest').
           change (digitsValue max (x :: y :: rest))
             with (x + max * digitsValue max (y :: rest)).
           rewrite Hval, Hx. ring.
    + split.
      * intros Hall. inversion Hall. contradiction.
      * intros _. exists (x + 1 :: y :: rest).
        rewrite update_middle. repeat split.
        -- intros Hr. inversion Hr as [|? ? Hx0 Hr']. subst.
           constructor; [lia | exact Hr'].
        -- change (digitsValue max (x + 1 :: y :: rest))
             with (x + 1 + max * digitsValue max (y :: rest)).
           change (digitsValue max (x :: y :: rest))
             with (x + max * digitsValue max (y :: rest)).
           ring.
Qed.

(** What nextPermutation returns. *)
Lemma nextPermutation_spec :
  forall (max : Z) (tvN : list Z),
    nextPermutation [] max = [] /\
    (tvN <> [] ->
     (Forall (fun d => d = max - 1) tvN ->
        nth 0 (nextPermutation tvN max) 0 = -1 /\
        List.length (nextPermutation tvN max) = List.length tvN /\
        digitsValue max tvN = max ^ len tvN - 1) /\
     (~ Forall (fun d => d = max - 1) tvN ->
        List.length (nextPermutation tvN max) = List.length tvN /\
        digitsValue max (nextPermutation tvN max) = digitsValue max tvN + 1 /\
        (Forall (fun d => 0 <= d < max) tvN ->
         Forall (fun d => 0 <= d < max) (nextPermutation tvN max)))).
Proof.
  intros max tvN. split; [reflexivity|]. intros Hne.
  destruct (nextPermutation_loop_spec max tvN [] Hne) as [Hfull Hnot].
  simpl in Hfull, Hnot. split.
  - intros Hall. destruct (Hfull Hall) as [Hfirst Hlen].
    repeat split; trivial. now apply digitsValue_full.
  - intros Hsome. destruct (Hnot Hsome) as (rest' & Hres & Hlen & Hrange & Hval).
    unfold nextPermutation. rewrite Hres. now repeat split.
Qed.

(** X12: nextPermutation(tvN, max) counts in base [max], lowest digit first.
    On a non-empty vector of digits: when some digit is not [max - 1] the
    result has the same length and writes the number that follows, and
    its digits are below [max] if they were; when every digit is
    [max - 1], which then write max^size - 1, the first entry of the
    result is -1, the end mark of the loops of addSpins.  An empty vector
    is returned as it is. *)
Theorem nextPermutation_counts_in_base_max :
  forall (max : Z) (tvN : list Z),
    nextPermutation [] max = [] /\
    (tvN <> [] ->
     (Forall (fun d => d = max - 1) tvN ->
        nth 0 (nextPermutation tvN max) 0 = -1 /\
        List.length (nextPermutation tvN max) = List.length tvN /\
        digitsValue max tvN = max ^ len tvN - 1) /\
     (~ Forall (fun d => d = max - 1) tvN ->
        List.length (nextPermutation tvN max) = List.length tvN /\
        digitsValue max (nextPermutation tvN max) = digitsValue max tvN + 1 /\
        (Forall (fun d => 0 <= d < max) tvN ->
         Forall (fun d => 0 <= d < max) (nextPermutation tvN max)))).
Proof. exact nextPermutation_spec. Qed.

(* ------------------------------------------------------------------ *)
(** ** setup() builds the lattice *)

Lemma digitsValue_bound max v :
  1 <= max ->
  Forall (fun d => 0 <= d < max) v ->
  0 <= digitsValue max v <= max ^ len v - 1.
Proof.
  intros Hmax. induction 1 as [|d v Hd Hv IH].
  - change (len (@nil Z)) with 0. simpl. lia.
  - rewrite len_cons.
    change (digitsValue max (d :: v)) with (d + max * digitsValue max v).
    replace (1 + len v) with (Z.succ (len v)) by lia.
    rewrite Z.pow_succ_r by apply len_nonneg. nia.
Qed.

Lemma digitsValue_zeros max n : digitsValue max (repeat 0 n) = 0.
Proof. induction n as [|n IH]; simpl; [reflexivity | rewrite IH; lia]. Qed.

Lemma Forall_repeat {A} (P : A -> Prop) x n : P x -> Forall P (repeat x n).
Proof. intros Hx. induction n; simpl; constructor; auto. Qed.

Lemma len_repeat {A} (x : A) n : len (repeat x n) = Z.of_nat n.
Proof. unfold len. now rewrite repeat_length. Qed.

Section TotalLoops.
Context {St : Type}.

(** A loop whose locals keep the property [I]. *)
Lemma total_foldM_acc {A B} (J : St -> Prop) (I : A -> Prop)
      (body : A -> B -> M St A) l :
  (forall acc x, In x l -> I acc ->
                 total J (body acc x) (fun acc' s => J s /\ I acc')) ->
  forall acc, I acc -> total J (foldM body l acc) (fun acc' s => J s /\ I acc').
Proof.
  induction l as [|x l IH]; intros Hb acc Hacc; simpl.
  - apply total_ret. auto.
  - intros s Hs. destruct (Hb acc x (or_introl eq_refl) Hacc s Hs)
      as (acc1 & s1 & Hrun & Hs1 & Hacc1).
    destruct (IH (fun a y Hy => Hb a y (or_intror Hy)) acc1 Hacc1 s1 Hs1)
      as (acc2 & s2 & Hrun2 & Hpost).
    exists acc2, s2. unfold bind. rewrite Hrun. now split.
Qed.

End TotalLoops.

Section CountingLoop.
Context {double : Type} {FO : FloatOps double} {EX : Externals double}.
#[local] Abbreviation model := (IsingModel double).

(** The loop over the digit vectors: from the digits [v] it runs its body
    once for [v] and once for each vector that follows, max^size - value
    times in all. *)
Lemma total_permutationLoop (J : Z -> model -> Prop) max body (L : nat) :
  1 <= max ->
  (forall k v, List.length v = L -> Forall (fun d => 0 <= d < max) v ->
               total (J k) (body v) (fun _ => J (k + 1))) ->
  forall fuel v k,
    List.length v = L -> v <> [] -> Forall (fun d => 0 <= d < max) v ->
    max ^ Z.of_nat L - digitsValue max v <= Z.of_nat fuel ->
    total (J k) (permutationLoop fuel v max body)
          (fun _ => J (k + max ^ Z.of_nat L - digitsValue max v)).
Proof.
  intros Hmax Hbody.
  induction fuel as [|fuel IH]; intros v k Hlen Hne Hrange Hfuel.
  - pose proof (digitsValue_bound max v Hmax Hrange) as Hb.
    unfold len in Hb. rewrite Hlen in Hb. lia.
  - intros s Hs. cbn [permutationLoop]. unfold bind at 1.
    destruct v as [|v0 v']; [congruence|].
    unfold at_ at 1. cbn [Z.ltb Z.compare Z.to_nat nth_error]. unfold ret at 1.
    assert (Hv0 : 0 <= v0 < max) by (inversion Hrange; assumption).
    destruct (Z.eqb_spec v0 (-1)) as [Heq | _]; [lia|].
    destruct (Hbody k (v0 :: v') Hlen Hrange s Hs) as ([] & s1 & Hrun & Hs1).
    unfold bind at 1. rewrite Hrun.
    destruct (nextPermutation_spec max (v0 :: v'))
      as [_ Hnext]. destruct (Hnext Hne) as [Hfull Hsome]. clear Hnext.
    destruct (Forall_dec (fun d => d = max - 1) (fun d => Z.eq_dec d (max - 1))
                         (v0 :: v')) as [Hall | Hnot].
    + (* the last vector *)
      destruct (Hfull Hall) as (Hfirst & Hlen' & Hval).
      destruct (nextPermutation (v0 :: v') max) as [|w0 w'] eqn:Hw;
        [discriminate|].
      simpl in Hfirst. subst w0.
      exists tt, s1. split.
      * destruct fuel; cbn [permutationLoop]; unfold bind, at_; simpl;
          reflexivity.
      * unfold len in Hval. rewrite Hlen in Hval. rewrite Hval.
        replace (k + max ^ Z.of_nat L - (max ^ Z.of_nat L - 1)) with (k + 1)
          by lia.
        exact Hs1.
    + destruct (Hsome Hnot) as (Hlen' & Hval & Hrange').
      assert (Hne' : nextPermutation (v0 :: v') max <> []).
      { intros Hnil. rewrite Hnil in Hlen'. discriminate. }
      destruct (IH (nextPermutation (v0 :: v') max) (k + 1)
                   ltac:(congruence) Hne' (Hrange' Hrange) ltac:(lia) s1 Hs1)
        as (a & s2 & Hrun2 & Hs2).
      exists a, s2. split; [exact Hrun2|].
      rewrite Hval in Hs2.
      replace (k + max ^ Z.of_nat L - digitsValue max (v0 :: v'))
        with (k + 1 + max ^ Z.of_nat L - (digitsValue max (v0 :: v') + 1))
        by lia.
      exact Hs2.
Qed.

End CountingLoop.

Section Building.
Context {double : Type} {FO : FloatOps double} {EX : Externals double}.
#[local] Abbreviation model := (IsingModel double).

Lemma total_at_eq {A} (s : model) (v : list A) i :
  0 <= i < len v -> total (eq s) (at_ v i) (fun _ => eq s).
Proof.
  intros Hi s' <-. destruct (at_value s v i Hi) as (a & Ha & _).
  now exists a, s.
Qed.

Lemma total_set_at_eq {A} (s : model) (v : list A) i x :
  0 <= i < len v ->
  total (eq s) (set_at v i x)
        (fun v' s' => s = s' /\ List.length v' = List.length v).
Proof.
  intros Hi s' <-. unfold set_at.
  destruct (Z.ltb_spec i 0); [lia|]. destruct (Z.leb_spec (len v) i); [lia|].
  simpl. eexists _, s. split; [reflexivity|]. split; [reflexivity|].
  apply length_update.
Qed.

Lemma cornerPosition_returns depth x0 delta vN (s : model) :
  List.length x0 = List.length (latticeDimensions s) ->
  len vN = len (latticeDimensions s) * depth ->
  exists cPos,
    cornerPosition depth x0 delta vN s = Returned cPos s /\
    List.length cPos = List.length (latticeDimensions s).
Proof.
  intros Hx0 HvN. unfold cornerPosition. rewrite run_gets.
  set (D := List.length (latticeDimensions s)).
  destruct (total_foldM_acc (eq s) (fun cPos => List.length cPos = D)
              (fun cPos iDim =>
                 c <- at_ cPos iDim ;;
                 x <- at_ x0 iDim ;;
                 cPos <- set_at cPos iDim (c + x)%D ;;
                 foldM (fun cPos iDepth =>
                   depthVal <- at_ vN (iDim * depth + iDepth) ;;
                   scale <- gets hausdorffScale ;;
                   slices <- gets hausdorffSlices ;;
                   let depthScale :=
                     (dpow scale (of_int (depth - iDepth)) * delta)%D in
                   c <- at_ cPos iDim ;;
                   set_at cPos iDim
                     (c + (of_int 1 + (of_int 1 / scale - slices)
                                      / (slices - of_int 1))
                          * depthScale * of_int depthVal)%D)
                 (range 0 depth) cPos)
              (range 0 (len (latticeDimensions s))))
    with (acc := repeat (of_int 0) D) (s := s)
    as (cPos & s' & Hrun & <- & Hlen).
  - intros cPos iDim HiDim HcPos. apply In_range in HiDim.
    assert (HiD : 0 <= iDim < Z.of_nat D) by (unfold len in HiDim; lia).
    eapply total_bind; [apply total_at_eq; unfold len; lia | intros c].
    eapply total_bind; [apply total_at_eq; unfold len; lia | intros x].
    eapply total_bind; [apply total_set_at_eq; unfold len; lia | intros cPos1].
    intros s1 [<- Hlen1].
    apply (total_foldM_acc (eq s) (fun cPos => List.length cPos = D));
      [|congruence | reflexivity].
    intros cPos2 iDepth HiDepth HcPos2. apply In_range in HiDepth.
    eapply total_bind.
    { apply total_at_eq. rewrite HvN. unfold len. nia. }
    intros depthVal.
    eapply total_bind; [apply total_gets_keep | intros scale].
    eapply total_bind; [apply total_gets_keep | intros slices].
    eapply total_bind; [apply total_at_eq; unfold len; lia | intros c'].
    eapply total_weaken;
      [apply (total_set_at_eq s); unfold len; lia | auto |].
    intros v' s2 [<- Hv']. split; [reflexivity | congruence].
  - apply repeat_length.
  - reflexivity.
  - exists cPos. split; [exact Hrun | exact Hlen].
Qed.

Lemma grown_fields (m0 : model) k s :
  grown m0 k s ->
  latticeDimensions s = latticeDimensions m0 /\
  hausdorffScale s = hausdorffScale m0 /\
  hausdorffSlices s = hausdorffSlices m0 /\
  nSpins s = nSpins m0 + k.
Proof. intros (added & _ & _ & ->). now destruct m0. Qed.

Lemma addCorner_grows (m0 : model) depth delta cPos cubePoints k :
  List.length cPos = List.length (latticeDimensions m0) ->
  List.length cubePoints = List.length (latticeDimensions m0) ->
  total (grown m0 k) (addCorner depth delta cPos cubePoints)
        (fun _ => grown m0 (k + 1)).
Proof.
  intros HcPos Hcube s Hs.
  destruct (grown_fields m0 k s Hs) as (Hdims & _ & _ & Hn).
  unfold addCorner. rewrite run_gets, Hdims.
  set (D := List.length (latticeDimensions m0)) in *.
  destruct (total_foldM_acc (eq s) (fun tcoords => List.length tcoords = D)
              (fun tcoords index =>
                 cp <- at_ cubePoints index ;;
                 scale <- gets hausdorffScale ;;
                 c <- at_ cPos index ;;
                 set_at tcoords index
                   (of_int cp * dpow scale (of_int depth) * delta + c)%D)
              (range 0 (len cubePoints)))
    with (acc := repeat (of_int 0) D) (s := s)
    as (tcoords & s' & Hrun & <- & Hlen).
  - intros tcoords index Hindex Htc. apply In_range in Hindex.
    unfold len in Hindex.
    eapply total_bind; [apply total_at_eq; unfold len; lia | intros cp].
    eapply total_bind; [apply total_gets_keep | intros scale].
    eapply total_bind; [apply total_at_eq; unfold len; lia | intros c].
    eapply total_weaken;
      [apply (total_set_at_eq s); unfold len; lia | auto |].
    intros v' s2 [<- Hv']. split; [reflexivity | congruence].
  - apply repeat_length.
  - reflexivity.
  - unfold bind at 1. rewrite Hrun.
    rewrite !run_gets. unfold bind, modify, gets.
    exists tt. eexists. split; [reflexivity|].
    destruct Hs as (added & Hlen_added & Hall & Hs).
    exists (added ++ [mkSpin 1 true tcoords]). split; [|split].
    + rewrite len_app, len_cons. change (len (@nil (spin double))) with 0. lia.
    + apply Forall_app. split; [exact Hall|]. constructor; [|constructor].
      unfold newSpin. simpl. repeat split. unfold len. now rewrite Hlen.
    + rewrite Hs. destruct m0; simpl. rewrite <- app_assoc.
      f_equal. lia.
Qed.

Lemma total_hypercube (m0 : model) depth delta cPos fuel k :
  List.length cPos = List.length (latticeDimensions m0) ->
  latticeDimensions m0 <> [] ->
  2 ^ len (latticeDimensions m0) <= Z.of_nat fuel ->
  total (grown m0 k)
        (permutationLoop fuel (repeat 0 (List.length (latticeDimensions m0))) 2
                         (addCorner depth delta cPos))
        (fun _ => grown m0 (k + 2 ^ len (latticeDimensions m0))).
Proof.
  intros HcPos Hne Hfuel.
  set (D := List.length (latticeDimensions m0)).
  pose proof (total_permutationLoop (grown m0) 2 (addCorner depth delta cPos) D
                ltac:(lia)) as Hloop.
  eapply total_weaken; [apply (Hloop) with (v := repeat 0 D) (k := k) | auto |].
  - intros j v Hv _. apply addCorner_grows; [exact HcPos | exact Hv].
  - apply repeat_length.
  - unfold D. destruct (latticeDimensions m0); [congruence | discriminate].
  - apply Forall_repeat. lia.
  - rewrite digitsValue_zeros. unfold len in Hfuel. fold D in Hfuel. lia.
  - intros ? s Hs. rewrite digitsValue_zeros in Hs. unfold len. fold D.
    now replace (k + 2 ^ Z.of_nat D - 0) with (k + 2 ^ Z.of_nat D) in Hs by lia.
Qed.

Lemma grown_start (m0 : model) : grown m0 0 m0.
Proof.
  exists []. split; [reflexivity|]. split; [constructor|].
  destruct m0; simpl. now rewrite app_nil_r, Z.add_0_r.
Qed.

(** addSpins on a lattice of D >= 1 dimensions, at a depth of at least 1
    and with at least one slice: it returns, with 2^D spins for each of
    the slices^(D*depth) hypercubes pushed behind the spins there were,
    and the whole array sorted by QuickSort. *)
Lemma addSpins_total (m0 : model) fuel depth x0 x1 :
  nSpins m0 = len (spinArray m0) ->
  latticeDimensions m0 <> [] ->
  1 <= depth ->
  1 <= to_int (hausdorffSlices m0) ->
  List.length x0 = List.length (latticeDimensions m0) ->
  x1 <> [] ->
  2 ^ len (latticeDimensions m0) <= Z.of_nat fuel ->
  to_int (hausdorffSlices m0) ^ (len (latticeDimensions m0) * depth)
    <= Z.of_nat fuel ->
  returnsWith (addSpins fuel depth x0 x1 m0)
    (fun _ m' =>
       exists added arr',
         m' = with_spinArray arr'
                (with_nSpins
                   (nSpins m0
                    + to_int (hausdorffSlices m0)
                        ^ (len (latticeDimensions m0) * depth)
                      * 2 ^ len (latticeDimensions m0)) m0) /\
         Permutation (spinArray m0 ++ added) arr' /\
         len added = to_int (hausdorffSlices m0)
                       ^ (len (latticeDimensions m0) * depth)
                     * 2 ^ len (latticeDimensions m0) /\
         Forall (newSpin (len (latticeDimensions m0))) added /\
         ((forall a b, spin_gt a b = true -> spin_gt b a = false) ->
          (forall a b c, spin_gt a b = true -> spin_gt b c = true ->
                         spin_gt a c = true) ->
          StronglySorted (fun a b => spin_gt a b = false) arr')).
Proof.
  intros Hcount Hdims Hdepth Hslices Hx0 Hx1 Hfuel2 Hfuels.
  set (D := len (latticeDimensions m0)) in *.
  set (sl := to_int (hausdorffSlices m0)) in *.
  assert (HD : 1 <= D).
  { unfold D, len. destruct (latticeDimensions m0); [congruence|].
    simpl List.length. lia. }
  unfold addSpins.
  destruct x1 as [|b1 x1]; [congruence|].
  destruct x0 as [|a0 x0].
  { simpl in Hx0. unfold D, len in HD. rewrite <- Hx0 in HD. simpl in HD. lia. }
  unfold bind at 1. unfold at_ at 1. cbn [Z.ltb Z.compare Z.to_nat nth_error].
  unfold ret at 1. unfold bind at 1. unfold at_ at 1.
  cbn [Z.ltb Z.compare Z.to_nat nth_error]. unfold ret at 1.
  rewrite run_gets. fold D.
  destruct (Z.ltb_spec (D * depth) 0) as [Hneg | _]; [nia|].
  unfold bind at 1. unfold ret at 1. rewrite run_gets. fold sl.
  unfold bind at 1.
  set (delta := dabs (b1 - a0)%D).
  set (L := Z.to_nat (D * depth)).
  (* the loop over the hypercubes *)
  pose proof (total_permutationLoop
                (fun j => grown m0 (j * 2 ^ D)) sl
                (fun vN =>
                   cPos <- cornerPosition depth (a0 :: x0) delta vN ;;
                   permutationLoop fuel
                     (repeat 0 (List.length (latticeDimensions m0))) 2
                     (addCorner depth delta cPos))
                L Hslices) as Hloop.
  destruct (Hloop) with (fuel := fuel) (v := repeat 0 L) (k := 0) (s := m0)
    as ([] & s1 & Hrun & Hs1).
  - intros j vN HvN _ s Hs.
    destruct (grown_fields m0 _ s Hs) as (Hd & _ & _ & _).
    destruct (cornerPosition_returns depth (a0 :: x0) delta vN s)
      as (cPos & HcPos & HlencPos).
    { now rewrite Hd. }
    { rewrite Hd. fold D. unfold len. rewrite HvN. unfold L. lia. }
    unfold bind. rewrite HcPos.
    destruct (total_hypercube m0 depth delta cPos fuel (j * 2 ^ D)) with (s := s)
      as (a & s2 & Hrun2 & Hs2); trivial.
    { now rewrite <- Hd. }
    exists a, s2. split; [exact Hrun2|].
    fold D in Hs2. now replace ((j + 1) * 2 ^ D) with (j * 2 ^ D + 2 ^ D) by lia.
  - apply repeat_length.
  - unfold L. destruct (Z.to_nat (D * depth)) eqn:HL; [lia | discriminate].
  - apply Forall_repeat. lia.
  - rewrite digitsValue_zeros. unfold L. rewrite Z2Nat.id by nia. lia.
  - simpl. apply grown_start.
  - rewrite Hrun. rewrite digitsValue_zeros in Hs1.
    unfold L in Hs1. rewrite Z2Nat.id in Hs1 by nia.
    replace ((0 + sl ^ (D * depth) - 0) * 2 ^ D)
      with (sl ^ (D * depth) * 2 ^ D) in Hs1 by lia.
    set (N := sl ^ (D * depth) * 2 ^ D) in *.
    destruct Hs1 as (added & Hlen & Hall & Hs1).
    rewrite run_gets.
    assert (Hn : nSpins s1 = nSpins m0 + N) by (rewrite Hs1; now destruct m0).
    assert (Harr : spinArray s1 = [] ++ (spinArray m0 ++ added) ++ [])
      by (rewrite Hs1, app_nil_r; now destruct m0).
    pose proof (len_nonneg added) as Hadded.
    pose proof (QuickSort_spec (Z.to_nat (nSpins s1)) [] (spinArray m0 ++ added)
                  [] 0 (nSpins s1 - 1) s1 Harr eq_refl) as Hq.
    destruct (QuickSort (Z.to_nat (nSpins s1)) 0 (nSpins s1 - 1) s1)
      as [[] m' | | | |];
      try (exfalso; apply Hq;
           [ rewrite Hn, len_app, Hcount, Hlen; change (len []) with 0; lia
           | rewrite Hn, len_app, Hcount, Hlen; lia ]).
    destruct Hq as (arr' & Hm' & Hperm & Hsorted).
    { rewrite Hn, len_app, Hcount, Hlen. change (len []) with 0. lia. }
    { rewrite Hn, len_app, Hcount, Hlen. lia. }
    simpl. exists added, arr'. repeat split; trivial.
    rewrite Hm', Hs1, app_nil_r. simpl app. now destruct m0.
Qed.

End Building.

Section SetupOnReals.
Context {EX : Externals R}.

Lemma with_hausdorffScale_same (m : IsingModel R) :
  with_hausdorffScale (hausdorffScale m) m = m.
Proof. now destruct m. Qed.

Lemma pushDimensions_reals (fuel : nat) :
  forall i (m : IsingModel R),
    - Int_part (- hausdorffDim m) - i <= Z.of_nat fuel ->
    pushDimensions fuel i m
    = Returned tt
        (with_latticeDimensions
           (latticeDimensions m
            ++ repeat (real_trunc (2 * real_pow (hausdorffSlices m)
                                                (IZR (latticeDepth m))))
                      (Z.to_nat (- Int_part (- hausdorffDim m) - i))) m).
Proof.
  induction fuel as [|fuel IH]; intros i m Hfuel.
  - simpl. rewrite run_gets.
    change ((of_int i <? dceil (hausdorffDim m))%D)
      with (real_ltb (IZR i) (IZR (- Int_part (- hausdorffDim m)))).
    rewrite real_ltb_false by (apply IZR_le; lia).
    replace (Z.to_nat (- Int_part (- hausdorffDim m) - i)) with O by lia.
    simpl. now rewrite app_nil_r, with_latticeDimensions_same.
  - simpl. rewrite run_gets.
    change ((of_int i <? dceil (hausdorffDim m))%D)
      with (real_ltb (IZR i) (IZR (- Int_part (- hausdorffDim m)))).
    destruct (Z.lt_ge_cases i (- Int_part (- hausdorffDim m))) as [Hlt | Hge].
    + rewrite real_ltb_true by (apply IZR_lt; lia).
      rewrite !run_gets. unfold bind at 1. unfold modify at 1.
      rewrite IH by (destruct m; simpl in *; lia).
      replace (Z.to_nat (- Int_part (- hausdorffDim m) - i))
        with (S (Z.to_nat (- Int_part (- hausdorffDim m) - (i + 1)))) by lia.
      destruct m; simpl. rewrite <- app_assoc. reflexivity.
    + rewrite real_ltb_false by (apply IZR_le; lia).
      replace (Z.to_nat (- Int_part (- hausdorffDim m) - i)) with O by lia.
      simpl. now rewrite app_nil_r, with_latticeDimensions_same.
Qed.

(** What setup() builds. *)
Lemma setup_spec :
  forall (m : IsingModel R),
    let C := - Int_part (- hausdorffDim m) in
    let scale := if String.eqb (hausdorffMethod m) "SCALING"
                 then exp (- IZR C * ln (hausdorffSlices m) / hausdorffDim m)
                 else hausdorffScale m in
    let d := real_trunc (2 * real_pow (hausdorffSlices m)
                                      (IZR (latticeDepth m))) in
    let dims := latticeDimensions m ++ repeat d (Z.to_nat C) in
    let D := len dims in
    let sl := real_trunc (hausdorffSlices m) in
    let N := sl ^ (D * latticeDepth m) * 2 ^ D in
    nSpins m = len (spinArray m) ->
    1 <= C -> 1 <= sl -> 1 <= latticeDepth m ->
    real_ltb (1 / hausdorffSlices m) scale = false ->
    exists fuel0 : nat,
      forall fuel, (fuel0 <= fuel)%nat ->
        exists added arr',
          setup fuel m
          = Returned tt
              (with_hasBeenSetup true
                 (with_spinArray arr'
                    (with_nSpins (nSpins m + N)
                       (with_latticeDimensions dims
                          (with_hausdorffScale scale m))))) /\
          Permutation (spinArray m ++ added) arr' /\
          len added = N /\
          Forall (newSpin D) added /\
          ((forall a b, spin_gt a b = true -> spin_gt b a = false) ->
           (forall a b c, spin_gt a b = true -> spin_gt b c = true ->
                          spin_gt a c = true) ->
           StronglySorted (fun a b => spin_gt a b = false) arr').
Proof.
  intros m C scale d dims D sl N Hcount HC Hsl Hdepth Hcheck.
  exists (Z.to_nat (C + 2 ^ D + sl ^ (D * latticeDepth m))).
  intros fuel Hfuel.
  assert (HD : 1 <= D).
  { unfold D, dims. rewrite len_app, len_repeat.
    pose proof (len_nonneg (latticeDimensions m)). lia. }
  assert (Hpow2 : 0 < 2 ^ D) by (apply Z.pow_pos_nonneg; lia).
  assert (Hpows : 0 < sl ^ (D * latticeDepth m))
    by (apply Z.pow_pos_nonneg; nia).
  assert (Hfuel' : C <= Z.of_nat fuel /\ 2 ^ D <= Z.of_nat fuel /\
                   sl ^ (D * latticeDepth m) <= Z.of_nat fuel).
  { clear - Hfuel HC Hpow2 Hpows.
    generalize dependent (2 ^ D).
    generalize dependent (sl ^ (D * latticeDepth m)).
    generalize dependent C. clear. intros. lia. }
  destruct Hfuel' as (HfuelC & Hfuel2 & Hfuels).
  set (m1 := with_hausdorffScale scale m).
  set (m2 := with_latticeDimensions dims m1).
  assert (Hstart : forall k : unit -> M (IsingModel R) unit,
             bind (when (String.eqb (hausdorffMethod m) "SCALING")
                     (dim <- gets hausdorffDim ;;
                      slices <- gets hausdorffSlices ;;
                      modify (with_hausdorffScale
                                (dexp (- dceil dim * dlog slices / dim))%D)))
                  k m = k tt m1).
  { intros k. unfold m1, scale, when, bind, gets, modify, ret.
    destruct (String.eqb (hausdorffMethod m) "SCALING"); [reflexivity|].
    now rewrite with_hausdorffScale_same. }
  unfold setup. rewrite run_gets, Hstart. rewrite !run_gets.
  assert (Hscale1 : hausdorffScale m1 = scale) by (unfold m1; now destruct m).
  assert (Hslices1 : hausdorffSlices m1 = hausdorffSlices m)
    by (unfold m1; now destruct m).
  rewrite Hscale1, Hslices1.
  change ((of_int 1 / hausdorffSlices m <? scale)%D)
    with (real_ltb (1 / hausdorffSlices m) scale).
  rewrite Hcheck. unfold bind at 1. unfold ret at 1.
  unfold bind at 1.
  rewrite pushDimensions_reals
    by (unfold m1; destruct m; simpl in *; fold C; rewrite Z.sub_0_r; exact HfuelC).
  assert (Hm2 : with_latticeDimensions
                  (latticeDimensions m1
                   ++ repeat (real_trunc (2 * real_pow (hausdorffSlices m1)
                                                       (IZR (latticeDepth m1))))
                             (Z.to_nat (- Int_part (- hausdorffDim m1) - 0))) m1
                = m2).
  { unfold m2, dims, d, C, m1. destruct m; simpl. now rewrite Z.sub_0_r. }
  rewrite Hm2. rewrite !run_gets.
  assert (Hdims2 : latticeDimensions m2 = dims) by (unfold m2, m1; now destruct m).
  assert (Hdepth2 : latticeDepth m2 = latticeDepth m)
    by (unfold m2, m1; now destruct m).
  assert (Hslices2 : hausdorffSlices m2 = hausdorffSlices m)
    by (unfold m2, m1; now destruct m).
  assert (Hn2 : nSpins m2 = nSpins m) by (unfold m2, m1; now destruct m).
  assert (Harr2 : spinArray m2 = spinArray m) by (unfold m2, m1; now destruct m).
  rewrite Hdims2, Hdepth2.
  pose proof (addSpins_total (FO := RealOps) m2 fuel (latticeDepth m)
                (repeat 0%R (List.length dims)) (repeat 1%R (List.length dims)))
    as Hadd.
  rewrite Hdims2, Hslices2, Hn2, Harr2 in Hadd. fold D sl N in Hadd.
  unfold bind at 1.
  change (repeat (of_int 0) (List.length dims))
    with (repeat 0%R (List.length dims)).
  change (repeat (of_int 1) (List.length dims))
    with (repeat 1%R (List.length dims)).
  assert (Hne : dims <> []).
  { intros Hnil. unfold D in HD. rewrite Hnil in HD.
    change (len (@nil Z)) with 0 in HD. lia. }
  destruct (addSpins fuel (latticeDepth m) (repeat 0%R (List.length dims))
                     (repeat 1%R (List.length dims)) m2)
    as [[] m3 | | | |];
    try (exfalso; apply Hadd; trivial;
         [ apply repeat_length
         | destruct dims; [congruence | discriminate] ]).
  destruct Hadd as (added & arr' & Hm3 & Hperm & Hlen & Hall & Hsorted); trivial.
  { apply repeat_length. }
  { destruct dims; [congruence | discriminate]. }
  exists added, arr'. unfold modify. rewrite Hm3.
  repeat split; trivial.
Qed.


End SetupOnReals.


Lemma ceil_above (x : R) : (x <= IZR (- Int_part (- x)))%R.
Proof. destruct (base_Int_part (- x)) as [Hle _]. rewrite opp_IZR. lra. Qed.



(** Under the SCALING method the scale exp(-ceil(dim) ln(slices)/dim) is
    at most 1/slices, for a positive dimension and at least one slice. *)
Lemma scaling_passes_the_check (dim slices : R) :
  (0 < dim)%R -> (1 <= slices)%R ->
  real_ltb (1 / slices)
           (exp (- IZR (- Int_part (- dim)) * ln slices / dim)) = false.
Proof.
  intros Hdim Hslices. apply real_ltb_false.
  assert (Hln : (0 <= ln slices)%R).
  { rewrite <- ln_1. destruct Hslices as [Hlt | <-];
      [left; apply ln_increasing; lra | right; reflexivity]. }
  replace (1 / slices)%R with (exp (- ln slices)).
  2:{ rewrite exp_Ropp, exp_ln by lra. unfold Rdiv. lra. }
  pose proof (ceil_above dim) as Hceil.
  assert (Hexp : (- IZR (- Int_part (- dim)) * ln slices / dim <= - ln slices)%R).
  { unfold Rdiv. apply Rmult_le_reg_r with dim; [exact Hdim|].
    rewrite Rmult_assoc, Rinv_l by lra. nra. }
  destruct Hexp as [Hlt | Heq];
    [left; now apply exp_increasing | right; now rewrite Heq].
Qed.


Section FirstSetup.
Context {EX : Externals R}.



End FirstSetup.



(* ------------------------------------------------------------------ *)
(** ** A Monte Carlo run returns *)

Lemma length_erase {A} (v : list A) k :
  (k < List.length v)%nat -> List.length (erase v k) = pred (List.length v).
Proof.
  revert k. induction v as [|x v IH]; intros k Hk; simpl in *; [lia|].
  destruct k as [|k]; [reflexivity|]. simpl. rewrite IH by lia. lia.
Qed.

Section RunOnReals.
Context {EX : Externals R} {rng : Type} {RG : RandomGen R rng}.

Lemma total_getEffHamiltonian n flips :
  total (shape n) (getEffHamiltonian flips) (fun _ => shape n).
Proof.
  apply total_returnsAt. intros m [Hm _]. now apply getEffHamiltonian_returns.
Qed.

Lemma total_accepted n i tE (spinFlip : bool) :
  0 <= i < n ->
  total (shape n)
        (if spinFlip then flipSpin i ;;; recordFlip tE else ret tt)
        (fun _ => shape n).
Proof.
  intros Hi. destruct spinFlip; [|now apply total_ret].
  eapply total_bind; [now apply total_flipSpin | intros ?].
  apply total_recordFlip.
Qed.

Lemma total_metropolisAccept n tE r :
  total (shape n) (metropolisAccept tE r) (fun _ => shape n).
Proof.
  unfold metropolisAccept.
  eapply total_bind; [apply total_gets_keep | intros cur].
  apply total_if; [now apply total_ret|].
  destruct (Uniform r). now apply total_ret.
Qed.

Lemma total_heatBathAccept n tE r :
  total (shape n) (heatBathAccept tE r) (fun _ => shape n).
Proof.
  unfold heatBathAccept.
  eapply total_bind; [apply total_gets_keep | intros cur].
  cbv zeta. apply total_if; [now apply total_ret|].
  apply total_if; [|now apply total_ret].
  destruct (Uniform r). now apply total_ret.
Qed.

(** A sweep over the spins with the decision [accept]. *)
Lemma total_sweep n (accept : R -> rng -> M (IsingModel R) (bool * rng)) r :
  (forall tE r, total (shape n) (accept tE r) (fun _ => shape n)) ->
  total (shape n)
        (n' <- gets nSpins ;;
         r <- foldM (fun r i =>
                       tE <- getEffHamiltonian1 i ;;
                       '(spinFlip, r) <- accept tE r ;;
                       (if spinFlip : bool
                        then flipSpin i ;;; recordFlip tE
                        else ret tt) ;;;
                       ret r)
                    (range 0 n') r ;;
         cur <- gets currentEffH ;;
         ret (cur, r))
        (fun _ => shape n).
Proof.
  intros Haccept.
  eapply total_bind; [apply total_gets | intros n'].
  eapply (total_bind _ _ _ (fun _ => shape n)).
  2:{ intros r'. eapply total_bind; [apply total_gets_keep | intros cur].
      now apply total_ret. }
  intros m [Hm Hn']. assert (Heq : n' = n) by (destruct Hm; congruence).
  clear Hn'. subst n'.
  revert m Hm. apply total_foldM. intros r0 i Hi. apply In_range in Hi.
  eapply total_bind; [apply total_getEffHamiltonian | intros tE].
  eapply total_bind; [apply Haccept | intros [spinFlip r1]].
  eapply total_bind; [apply total_accepted; lia | intros ?].
  now apply total_ret.
Qed.

Lemma total_metropolisStep n r :
  total (shape n) (metropolisStep r) (fun _ => shape n).
Proof. apply total_sweep. apply total_metropolisAccept. Qed.

Lemma total_heatBathStep n r :
  total (shape n) (heatBathStep r) (fun _ => shape n).
Proof. apply total_sweep. apply total_heatBathAccept. Qed.

Lemma total_adaptGranularity n g a b :
  total (shape n) (adaptGranularity g a b) (fun g' s => shape n s /\ 1 <= g').
Proof.
  unfold adaptGranularity. cbv zeta.
  eapply total_bind; [apply total_gets_keep | intros mag].
  eapply total_bind; [apply total_gets_keep | intros n'].
  set (g1 := if g <? 1 then 1 else g).
  assert (Hg1 : 1 <= g1) by (unfold g1; destruct (Z.ltb_spec g 1); lia).
  repeat apply total_if; apply total_ret; intros s Hs; (split; [exact Hs | lia]).
Qed.

(** The drawing loop: [k] draws from a pool of at least [k] indices. *)
Lemma total_drawing n (Hvalid : validGenerator RG) (l : list Z) :
  forall spinFlips popVector popVectorSize r,
    len popVector = popVectorSize ->
    len l <= popVectorSize ->
    Forall (fun i => 0 <= i < n) spinFlips ->
    Forall (fun i => 0 <= i < n) popVector ->
    total (shape n)
          (foldM drawIndex l (spinFlips, popVector, popVectorSize, r))
          (fun '(spinFlips', popVector', popVectorSize', _) s =>
             shape n s /\
             Forall (fun i => 0 <= i < n) spinFlips' /\
             Forall (fun i => 0 <= i < n) popVector' /\
             len popVector' = popVectorSize' /\
             popVectorSize' = popVectorSize - len l).
Proof.
  induction l as [|j l IH]; intros flips pop size r Hsize Hl Hflips Hpop.
  - simpl. apply total_ret. intros s Hs. change (len (@nil Z)) with 0.
    split; [exact Hs|]. split; [exact Hflips|]. split; [exact Hpop|].
    split; [exact Hsize | lia].
  - rewrite len_cons in Hl. pose proof (len_nonneg l) as Hlnn.
    simpl foldM. intros s Hs. unfold bind at 1. unfold drawIndex at 1.
    pose proof (Hvalid size r ltac:(lia)) as Hidx.
    destruct (Integer size r) as [index r1]. simpl fst in Hidx.
    unfold bind at 1.
    destruct (at_value s pop index ltac:(lia)) as (x & Hx & Hin).
    rewrite Hx. unfold ret at 1.
    rewrite Forall_forall in Hpop. pose proof (Hpop x Hin) as Hxn.
    destruct (IH (flips ++ [x]) (erase pop (Z.to_nat index)) (size - 1) r1)
      with (s := s) as ([[[flips' pop'] size'] r'] & s' & Hrun & Hpost); trivial.
    + unfold len in *. rewrite length_erase by lia. lia.
    + lia.
    + apply Forall_app. split; [exact Hflips | now constructor].
    + apply Forall_forall. intros y Hy. apply Hpop.
      now apply (erase_incl pop (Z.to_nat index)).
    + eexists _, s'. split; [exact Hrun|].
      destruct Hpost as (Hs' & Hf' & Hp' & Hlen' & Hsz').
      split; [exact Hs'|]. split; [exact Hf'|]. split; [exact Hp'|].
      split; [exact Hlen' | rewrite len_cons; lia].
Qed.

Lemma total_drawSpinFlips n (Hvalid : validGenerator RG) g pop size r :
  1 <= g -> 0 < size ->
  len pop = size ->
  Forall (fun i => 0 <= i < n) pop ->
  total (shape n) (drawSpinFlips g pop size r)
        (fun '(spinFlips', pop', size', _) s =>
           shape n s /\
           Forall (fun i => 0 <= i < n) spinFlips' /\
           Forall (fun i => 0 <= i < n) pop' /\
           len pop' = size' /\ 0 <= size' < size).
Proof.
  intros Hg Hsize Hlen Hpop. unfold drawSpinFlips. cbv zeta.
  destruct (Z.ltb_spec (len pop) g) as [Hshort | Hlong].
  - apply total_ret. intros s Hs.
    split; [exact Hs|]. split; [exact Hpop|]. split; [constructor|].
    split; [reflexivity | lia].
  - eapply total_weaken;
      [apply (total_drawing n Hvalid (range 0 g) (repeat 0 (Z.to_nat g))
                pop size r) | auto |]; trivial.
    + unfold len. rewrite length_range. lia.
    + apply Forall_repeat.
      destruct pop as [|p0 pop]; [change (len (@nil Z)) with 0 in Hlen; lia|].
      inversion Hpop. lia.
    + intros [[[flips' pop'] size'] r'] s (Hs & Hf & Hp & Hl & Hsz).
      split; [exact Hs|]. split; [exact Hf|]. split; [exact Hp|].
      split; [exact Hl|]. unfold len in Hsz. rewrite length_range in Hsz. lia.
Qed.

Lemma total_hybridThreads n (Hvalid : validGenerator RG) g (fuel : nat) :
  1 <= g ->
  forall pop size r groups,
    size <= Z.of_nat fuel ->
    len pop = size ->
    Forall (fun i => 0 <= i < n) pop ->
    total (shape n) (hybridThreads fuel g pop size r groups)
          (fun _ => shape n).
Proof.
  intros Hg. induction fuel as [|fuel IH]; intros pop size r groups Hfuel Hlen Hpop.
  - simpl. destruct (Z.ltb_spec 0 size); [lia | now apply total_ret].
  - simpl. destruct (Z.ltb_spec 0 size) as [Hpos | _]; [|now apply total_ret].
    eapply total_bind;
      [apply (total_drawSpinFlips n Hvalid g pop size r); trivial|].
    intros [[[flips' pop'] size'] r'] s (Hs & Hf & Hp & Hl & Hsz).
    destruct (Uniform r') as [u r2].
    destruct (total_hybridStep n u flips' Hf s Hs) as ([] & s1 & Hrun & Hs1).
    destruct (IH pop' size' r2 (groups ++ [flips']) ltac:(lia) Hl Hp s1 Hs1)
      as (a & s2 & Hrun2 & Hs2).
    exists a, s2. unfold bind. rewrite Hrun. now split.
Qed.

Lemma total_mcStep n (Hvalid : validGenerator RG) avg g r :
  total (shape n) (mcStep avg g r) (fun _ => shape n).
Proof.
  unfold mcStep.
  eapply total_bind; [apply total_gets_keep | intros info]. cbv zeta.
  eapply (total_bind _ _ _ (fun _ => shape n)).
  { apply total_modify. intros m Hm. now destruct m. }
  intros ?.
  eapply total_bind; [apply total_gets_keep | intros method].
  eapply (total_bind _ _ _ (fun _ => shape n)).
  - repeat apply total_if.
    + eapply total_bind; [apply total_metropolisStep | intros [cur r']].
      now apply total_ret.
    + eapply total_bind; [apply total_heatBathStep | intros [cur r']].
      now apply total_ret.
    + eapply total_bind; [apply total_gets | intros n'].
      intros m [Hm Hn']. assert (Heq : n' = n) by (destruct Hm; congruence).
      clear Hn'. subst n'. revert m Hm.
      assert (Hn : 0 <= n \/ n < 0) by lia. destruct Hn as [Hn | Hn].
      2:{ intros m ((Hlen & _) & Hnm). pose proof (len_nonneg (spinArray m)). lia. }
      destruct (Z.ltb_spec n 0); [lia|].
      eapply (total_bind _ _ _ (fun _ => shape n));
        [now apply total_ret | intros ?]. cbv zeta.
      eapply total_bind; [apply total_adaptGranularity | intros g'].
      intros m [Hm Hg'].
      destruct (total_hybridThreads n Hvalid g' (Z.to_nat n) Hg' (range 0 n) n r [])
        with (s := m) as ([groups r'] & m' & Hrun & Hm'); trivial.
      * lia.
      * unfold len. rewrite length_range. lia.
      * apply Forall_forall. intros i Hi. now apply In_range in Hi.
      * exists (g', r'), m'. unfold bind. rewrite Hrun. now split.
    + now apply total_ret.
  - intros [g' r'].
    eapply (total_bind _ _ _ (fun _ => shape n)); [|intros ?; now apply total_ret].
    apply total_if; [|now apply total_ret].
    eapply total_bind; [apply total_gets_keep | intros hinfo].
    apply total_modify. intros m Hm. now destruct m.
Qed.

(** runMonteCarlo() returns on a consistent, set-up model. *)
Lemma runMonteCarlo_total :
  forall (m : IsingModel R),
    validGenerator RG ->
    consistent m ->
    hasBeenSetup m = true ->
    nThreads m <> 0 ->
    exists m',
      runMonteCarlo (RG := RG) m = Returned tt m' /\
      consistent m' /\ nSpins m' = nSpins m.
Proof.
  intros m Hvalid Hcons Hflag Hthreads.
  assert (Hshape : shape (nSpins m) m) by (split; [exact Hcons | reflexivity]).
  unfold runMonteCarlo. rewrite run_gets, Hflag. cbn [negb].
  unfold bind at 1. unfold ret at 1. unfold bind at 1.
  destruct (getEffHamiltonian_returns m [] Hcons) as [e ->].
  unfold bind at 1. unfold modify at 1.
  set (m1 := with_currentEffH e m).
  assert (Hshape1 : shape (nSpins m) m1) by (unfold m1; now destruct m).
  unfold bind at 1. unfold initialGranularity. rewrite !run_gets.
  replace (nThreads m1) with (nThreads m) by (unfold m1; now destruct m).
  destruct (Z.eqb_spec (nThreads m) 0) as [H0 | _]; [contradiction|].
  unfold ret at 1. rewrite run_gets.
  destruct (total_foldM (shape (nSpins m))
              (fun '(avgAbsDeltaE, nSpinsPerThread, r) _ =>
                 mcStep avgAbsDeltaE nSpinsPerThread r)
              (range 0 (nMCSteps m1)))
    with (acc := (of_int (-1) : R,
                  to_int (dfloor (of_int (Z.quot (nSpins m1) (nThreads m)))),
                  TRandom3_new (RandomGen := RG)))
         (s := m1)
    as (acc & m' & Hrun & [Hcons' Hn']).
  - intros [[avg g] r] x _. now apply total_mcStep.
  - exact Hshape1.
  - exists m'. unfold bind. rewrite Hrun.
    split; [reflexivity|]. split; [exact Hcons' | exact Hn'].
Qed.

(** X15: Over the real numbers, on a consistent model whose "set up" flag is
    set and whose thread count is not 0, runMonteCarlo() returns, for each
    of the three methods (and for any other method name), with any
    generator that keeps the contract of TRandom3::Integer: no index
    leaves an array and nothing is undefined, however the acceptance
    decisions fall.  The model it leaves is consistent and has as many
    spins. *)
Theorem runMonteCarlo_returns :
  forall (m : IsingModel R),
    validGenerator RG ->
    consistent m ->
    hasBeenSetup m = true ->
    nThreads m <> 0 ->
    exists m',
      runMonteCarlo (RG := RG) m = Returned tt m' /\
      consistent m' /\ nSpins m' = nSpins m.
Proof. exact runMonteCarlo_total. Qed.

End RunOnReals.

Lemma validGenerator_FirstIndex : validGenerator FirstIndex.
Proof. intros imax r Himax. simpl. lia. Qed.

(** The four-spin lattice under the Hybrid policy, with a generator that
    always draws the first index of the pool. *)
Lemma runMonteCarlo_returns_witness :
  exists m',
    runMonteCarlo (RG := FirstIndex) (lattice4 "HYBRID") = Returned tt m' /\
    consistent m' /\ nSpins m' = 4.
Proof.
  apply (runMonteCarlo_returns (EX := UnitInterval) (RG := FirstIndex)
           (lattice4 "HYBRID")).
  - exact validGenerator_FirstIndex.
  - apply consistent_lattice4.
  - reflexivity.
  - discriminate.
Defined.

(* ------------------------------------------------------------------ *)
(** ** What a run changes *)

Section RunFrame.
Context {double rng : Type} {FO : FloatOps double} {EX : Externals double}
        {RG : RandomGen double rng}.
#[local] Abbreviation model := (IsingModel double).

Lemma sameLattice_refl (m : model) : sameLattice m m.
Proof. split; [apply Forall2_signFlipped_refl | reflexivity]. Qed.

(** What runMonteCarlo() leaves as it is. *)
Lemma runMonteCarlo_frame :
  forall m : model,
    match runMonteCarlo (RG := RG) m with
    | Returned _ m' | Thrown _ m' =>
        sameLattice m m' /\
        magnetization m' = magnetization m /\
        nSpins m' = nSpins m /\
        latticeDimensions m' = latticeDimensions m /\
        hasBeenSetup m' = hasBeenSetup m
    | _ => True
    end.
Proof.
  intros m.
  pose proof (pres_runMonteCarlo (RG := RG) (sameLattice m)) as Hpres.
  assert (Hrun : triple (sameLattice m) (runMonteCarlo (RG := RG))
                        (fun _ => sameLattice m) (sameLattice m)).
  { apply Hpres.
    - intros s arr' [Hrel Hs] Hflip. split.
      + rewrite spinArray_with_spinArray.
        eapply Forall2_signFlipped_trans; eassumption.
      + rewrite <- Hs. now destruct s.
    - intros s v [Hrel Hs]. split.
      + replace (spinArray (with_mcInfo v s)) with (spinArray s)
          by now destruct s.
        exact Hrel.
      + rewrite <- Hs. now destruct s.
    - intros s v [Hrel Hs]. split.
      + replace (spinArray (with_currentEffH v s)) with (spinArray s)
          by now destruct s.
        exact Hrel.
      + rewrite <- Hs. now destruct s.
    - intros s v [Hrel Hs]. split.
      + replace (spinArray (with_hybridInfo v s)) with (spinArray s)
          by now destruct s.
        exact Hrel.
      + rewrite <- Hs. now destruct s. }
  specialize (Hrun m (sameLattice_refl m)).
  destruct (runMonteCarlo m) as [a m' | e m' | | |]; trivial;
    (split; [exact Hrun|]); destruct Hrun as [_ Hsame];
    unfold untouched in Hsame; injection Hsame; intros; now repeat split.
Qed.

(** X16: runMonteCarlo() changes the values of spins, [currentEffH], [mcInfo]
    and [hybridInfo], and nothing else, whether it returns or an exception
    escapes: each spin value is the one before or its negation, and the
    number of spins, their [active] flags and coordinates, the lattice
    dimensions, every configuration parameter, the "set up" flag and the
    [magnetization] member are as before the call.  In particular the
    run never refreshes [magnetization], which the Hybrid policy reads. *)
Theorem runMonteCarlo_changes_spin_values_only :
  forall m : model,
    match runMonteCarlo (RG := RG) m with
    | Returned _ m' | Thrown _ m' =>
        sameLattice m m' /\
        magnetization m' = magnetization m /\
        nSpins m' = nSpins m /\
        latticeDimensions m' = latticeDimensions m /\
        hasBeenSetup m' = hasBeenSetup m
    | _ => True
    end.
Proof. exact runMonteCarlo_frame. Qed.

End RunFrame.

(** On the four-spin lattice the run returns, with the lattice it found. *)
Lemma runMonteCarlo_changes_spin_values_only_witness :
  exists m',
    runMonteCarlo (RG := FirstIndex) (lattice4 "HYBRID") = Returned tt m' /\
    sameLattice (lattice4 "HYBRID") m' /\
    magnetization m' = 0 /\ nSpins m' = 4 /\ latticeDimensions m' = [4].
Proof.
  destruct (runMonteCarlo_total (EX := UnitInterval) (RG := FirstIndex)
              (lattice4 "HYBRID") validGenerator_FirstIndex
              (consistent_lattice4 "HYBRID") eq_refl ltac:(discriminate))
    as (m' & Hrun & _).
  pose proof (runMonteCarlo_changes_spin_values_only
                (FO := RealOps) (EX := UnitInterval) (RG := FirstIndex)
                (lattice4 "HYBRID")) as Hframe.
  rewrite Hrun in Hframe. destruct Hframe as (Hsame & Hmag & Hn & Hdims & _).
  exists m'. repeat split; trivial. apply Hsame. apply Hsame.
Defined.

Lemma consistent_same_lattice (m m' : IsingModel R) :
  spinArray m' = spinArray m -> nSpins m' = nSpins m ->
  latticeDimensions m' = latticeDimensions m ->
  consistent m -> consistent m'.
Proof.
  intros Harr Hn Hdims Hm. unfold consistent. now rewrite Harr, Hn, Hdims.
Qed.

(** A single-step run on the four-spin lattice leaves [hybridInfo] empty,
    and getConvergenceGr() is then undefined. *)
Lemma runMonteCarlo_appends_to_hybridInfo_witness :
  exists m',
    runMonteCarlo (RG := FirstIndex) (with_nMCSteps 1 (lattice4 "METROPOLIS"))
    = Returned tt m' /\
    hybridInfo m' = [] /\
    getConvergenceGr m' = Undefined.
Proof.
  destruct (runMonteCarlo_total (EX := UnitInterval) (RG := FirstIndex)
              (with_nMCSteps 1 (lattice4 "METROPOLIS")))
    as (m' & Hrun & _).
  - exact validGenerator_FirstIndex.
  - apply (consistent_same_lattice (lattice4 "METROPOLIS"));
      try reflexivity. apply consistent_lattice4.
  - reflexivity.
  - discriminate.
  - pose proof (runMonteCarlo_appends_to_hybridInfo
                  (FO := RealOps) (EX := UnitInterval) (RG := FirstIndex)
                  (real_leb_false 0 (-1) ltac:(lra))
                  (with_nMCSteps 1 (lattice4 "METROPOLIS"))) as Hlog.
    rewrite Hrun in Hlog. destruct Hlog as (added & Hadd & Hlen).
    assert (Hnil : added = []).
    { destruct added; [reflexivity|]. exfalso. rewrite len_cons in Hlen.
      pose proof (len_nonneg added).
      change (nMCSteps (with_nMCSteps 1 (lattice4 "METROPOLIS"))) with 1 in Hlen.
      change (Z.max (1 - 1) 0) with 0 in Hlen. lia. }
    subst added. simpl in Hadd.
    exists m'. split; [exact Hrun|]. split; [exact Hadd|].
    apply (getConvergenceGr_spec m'). exact Hadd.
Defined.

(* ------------------------------------------------------------------ *)
(** ** A run without threads *)

Section NoThread.
Context {double rng : Type} {FO : FloatOps double} {EX : Externals double}
        {RG : RandomGen double rng}.

(** X17: With a thread count of 0, which setNumThreads(0) stores, a set-up
    model cannot run: runMonteCarlo() computes [nSpins/nThreads], a
    division of integers by zero, as soon as getEffHamiltonian() has
    returned; the behaviour is undefined.  It never returns. *)
Theorem runMonteCarlo_divides_by_the_thread_count :
  forall m : IsingModel double,
    hasBeenSetup m = true -> nThreads m = 0 ->
    (forall e, getEffHamiltonian [] m = Returned e m ->
               runMonteCarlo (RG := RG) m = Undefined) /\
    (forall a m', runMonteCarlo (RG := RG) m <> Returned a m').
Proof.
  intros m Hflag Hthreads.
  assert (Hret : forall e, getEffHamiltonian [] m = Returned e m ->
                           runMonteCarlo (RG := RG) m = Undefined).
  { intros e He. unfold runMonteCarlo. rewrite run_gets, Hflag. cbn [negb].
    unfold bind at 1. unfold ret at 1. unfold bind at 1. rewrite He.
    unfold bind at 1. unfold modify at 1. unfold bind at 1.
    unfold initialGranularity. rewrite !run_gets.
    replace (nThreads (with_currentEffH e m)) with 0
      by (rewrite <- Hthreads; now destruct m).
    reflexivity. }
  assert (Hthrow : getEffHamiltonian [] m = Thrown out_of_range m ->
                   runMonteCarlo (RG := RG) m = Thrown out_of_range m).
  { intros Ht. unfold runMonteCarlo. rewrite run_gets, Hflag. cbn [negb].
    unfold bind at 1. unfold ret at 1. unfold bind at 1. now rewrite Ht. }
  split; [exact Hret|].
  intros a m' Hrun.
  destruct (readonly_getEffHamiltonian [] m) as [[e He] | Ht].
  - rewrite (Hret e He) in Hrun. discriminate.
  - rewrite (Hthrow Ht) in Hrun. discriminate.
Qed.

End NoThread.

(** The four-spin lattice with the thread count 0. *)
Lemma runMonteCarlo_divides_by_the_thread_count_witness :
  runMonteCarlo (RG := FirstIndex) (with_nThreads 0 (lattice4 "HYBRID"))
  = Undefined.
Proof.
  destruct (runMonteCarlo_divides_by_the_thread_count
              (FO := RealOps) (EX := UnitInterval) (RG := FirstIndex)
              (with_nThreads 0 (lattice4 "HYBRID")) eq_refl eq_refl)
    as [Hundef _].
  destruct (getEffHamiltonian_returns (EX := UnitInterval)
              (with_nThreads 0 (lattice4 "HYBRID")) [])
    as [e He].
  - apply (consistent_same_lattice (lattice4 "HYBRID")); try reflexivity.
    apply consistent_lattice4.
  - exact (Hundef e He).
Defined.

(* ------------------------------------------------------------------ *)
(** ** Hypothetical and real flips *)

Section Alike.
Context {St : Type} (m m' : St).

Lemma alike_ret {A B} (Rel : A -> B -> Prop) a b :
  Rel a b -> alike Rel m m' (ret a m) (ret b m').
Proof. intros Hab. left. now exists a, b. Qed.

Lemma alike_bind {A B C D} (Rel : A -> B -> Prop) (Rel' : C -> D -> Prop)
      (c : M St A) (c' : M St B) (k : A -> M St C) (k' : B -> M St D) :
  alike Rel m m' (c m) (c' m') ->
  (forall a b, Rel a b -> alike Rel' m m' (k a m) (k' b m')) ->
  alike Rel' m m' (bind c k m) (bind c' k' m').
Proof.
  intros [(a & b & Ha & Hb & Hab) | [Ht Ht']] Hk; unfold bind.
  - rewrite Ha, Hb. now apply Hk.
  - rewrite Ht, Ht'. now right.
Qed.

Lemma alike_foldM {A B X} (Rel : A -> B -> Prop)
      (body : A -> X -> M St A) (body' : B -> X -> M St B) l :
  (forall acc acc' x, In x l -> Rel acc acc' ->
                      alike Rel m m' (body acc x m) (body' acc' x m')) ->
  forall acc acc', Rel acc acc' ->
    alike Rel m m' (foldM body l acc m) (foldM body' l acc' m').
Proof.
  induction l as [|x l IH]; intros Hb acc acc' Hacc; simpl.
  - now apply alike_ret.
  - eapply alike_bind; [apply Hb; [now left | exact Hacc]|].
    intros a b Hab. apply IH; [|exact Hab].
    intros ? ? y Hy. apply Hb. now right.
Qed.

Lemma alike_andM (a b : M St bool) (a' b' : M St bool) :
  alike eq m m' (a m) (a' m') ->
  alike eq m m' (b m) (b' m') ->
  alike eq m m' (andM a b m) (andM a' b' m').
Proof.
  intros Ha Hb. unfold andM. eapply alike_bind; [exact Ha|].
  intros x y <-. destruct x; [exact Hb | now apply alike_ret].
Qed.

Lemma alike_at_same {A} (v : list A) i :
  alike eq m m' (at_ v i m) (at_ v i m').
Proof.
  unfold at_. destruct (i <? 0); [now right|].
  destruct (nth_error v (Z.to_nat i)); [now apply alike_ret | now right].
Qed.

End Alike.

Section FlipsOnReals.
Context {EX : Externals R}.

Lemma alike_at_spins flips flips' (arr arr' : list (spin R))
      (m m' : IsingModel R) i :
  sameSpins flips flips' arr arr' ->
  alike (sameSpin flips flips' i) m m' (at_ arr i m) (at_ arr' i m').
Proof.
  intros [Hlen Hrel]. unfold at_.
  destruct (Z.ltb_spec i 0) as [Hneg | Hpos]; [now right|].
  destruct (nth_error arr (Z.to_nat i)) as [s|] eqn:Hs.
  - destruct (nth_error arr' (Z.to_nat i)) as [s'|] eqn:Hs'.
    + left. exists s, s'. repeat split.
      * apply (Hrel _ _ _ Hs Hs').
      * apply (Hrel _ _ _ Hs Hs').
      * pose proof (Hrel _ _ _ Hs Hs') as (_ & _ & Hval).
        now rewrite Z2Nat.id in Hval by lia.
    + apply nth_error_None in Hs'.
      assert (Z.to_nat i < List.length arr)%nat
        by (apply nth_error_Some; congruence). lia.
  - destruct (nth_error arr' (Z.to_nat i)) as [s'|] eqn:Hs'; [|now right].
    apply nth_error_None in Hs.
    assert (Z.to_nat i < List.length arr')%nat
      by (apply nth_error_Some; congruence). lia.
Qed.

Lemma alike_getDistanceSq (s t s' t' : spin R) (m m' : IsingModel R) :
  coords s' = coords s -> coords t' = coords t ->
  interactionSigma m' = interactionSigma m ->
  alike eq m m' (getDistanceSq s t m) (getDistanceSq s' t' m').
Proof.
  intros Hs Ht Hsig. unfold getDistanceSq. rewrite !run_gets, Hs, Ht, Hsig.
  destruct (interactionSigma m =? of_int 0)%D; [now apply alike_ret|].
  eapply alike_bind.
  - apply (alike_foldM m m' eq); [|reflexivity].
    intros acc acc' x _ <-.
    eapply alike_bind; [apply alike_at_same | intros a ? <-].
    eapply alike_bind; [apply alike_at_same | intros b ? <-].
    now apply alike_ret.
  - intros d ? <-. destruct (d =? of_int 0)%D; now apply alike_ret.
Qed.

Lemma flipSign_IZR flips flips' i (s s' : spin R) :
  flipSign flips i * S_val s = flipSign flips' i * S_val s' ->
  (IZR (S_val s) * IZR (flipSign flips i)
   = IZR (S_val s') * IZR (flipSign flips' i))%R.
Proof.
  intros H. rewrite <- !mult_IZR. f_equal. lia.
Qed.

Lemma alike_neighbourTerm flips flips' (s s' : spin R) i newIndex energy
      (m m' : IsingModel R) :
  sameCouplings m m' ->
  sameSpins flips flips' (spinArray m) (spinArray m') ->
  sameSpin flips flips' i s s' ->
  alike eq m m'
        (neighbourTerm flips s (flipSign flips i) newIndex energy m)
        (neighbourTerm flips' s' (flipSign flips' i) newIndex energy m').
Proof.
  intros (Hn & Hdims & Hsig & Ht & Hh & Hj) Harr (Hact & Hcoords & Hval).
  unfold neighbourTerm. rewrite !run_gets.
  eapply alike_bind; [apply (alike_at_spins flips flips'); exact Harr|].
  intros t t' (Hact' & Hcoords' & Hval'). rewrite Hact'.
  destruct (active t); [|now apply alike_ret]. cbv zeta.
  eapply alike_bind.
  { unfold getK. rewrite !run_gets, Hj, Ht. now apply alike_ret. }
  intros K ? <-.
  eapply alike_bind; [now apply alike_getDistanceSq|].
  intros dsq ? <-. rewrite !run_gets, Hsig. apply alike_ret.
  fold (flipSign flips newIndex). fold (flipSign flips' newIndex).
  pose proof (flipSign_IZR _ _ _ _ _ Hval) as H1.
  pose proof (flipSign_IZR _ _ _ _ _ Hval') as H2.
  simpl.
  replace (K * real_pow dsq (interactionSigma m / 2) * IZR (S_val s)
           * IZR (S_val t) * IZR (flipSign flips i)
           * IZR (flipSign flips newIndex))%R
    with (K * real_pow dsq (interactionSigma m / 2)
          * (IZR (S_val s) * IZR (flipSign flips i))
          * (IZR (S_val t) * IZR (flipSign flips newIndex)))%R by ring.
  rewrite H1, H2. f_equal. f_equal. ring.
Qed.

Lemma alike_boundary (s s' : spin R) (arr arr' : list (spin R))
      flips flips' (m m' : IsingModel R) j idx (x1 x2 : R) (guard : bool) :
  coords s' = coords s ->
  sameSpins flips flips' arr arr' ->
  alike eq m m'
        (andM (ret guard)
              (andM (c <- at_ (coords s) j ;; ret (negb (c =? x1)%D))
                    (t <- at_ arr idx ;;
                     c <- at_ (coords t) j ;; ret (negb (c =? x2)%D))) m)
        (andM (ret guard)
              (andM (c <- at_ (coords s') j ;; ret (negb (c =? x1)%D))
                    (t <- at_ arr' idx ;;
                     c <- at_ (coords t) j ;; ret (negb (c =? x2)%D))) m').
Proof.
  intros Hcoords Harr. rewrite Hcoords.
  apply alike_andM; [now apply alike_ret|].
  apply alike_andM.
  - eapply alike_bind; [apply alike_at_same | intros c ? <-].
    now apply alike_ret.
  - eapply alike_bind; [apply (alike_at_spins flips flips'); exact Harr|].
    intros t t' (_ & Hc & _). rewrite Hc.
    eapply alike_bind; [apply alike_at_same | intros c ? <-].
    now apply alike_ret.
Qed.

(** The energy depends on the spins through their places, their flags and
    their values after the hypothetical flips only. *)
Lemma alike_getEffHamiltonian flips flips' (m m' : IsingModel R) :
  sameCouplings m m' ->
  sameSpins flips flips' (spinArray m) (spinArray m') ->
  alike eq m m' (getEffHamiltonian flips m) (getEffHamiltonian flips' m').
Proof.
  intros Hsame Harr.
  pose proof Hsame as (Hn & Hdims & Hsig & Ht & Hh & Hj).
  unfold getEffHamiltonian. rewrite !run_gets, Hn.
  apply (alike_foldM m m' eq); [|reflexivity].
  intros energy ? i _ <-. rewrite !run_gets.
  eapply alike_bind; [apply (alike_at_spins flips flips'); exact Harr|].
  intros s s' Hs. pose proof Hs as (Hact & Hcoords & Hval). rewrite Hact.
  destruct (negb (active s)); [now apply alike_ret|]. cbv zeta.
  fold (flipSign flips i). fold (flipSign flips' i).
  eapply alike_bind.
  { unfold geth. rewrite !run_gets, Hh, Ht. now apply alike_ret. }
  intros h ? <-. rewrite !run_gets, Hdims.
  apply (alike_foldM m m' eq).
  2:{ pose proof (flipSign_IZR _ _ _ _ _ Hval) as H1. simpl.
      replace (h * IZR (S_val s) * IZR (flipSign flips i))%R
        with (h * (IZR (S_val s) * IZR (flipSign flips i)))%R by ring.
      rewrite H1. ring. }
  intros energy' ? j _ <-.
  eapply alike_bind; [apply alike_at_same | intros dj ? <-].
  eapply alike_bind;
    [apply (alike_boundary s s' _ _ flips flips'); trivial|].
  intros left ? <-.
  eapply alike_bind.
  { destruct left; [now apply alike_neighbourTerm | now apply alike_ret]. }
  intros energy'' ? <-.
  eapply alike_bind;
    [apply (alike_boundary s s' _ _ flips flips'); trivial|].
  intros right ? <-.
  destruct right; [now apply alike_neighbourTerm | now apply alike_ret].
Qed.

End FlipsOnReals.

Lemma nth_error_flipFrom {double} flips (arr : list (spin double)) :
  forall i k,
    nth_error (flipFrom flips i arr) k
    = option_map (fun s => if found flips (i + Z.of_nat k)
                           then with_S_val (- S_val s) s else s)
                 (nth_error arr k).
Proof.
  induction arr as [|s arr IH]; intros i k; simpl.
  - now destruct k.
  - destruct k as [|k]; simpl.
    + now rewrite Z.add_0_r.
    + rewrite IH. replace (i + 1 + Z.of_nat k) with (i + Z.pos (Pos.of_succ_nat k))
        by lia. reflexivity.
Qed.

Lemma length_flipFrom {double} flips (arr : list (spin double)) i :
  List.length (flipFrom flips i arr) = List.length arr.
Proof. revert i. induction arr as [|s arr IH]; intros i; simpl; auto. Qed.

Lemma sameSpins_flipFrom {double} flips (arr : list (spin double)) :
  sameSpins flips [] arr (flipFrom flips 0 arr).
Proof.
  split; [apply length_flipFrom|].
  intros k s s' Hs Hs'. rewrite nth_error_flipFrom, Hs in Hs'. simpl in Hs'.
  injection Hs' as <-. unfold sameSpin, flipSign.
  replace (0 + Z.of_nat k) with (Z.of_nat k) by lia.
  change (found [] (Z.of_nat k)) with false. cbv iota.
  destruct (found flips (Z.of_nat k)); unfold with_S_val;
    cbn [S_val active coords]; repeat split; lia.
Qed.

Lemma sameSpins_refl {double} flips (arr : list (spin double)) :
  sameSpins flips flips arr arr.
Proof.
  split; [reflexivity|]. intros k s s' Hs Hs'.
  assert (s' = s) by congruence. subst. now repeat split.
Qed.

Section HypotheticalFlips.
Context {EX : Externals R}.

(** X18: Over the real numbers getEffHamiltonian(flips) is the energy of the
    configuration in which the spins of [flips] are really flipped: it
    ends as getEffHamiltonian() does on the model whose spins of [flips]
    are negated (each once, however often its index is listed), with the
    same value, or with std::out_of_range in both cases. *)
Theorem getEffHamiltonian_flips_hypothetically :
  forall (m : IsingModel R) (flips : list Z),
    (exists e,
        getEffHamiltonian flips m = Returned e m /\
        getEffHamiltonian [] (flipSpins flips m)
        = Returned e (flipSpins flips m)) \/
    (getEffHamiltonian flips m = Thrown out_of_range m /\
     getEffHamiltonian [] (flipSpins flips m)
     = Thrown out_of_range (flipSpins flips m)).
Proof.
  intros m flips.
  destruct (alike_getEffHamiltonian flips [] m (flipSpins flips m))
    as [(e & e' & He & He' & <-) | [Ht Ht']].
  - unfold flipSpins, sameCouplings. now destruct m.
  - unfold flipSpins. rewrite spinArray_with_spinArray.
    apply sameSpins_flipFrom.
  - left. now exists e.
  - right. now split.
Qed.

End HypotheticalFlips.

(* ------------------------------------------------------------------ *)
(** ** The cached energy of the single-spin sweeps *)

Lemma nth_error_update {A} (v : list A) i x k :
  nth_error (update v i x) k
  = if Nat.eqb k i
    then match nth_error v k with Some _ => Some x | None => None end
    else nth_error v k.
Proof.
  revert i k. induction v as [|y v IH]; intros i k; simpl.
  - destruct k, i; simpl; try reflexivity. now destruct (Nat.eqb k i).
  - destruct i as [|i], k as [|k]; simpl; try reflexivity. apply IH.
Qed.

Lemma sameSpins_update {double} (arr : list (spin double)) i s :
  nth_error arr i = Some s ->
  sameSpins [Z.of_nat i] [] arr (update arr i (with_S_val (- S_val s) s)).
Proof.
  intros Hs. split; [apply length_update|].
  intros k t t' Ht Ht'. rewrite nth_error_update, Ht in Ht'.
  unfold sameSpin, flipSign. change (found [] (Z.of_nat k)) with false.
  cbn [found existsb]. rewrite orb_false_r.
  destruct (Nat.eqb_spec k i) as [-> | Hne].
  - injection Ht' as <-. assert (t = s) by congruence. subst t.
    rewrite Z.eqb_refl. unfold with_S_val. cbn [S_val active coords].
    repeat split; lia.
  - injection Ht' as <-.
    destruct (Z.eqb_spec (Z.of_nat k) (Z.of_nat i)) as [Heq | _]; [lia|].
    repeat split; lia.
Qed.

Section CachedEnergy.
Context {EX : Externals R} {rng : Type} {RG : RandomGen R rng}.

Lemma coherent_frame (m m' : IsingModel R) :
  sameCouplings m m' -> spinArray m' = spinArray m ->
  currentEffH m' = currentEffH m ->
  coherent m -> coherent m'.
Proof.
  intros Hsame Harr Hcur Hm. unfold coherent in *.
  destruct (alike_getEffHamiltonian [] [] m m' Hsame)
    as [(e & e' & He & He' & <-) | [Ht _]].
  - rewrite Harr. apply sameSpins_refl.
  - rewrite He'. f_equal. congruence.
  - congruence.
Qed.

Lemma flipSpin_explicit (m : IsingModel R) i s :
  0 <= i -> nth_error (spinArray m) (Z.to_nat i) = Some s ->
  flipSpin i m
  = Returned tt
      (with_spinArray
         (update (spinArray m) (Z.to_nat i) (with_S_val (- S_val s) s)) m).
Proof.
  intros Hi Hs.
  assert (Hat : at_ (spinArray m) i m = Returned s m).
  { unfold at_. destruct (Z.ltb_spec i 0); [lia|]. now rewrite Hs. }
  assert (Hlen : i < len (spinArray m)).
  { assert (Z.to_nat i < List.length (spinArray m))%nat
      by (apply nth_error_Some; congruence). unfold len. lia. }
  unfold flipSpin, storeS. rewrite !run_gets. unfold bind at 1. rewrite Hat.
  rewrite run_gets. unfold bind at 1. rewrite Hat.
  unfold bind, set_at.
  destruct (Z.ltb_spec i 0); [lia|].
  destruct (Z.leb_spec (len (spinArray m)) i); [lia|]. reflexivity.
Qed.

(** An accepted flip of spin [i] with the candidate energy [tE]. *)
Lemma accepted_flip_coherent n meth (m : IsingModel R) i tE :
  shape n m -> mcMethod m = meth -> 0 <= i < n ->
  getEffHamiltonian [i] m = Returned tE m ->
  exists m2,
    (flipSpin i ;;; recordFlip tE) m = Returned tt m2 /\
    shape n m2 /\ coherent m2 /\ mcMethod m2 = meth.
Proof.
  intros Hshape Hmeth Hi HtE.
  pose proof Hshape as ((Hcount & Hdims & Hcoords) & Hn).
  destruct (nth_error (spinArray m) (Z.to_nat i)) as [s|] eqn:Hs.
  2:{ apply nth_error_None in Hs. unfold len in Hcount. lia. }
  set (m1 := with_spinArray
               (update (spinArray m) (Z.to_nat i) (with_S_val (- S_val s) s)) m).
  set (m2 := with_currentEffH tE
               (with_mcInfo (mcInfo m1 ++ [dabs (tE - currentEffH m1)%D]) m1)).
  exists m2. split; [|split; [|split]].
  - unfold bind. rewrite (flipSpin_explicit m i s) by (trivial; lia).
    reflexivity.
  - destruct (total_flipSpin n i Hi m Hshape) as ([] & m1' & Hrun & Hshape1).
    rewrite (flipSpin_explicit m i s) in Hrun by (trivial; lia).
    injection Hrun as <-. fold m1 in Hshape1.
    destruct (total_recordFlip n tE m1 Hshape1) as ([] & m2' & Hrun2 & Hshape2).
    unfold recordFlip, bind, gets, modify in Hrun2. injection Hrun2 as <-.
    exact Hshape2.
  - unfold coherent.
    destruct (alike_getEffHamiltonian [i] [] m m2)
      as [(e & e' & He & He' & <-) | [Ht _]].
    + unfold m2, m1, sameCouplings. now destruct m.
    + replace (spinArray m2)
        with (update (spinArray m) (Z.to_nat i) (with_S_val (- S_val s) s))
        by (unfold m2, m1; now destruct m).
      rewrite <- (Z2Nat.id i) at 1 by lia. now apply sameSpins_update.
    + rewrite He'. f_equal.
      replace (currentEffH m2) with tE by (unfold m2, m1; now destruct m).
      congruence.
    + congruence.
  - unfold m2, m1. rewrite <- Hmeth. now destruct m.
Qed.

(** A sweep with a decision that only reads the object. *)
Lemma sweep_coherent n meth
      (accept : R -> rng -> M (IsingModel R) (bool * rng)) r :
  (forall tE r m, exists b r', accept tE r m = Returned (b, r') m) ->
  total (fun s => shape n s /\ coherent s /\ mcMethod s = meth)
        (n' <- gets nSpins ;;
         r <- foldM (fun r i =>
                       tE <- getEffHamiltonian1 i ;;
                       '(spinFlip, r) <- accept tE r ;;
                       (if spinFlip : bool
                        then flipSpin i ;;; recordFlip tE
                        else ret tt) ;;;
                       ret r)
                    (range 0 n') r ;;
         cur <- gets currentEffH ;;
         ret (cur, r))
        (fun '(cur, _) s =>
           (shape n s /\ coherent s /\ mcMethod s = meth) /\
           cur = currentEffH s).
Proof.
  intros Haccept.
  eapply total_bind; [apply total_gets | intros n'].
  eapply (total_bind _ _ _
            (fun _ s => shape n s /\ coherent s /\ mcMethod s = meth)).
  2:{ intros r'. eapply total_bind; [apply total_gets | intros cur].
      apply total_ret. intros s [Hs ->]. now split. }
  intros m [Hm Hn'].
  assert (Heq : n' = n) by (destruct Hm as [[_ Hm'] _]; congruence).
  clear Hn'. subst n'. revert m Hm. apply total_foldM.
  intros r0 i Hi. apply In_range in Hi.
  intros m (Hshape & Hcoh & Hmeth).
  destruct (getEffHamiltonian_returns m [i] (proj1 Hshape)) as [tE HtE].
  destruct (Haccept tE r0 m) as (b & r1 & Hacc).
  unfold getEffHamiltonian1. unfold bind at 1. rewrite HtE.
  unfold bind at 1. rewrite Hacc. destruct b.
  - destruct (accepted_flip_coherent n meth m i tE Hshape Hmeth Hi HtE)
      as (m2 & Hrun & Hshape2 & Hcoh2 & Hmeth2).
    exists r1, m2. unfold bind at 1. rewrite Hrun. split; [reflexivity|].
    exact (conj Hshape2 (conj Hcoh2 Hmeth2)).
  - exists r1, m. split; [reflexivity|].
    exact (conj Hshape (conj Hcoh Hmeth)).
Qed.

Lemma metropolisAccept_reads tE (r : rng) (m : IsingModel R) :
  exists b r', metropolisAccept tE r m = Returned (b, r') m.
Proof.
  unfold metropolisAccept, bind, gets.
  destruct (tE - currentEffH m <? of_int 0)%D; [now eexists _, _|].
  destruct (Uniform r). now eexists _, _.
Qed.

Lemma heatBathAccept_reads tE (r : rng) (m : IsingModel R) :
  exists b r', heatBathAccept tE r m = Returned (b, r') m.
Proof.
  unfold heatBathAccept, bind, gets. cbv zeta.
  destruct (disinf _); [now eexists _, _|].
  destruct (of_int 0 <? _)%D; [|now eexists _, _].
  destruct (Uniform r). now eexists _, _.
Qed.

End CachedEnergy.

Section CachedEnergyOfRuns.
Context {EX : Externals R} {rng : Type} {RG : RandomGen R rng}.

Lemma mcStep_coherent n meth avg g (r : rng) :
  meth = "METROPOLIS"%string \/ meth = "HEATBATH"%string ->
  total (fun s : IsingModel R => shape n s /\ coherent s /\ mcMethod s = meth)
        (mcStep avg g r)
        (fun _ s => shape n s /\ coherent s /\ mcMethod s = meth).
Proof.
  intros Hmeth. unfold mcStep.
  eapply total_bind; [apply total_gets_keep | intros info].
  eapply (total_bind _ _ _
            (fun _ s => shape n s /\ coherent s /\ mcMethod s = meth)).
  { apply total_modify. intros s (Hs & Hc & Hm). split; [|split].
    - now destruct s.
    - apply (coherent_frame s); trivial; now destruct s.
    - rewrite <- Hm. now destruct s. }
  intros ?.
  eapply total_bind; [apply total_gets | intros method].
  eapply (total_bind _ _ _
            (fun _ s => shape n s /\ coherent s /\ mcMethod s = meth)).
  { intros s [HJ Hmethod].
    assert (Hm : method = meth) by (destruct HJ as (_ & _ & <-); exact Hmethod).
    clear Hmethod. revert s HJ. subst method.
    destruct Hmeth as [-> | ->]; cbn [String.eqb Ascii.eqb Bool.eqb andb].
    - eapply total_bind.
      + apply sweep_coherent. apply metropolisAccept_reads.
      + intros [cur r']. apply total_ret. now intros s [HJ _].
    - eapply total_bind.
      + apply sweep_coherent. apply heatBathAccept_reads.
      + intros [cur r']. apply total_ret. now intros s [HJ _]. }
  intros [g' r'].
  eapply (total_bind _ _ _
            (fun _ s => shape n s /\ coherent s /\ mcMethod s = meth)).
  - apply total_if; [|now apply total_ret].
    eapply total_bind; [apply total_gets_keep | intros hinfo].
    apply total_modify. intros s (Hs & Hc & Hm). split; [|split].
    + now destruct s.
    + apply (coherent_frame s); trivial; now destruct s.
    + rewrite <- Hm. now destruct s.
  - intros ?. now apply total_ret.
Qed.

(** X19: With the Metropolis or the Heat Bath policy, runMonteCarlo() on a
    consistent, set-up model with a nonzero thread count returns, and the
    energy it leaves cached in [currentEffH] is the energy of the
    configuration it leaves: a call getEffHamiltonian() on the result
    returns exactly [currentEffH]. *)
Theorem runMonteCarlo_keeps_the_cached_energy :
  forall (m : IsingModel R),
    consistent m ->
    hasBeenSetup m = true ->
    nThreads m <> 0 ->
    mcMethod m = "METROPOLIS"%string \/ mcMethod m = "HEATBATH"%string ->
    exists m',
      runMonteCarlo (RG := RG) m = Returned tt m' /\
      getEffHamiltonian [] m' = Returned (currentEffH m') m'.
Proof.
  intros m Hcons Hflag Hthreads Hmeth.
  unfold runMonteCarlo. rewrite run_gets, Hflag. cbn [negb].
  unfold bind at 1. unfold ret at 1. unfold bind at 1.
  destruct (getEffHamiltonian_returns m [] Hcons) as [e He]. rewrite He.
  unfold bind at 1. unfold modify at 1.
  set (m1 := with_currentEffH e m).
  assert (Hshape1 : shape (nSpins m) m1) by (unfold m1; now destruct m).
  assert (Hcoh1 : coherent m1).
  { unfold coherent.
    destruct (alike_getEffHamiltonian [] [] m m1)
      as [(e0 & e' & He0 & He' & <-) | [Ht _]].
    - unfold m1, sameCouplings. now destruct m.
    - replace (spinArray m1) with (spinArray m) by (unfold m1; now destruct m).
      apply sameSpins_refl.
    - rewrite He'. f_equal.
      replace (currentEffH m1) with e by (unfold m1; now destruct m).
      congruence.
    - congruence. }
  assert (Hmeth1 : mcMethod m1 = mcMethod m) by (unfold m1; now destruct m).
  unfold bind at 1. unfold initialGranularity. rewrite !run_gets.
  replace (nThreads m1) with (nThreads m) by (unfold m1; now destruct m).
  destruct (Z.eqb_spec (nThreads m) 0) as [H0 | _]; [contradiction|].
  unfold ret at 1. rewrite run_gets.
  destruct (total_foldM
              (fun s : IsingModel R =>
                 shape (nSpins m) s /\ coherent s /\ mcMethod s = mcMethod m)
              (fun '(avgAbsDeltaE, nSpinsPerThread, r) _ =>
                 mcStep avgAbsDeltaE nSpinsPerThread r)
              (range 0 (nMCSteps m1)))
    with (acc := (of_int (-1) : R,
                  to_int (dfloor (of_int (Z.quot (nSpins m1) (nThreads m)))),
                  TRandom3_new (RandomGen := RG)))
         (s := m1)
    as (acc & m' & Hrun & (_ & Hcoh' & _)).
  - intros [[avg g] r] x _. now apply mcStep_coherent.
  - exact (conj Hshape1 (conj Hcoh1 Hmeth1)).
  - exists m'. unfold bind. rewrite Hrun. split; [reflexivity | exact Hcoh'].
Qed.

End CachedEnergyOfRuns.

Lemma runMonteCarlo_keeps_the_cached_energy_witness :
  exists m',
    runMonteCarlo (RG := FirstIndex) (lattice4 "METROPOLIS") = Returned tt m' /\
    getEffHamiltonian [] m' = Returned (currentEffH m') m'.
Proof.
  apply (runMonteCarlo_keeps_the_cached_energy (EX := UnitInterval)
           (RG := FirstIndex) (lattice4 "METROPOLIS")).
  - apply consistent_lattice4.
  - reflexivity.
  - discriminate.
  - now left.
Defined.

(* ------------------------------------------------------------------ *)
(** ** The group flip of the Hybrid policy *)

Lemma nth_error_flipTimes {double} flips (arr : list (spin double)) :
  forall i k,
    nth_error (flipTimes flips i arr) k
    = option_map (fun s => if Nat.odd (count_occ Z.eq_dec flips (i + Z.of_nat k))
                           then with_S_val (- S_val s) s else s)
                 (nth_error arr k).
Proof.
  induction arr as [|s arr IH]; intros i k.
  - now destruct k.
  - destruct k as [|k]; cbn [flipTimes nth_error option_map].
    + now replace (i + Z.of_nat 0) with i by lia.
    + rewrite IH. now replace (i + 1 + Z.of_nat k) with (i + Z.of_nat (S k)) by lia.
Qed.

Lemma length_flipTimes {double} flips (arr : list (spin double)) i :
  List.length (flipTimes flips i arr) = List.length arr.
Proof. revert i. induction arr as [|s arr IH]; intros i; simpl; auto. Qed.

Lemma flipTimes_nil {double} (arr : list (spin double)) i :
  flipTimes [] i arr = arr.
Proof. revert i. induction arr as [|s arr IH]; intros i; simpl; now rewrite ?IH. Qed.

(** On a group without repetition the spins negated are those of the
    group. *)
Lemma flipTimes_NoDup {double} flips (arr : list (spin double)) i :
  NoDup flips -> flipTimes flips i arr = flipFrom flips i arr.
Proof.
  intros Hnd. revert i. induction arr as [|s arr IH]; intros i; simpl.
  - reflexivity.
  - rewrite IH. f_equal.
    destruct (found flips i) eqn:Hf.
    + apply found_In in Hf.
      now rewrite (proj1 (NoDup_count_occ' Z.eq_dec flips) Hnd i Hf).
    + assert (Hni : ~ In i flips).
      { intros Hi. apply found_In in Hi. congruence. }
      apply (count_occ_not_In Z.eq_dec) in Hni. now rewrite Hni.
Qed.

Lemma negate_twice {double} (s : spin double) :
  with_S_val (- S_val (with_S_val (- S_val s) s)) (with_S_val (- S_val s) s) = s.
Proof. destruct s. unfold with_S_val. simpl. f_equal. lia. Qed.

Lemma flipTimes_snoc {double} pre k (arr : list (spin double)) s :
  nth_error (flipTimes pre 0 arr) (Z.to_nat k) = Some s -> 0 <= k ->
  update (flipTimes pre 0 arr) (Z.to_nat k) (with_S_val (- S_val s) s)
  = flipTimes (pre ++ [k]) 0 arr.
Proof.
  intros Hs Hk. apply nth_error_ext. intros j.
  rewrite nth_error_update, !nth_error_flipTimes.
  rewrite count_occ_app. cbn [count_occ]. replace (0 + Z.of_nat j) with (Z.of_nat j) by lia.
  destruct (Nat.eqb_spec j (Z.to_nat k)) as [-> | Hne].
  - rewrite nth_error_flipTimes in Hs.
    replace (0 + Z.of_nat (Z.to_nat k)) with k in Hs by lia.
    rewrite Z2Nat.id by lia.
    destruct (nth_error arr (Z.to_nat k)) as [s0|]; [|discriminate].
    cbn [option_map] in *. injection Hs as <-.
    destruct (Z.eq_dec k k) as [_ | Hkk]; [|contradiction].
    rewrite Nat.add_1_r, Nat.odd_succ, <- Nat.negb_odd.
    destruct (Nat.odd (count_occ Z.eq_dec pre k)); cbn [negb].
    + now rewrite negate_twice.
    + reflexivity.
  - destruct (Z.eq_dec k (Z.of_nat j)) as [Heq | _]; [lia|].
    now rewrite Nat.add_0_r.
Qed.

Section GroupFlip.
Context {EX : Externals R}.

(** The loop of hybridStep over the group [pre ++ rest], from the index
    of the first element of [rest] on. *)
Lemma hybridStep_loop (arr : list (spin R)) (rest : list Z) :
  forall (pre : list Z) (m : IsingModel R),
    spinArray m = flipTimes pre 0 arr ->
    Forall (fun i => 0 <= i < len arr) rest ->
    foldM (fun _ i => k <- at_ (pre ++ rest) i ;; flipSpin k)
          (range (len pre) (len pre + len rest)) tt m
    = Returned tt (with_spinArray (flipTimes (pre ++ rest) 0 arr) m).
Proof.
  induction rest as [|k rest IH]; intros pre m Harr Hrange.
  - rewrite range_nil by (unfold len; simpl; lia). simpl.
    rewrite app_nil_r, <- Harr, with_spinArray_same. reflexivity.
  - rewrite range_cons by (unfold len; simpl; lia).
    inversion Hrange as [|? ? Hk Hrest]; subst.
    cbn [foldM]. unfold bind at 1. unfold bind at 1. rewrite at_middle.
    destruct (nth_error (spinArray m) (Z.to_nat k)) as [s|] eqn:Hs.
    2:{ apply nth_error_None in Hs. rewrite Harr, length_flipTimes in Hs.
        unfold len in Hk. lia. }
    rewrite (flipSpin_explicit m k s) by (trivial; lia).
    rewrite Harr in *. rewrite (flipTimes_snoc pre k arr s Hs) by lia.
    specialize (IH (pre ++ [k])
                   (with_spinArray (flipTimes (pre ++ [k]) 0 arr) m)).
    rewrite len_app in IH. change (len [k]) with 1 in IH.
    replace (len pre + len (k :: rest)) with (len pre + 1 + len rest)
      by (unfold len; simpl; lia).
    rewrite <- app_assoc in IH. cbn [app] in IH.
    rewrite IH.
    + now rewrite with_spinArray_twice.
    + now rewrite spinArray_with_spinArray.
    + exact Hrest.
Qed.

(** hybridStep on a consistent model and a group of indices in range. *)
Lemma hybridStep_explicit (m : IsingModel R) (u : R) (spinFlips : list Z) :
  consistent m ->
  Forall (fun i => 0 <= i < nSpins m) spinFlips ->
  exists tE,
    getEffHamiltonian spinFlips m = Returned tE m /\
    hybridStep u spinFlips m
    = Returned tt
        (if (if (tE - currentEffH m <? of_int 0)%D then true
             else (u <? dexp (currentEffH m - tE))%D)
         then with_currentEffH tE
                (with_mcInfo (mcInfo m ++ [dabs (tE - currentEffH m)%D])
                   (with_spinArray (flipTimes spinFlips 0 (spinArray m)) m))
         else m).
Proof.
  intros Hcons Hrange.
  destruct (getEffHamiltonian_returns m spinFlips Hcons) as [tE HtE].
  exists tE. split; [exact HtE|].
  unfold hybridStep. unfold bind at 1. rewrite HtE. rewrite run_gets.
  cbv zeta.
  destruct (if (tE - currentEffH m <? of_int 0)%D then true
            else (u <? dexp (currentEffH m - tE))%D); [|reflexivity].
  unfold bind at 1.
  pose proof (hybridStep_loop (spinArray m) spinFlips [] m) as Hloop.
  cbn [app] in Hloop. change (len (@nil Z)) with 0 in Hloop.
  rewrite Z.add_0_l in Hloop. rewrite Hloop.
  - unfold recordFlip, bind, gets, modify. f_equal. now destruct m.
  - now rewrite flipTimes_nil.
  - destruct Hcons as (<- & _). exact Hrange.
Qed.

(** X20: hybridStep(rng, spinFlips) on a consistent model, with every index of
    the group in range, returns.  When it rejects, the object is as
    before.  When it accepts, each spin has been negated once for each
    time its index occurs in the group, so that an index occurring twice
    keeps its value; the difference of the energies is pushed on [mcInfo]
    and the candidate energy [tE], computed with every index of the group
    flipped once, is stored in [currentEffH]. *)
Theorem hybridStep_negates_once_per_occurrence :
  forall (m : IsingModel R) (u : R) (spinFlips : list Z),
    consistent m ->
    Forall (fun i => 0 <= i < nSpins m) spinFlips ->
    exists tE,
      getEffHamiltonian spinFlips m = Returned tE m /\
      hybridStep u spinFlips m
      = Returned tt
          (if (if (tE - currentEffH m <? of_int 0)%D then true
               else (u <? dexp (currentEffH m - tE))%D)
           then with_currentEffH tE
                  (with_mcInfo (mcInfo m ++ [dabs (tE - currentEffH m)%D])
                     (with_spinArray (flipTimes spinFlips 0 (spinArray m)) m))
           else m).
Proof. exact hybridStep_explicit. Qed.

(** X21: hybridStep on a consistent model and a group of indices in range,
    none repeated, is all or nothing: either it rejects and the object is
    as before, or every spin of the group and no other is negated, and the
    energy it stores in [currentEffH] is the energy of the new
    configuration, the one a call getEffHamiltonian() then returns. *)
Theorem hybridStep_flips_the_group_or_nothing :
  forall (m : IsingModel R) (u : R) (spinFlips : list Z),
    consistent m ->
    Forall (fun i => 0 <= i < nSpins m) spinFlips ->
    NoDup spinFlips ->
    exists m',
      hybridStep u spinFlips m = Returned tt m' /\
      (m' = m \/
       (spinArray m' = flipFrom spinFlips 0 (spinArray m) /\
        getEffHamiltonian [] m' = Returned (currentEffH m') m')).
Proof.
  intros m u spinFlips Hcons Hrange Hnd.
  destruct (hybridStep_explicit m u spinFlips Hcons Hrange) as (tE & HtE & Hrun).
  rewrite Hrun.
  destruct (if (tE - currentEffH m <? of_int 0)%D then true
            else (u <? dexp (currentEffH m - tE))%D).
  2:{ exists m. split; [reflexivity | now left]. }
  rewrite (flipTimes_NoDup _ _ _ Hnd).
  set (m' := with_currentEffH tE _).
  assert (Harr : spinArray m' = flipFrom spinFlips 0 (spinArray m))
    by (unfold m'; now destruct m).
  exists m'. split; [reflexivity|]. right. split; [exact Harr|].
  destruct (alike_getEffHamiltonian spinFlips [] m m')
    as [(e & e' & He & He' & <-) | [Ht _]].
  - unfold m', sameCouplings. now destruct m.
  - rewrite Harr. apply sameSpins_flipFrom.
  - rewrite He'. f_equal.
    replace (currentEffH m') with tE by (unfold m'; now destruct m).
    congruence.
  - congruence.
Qed.

End GroupFlip.

Lemma hybridStep_negates_once_per_occurrence_witness :
  exists tE,
    getEffHamiltonian [0; 0; 1] (lattice4 "HYBRID") = Returned tE (lattice4 "HYBRID") /\
    hybridStep (1 / 2)%R [0; 0; 1] (lattice4 "HYBRID")
    = Returned tt
        (if (if (tE - currentEffH (lattice4 "HYBRID") <? of_int 0)%D then true
             else ((1 / 2)%R <? dexp (currentEffH (lattice4 "HYBRID") - tE))%D)
         then with_currentEffH tE
                (with_mcInfo (mcInfo (lattice4 "HYBRID")
                              ++ [dabs (tE - currentEffH (lattice4 "HYBRID"))%D])
                   (with_spinArray
                      (flipTimes [0; 0; 1] 0 (spinArray (lattice4 "HYBRID")))
                      (lattice4 "HYBRID")))
         else lattice4 "HYBRID").
Proof.
  apply (hybridStep_negates_once_per_occurrence (EX := UnitInterval)
           (lattice4 "HYBRID") (1 / 2)%R [0; 0; 1]).
  - apply consistent_lattice4.
  - repeat (apply Forall_cons; [cbn; lia|]). apply Forall_nil.
Defined.

Lemma hybridStep_flips_the_group_or_nothing_witness :
  exists m',
    hybridStep (1 / 2)%R [2; 0] (lattice4 "HYBRID") = Returned tt m' /\
    (m' = lattice4 "HYBRID" \/
     (spinArray m' = flipFrom [2; 0] 0 (spinArray (lattice4 "HYBRID")) /\
      getEffHamiltonian [] m' = Returned (currentEffH m') m')).
Proof.
  apply (hybridStep_flips_the_group_or_nothing (EX := UnitInterval)
           (lattice4 "HYBRID") (1 / 2)%R [2; 0]).
  - apply consistent_lattice4.
  - repeat (apply Forall_cons; [cbn; lia|]). apply Forall_nil.
  - repeat constructor; cbn; intuition lia.
Defined.

(* ------------------------------------------------------------------ *)
(** ** The groups of one Hybrid step *)

Lemma bind_returned {St A B} (c : M St A) (k : A -> M St B) s b s' :
  bind c k s = Returned b s' ->
  exists a s1, c s = Returned a s1 /\ k a s1 = Returned b s'.
Proof.
  unfold bind. destruct (c s) as [a s1| | | |]; try discriminate.
  intros H. now exists a, s1.
Qed.

Lemma erase_permutation {A} (v : list A) k x :
  nth_error v k = Some x -> Permutation (x :: erase v k) v.
Proof.
  revert k. induction v as [|y v IH]; intros k Hk.
  - now destruct k.
  - destruct k as [|k]; simpl in *.
    + injection Hk as ->. reflexivity.
    + rewrite perm_swap. apply perm_skip. now apply IH.
Qed.

Section GroupsOfAStep.
Context {double rng : Type} {FO : FloatOps double} {EX : Externals double}
        {RG : RandomGen double rng}.
#[local] Abbreviation model := (IsingModel double).

(** The drawing loop moves indices from the pool to the group. *)
Lemma drawing_permutes (l : list Z) :
  forall spinFlips popVector popVectorSize (r : rng) (s : model)
         spinFlips' popVector' popVectorSize' r' s',
    foldM drawIndex l (spinFlips, popVector, popVectorSize, r) s
    = Returned (spinFlips', popVector', popVectorSize', r') s' ->
    Permutation (spinFlips' ++ popVector') (spinFlips ++ popVector) /\
    (len popVector = popVectorSize -> len popVector' = popVectorSize').
Proof.
  induction l as [|j l IH];
    intros flips pop size r s flips' pop' size' r' s' Hrun.
  - simpl in Hrun. unfold ret in Hrun. injection Hrun as <- <- <- _ _.
    split; [reflexivity | trivial].
  - simpl foldM in Hrun. apply bind_returned in Hrun.
    destruct Hrun as ([[[flips1 pop1] size1] r1] & s1 & Hdraw & Hrest).
    apply IH in Hrest. destruct Hrest as [Hperm Hlen]. clear IH.
    unfold drawIndex in Hdraw. destruct (Integer size r) as [index r0].
    apply bind_returned in Hdraw. destruct Hdraw as (x & s0 & Hat & Hret).
    unfold ret in Hret. injection Hret as <- <- <- _ _.
    unfold at_ in Hat. destruct (Z.ltb_spec index 0); [discriminate|].
    destruct (nth_error pop (Z.to_nat index)) as [y|] eqn:Hy; [|discriminate].
    injection Hat as -> _. split.
    + rewrite Hperm, <- app_assoc. apply Permutation_app_head. cbn [app].
      now apply erase_permutation.
    + intros Hsize. apply Hlen.
      assert (Z.to_nat index < List.length pop)%nat
        by (apply nth_error_Some; congruence).
      unfold len in *. rewrite length_erase by lia. lia.
Qed.

Lemma drawSpinFlips_permutes g pop size (r : rng) (s : model)
      spinFlips' pop' size' r' s' :
  drawSpinFlips g pop size r s = Returned (spinFlips', pop', size', r') s' ->
  (exists k, Permutation (spinFlips' ++ pop') (repeat 0 k ++ pop)) /\
  (len pop = size -> len pop' = size').
Proof.
  unfold drawSpinFlips. cbv zeta. destruct (len pop <? g).
  - unfold ret. intros H. injection H as <- <- <- _ _. split; [|reflexivity].
    exists O. now rewrite app_nil_r.
  - intros H. apply drawing_permutes in H. destruct H as [Hperm Hlen].
    split; [now exists (Z.to_nat g) | exact Hlen].
Qed.

(** The groups handed to hybridStep hold the indices of the pool, each
    as often as the pool does, and the zeros of the padding. *)
Lemma hybridThreads_permutes g (fuel : nat) :
  forall pop size (r : rng) groups (s : model) groups' r' s',
    len pop = size ->
    hybridThreads fuel g pop size r groups s = Returned (groups', r') s' ->
    exists k,
      Permutation (List.concat groups')
                  (repeat 0 k ++ List.concat groups ++ pop).
Proof.
  induction fuel as [|fuel IH];
    intros pop size r groups s groups' r' s' Hlen Hrun.
  - simpl in Hrun. destruct (Z.ltb_spec 0 size) as [|Hsize]; [discriminate|].
    unfold ret in Hrun. injection Hrun as <- _ _. exists O.
    destruct pop; [now rewrite app_nil_r|].
    rewrite len_cons in Hlen. pose proof (len_nonneg pop). lia.
  - simpl in Hrun. destruct (Z.ltb_spec 0 size) as [Hpos|Hsize].
    + apply bind_returned in Hrun.
      destruct Hrun as ([[[flips1 pop1] size1] r1] & s1 & Hdraw & Hrest).
      apply drawSpinFlips_permutes in Hdraw.
      destruct Hdraw as [[k1 Hperm1] Hlen1]. specialize (Hlen1 Hlen).
      destruct (Uniform r1) as [u r2].
      apply bind_returned in Hrest. destruct Hrest as ([] & s2 & _ & Hrest).
      apply (IH _ _ _ _ _ _ _ _ Hlen1) in Hrest. destruct Hrest as [k Hperm].
      exists (k + k1)%nat. rewrite Hperm, concat_app. cbn [List.concat].
      rewrite app_nil_r, repeat_app, <- !app_assoc.
      apply Permutation_app_head.
      rewrite (Permutation_app_swap_app (repeat 0 k1)).
      apply Permutation_app_head. now rewrite Hperm1.
    + unfold ret in Hrun. injection Hrun as <- _ _. exists O.
      destruct pop; [now rewrite app_nil_r|].
      rewrite len_cons in Hlen. pose proof (len_nonneg pop). lia.
Qed.

End GroupsOfAStep.

Section GroupsOnReals.
Context {EX : Externals R} {rng : Type} {RG : RandomGen R rng}.

(** X22: In one round of the Hybrid policy every index of the pool is handed
    to hybridStep in exactly one group: with a generator that keeps the
    contract of Integer, on a consistent model of [n] spins, a group size
    of at least one and enough fuel for one round per index, the loop
    over the threads returns, and the groups it made hold, together, the
    indices of the pool, each as often as the pool does, besides the
    zeros that the construction of [spinFlips] puts in front of the drawn
    indices. *)
Theorem hybridThreads_hands_each_index_to_one_group :
  forall (n g : Z) (fuel : nat) (pop : list Z) (r : rng) (m : IsingModel R),
    validGenerator RG ->
    consistent m -> nSpins m = n ->
    1 <= g ->
    len pop <= Z.of_nat fuel ->
    Forall (fun i => 0 <= i < n) pop ->
    exists groups r' m' k,
      hybridThreads fuel g pop (len pop) r [] m = Returned (groups, r') m' /\
      Permutation (List.concat groups) (repeat 0 k ++ pop).
Proof.
  intros n g fuel pop r m Hvalid Hcons Hn Hg Hfuel Hpop.
  destruct (total_hybridThreads n Hvalid g fuel Hg pop (len pop) r []
              Hfuel eq_refl Hpop m (conj Hcons Hn))
    as ([groups r'] & m' & Hrun & _).
  destruct (hybridThreads_permutes g fuel pop (len pop) r [] m groups r' m'
              eq_refl Hrun) as [k Hperm].
  exists groups, r', m', k. split; [exact Hrun | exact Hperm].
Qed.

End GroupsOnReals.

Lemma hybridThreads_hands_each_index_to_one_group_witness :
  exists groups r' m' k,
    hybridThreads (RG := FirstIndex) 4 2 (range 0 4) (len (range 0 4)) tt []
                  (lattice4 "HYBRID")
    = Returned (groups, r') m' /\
    Permutation (List.concat groups) (repeat 0 k ++ range 0 4).
Proof.
  apply (hybridThreads_hands_each_index_to_one_group (EX := UnitInterval)
           (RG := FirstIndex) 4 2 4 (range 0 4) tt (lattice4 "HYBRID")).
  - exact validGenerator_FirstIndex.
  - apply consistent_lattice4.
  - reflexivity.
  - lia.
  - vm_compute. discriminate.
  - repeat (apply Forall_cons; [cbn; lia|]). apply Forall_nil.
Defined.

(* ------------------------------------------------------------------ *)
(** ** Calls in sequence *)

Section Sequences.
Context {EX : Externals R} {rng : Type} {RG : RandomGen R rng}.



End Sequences.



(* ------------------------------------------------------------------ *)
(** ** The invariant of the object *)

Section Invariant.
Context {double rng : Type} {FO : FloatOps double} {EX : Externals double}
        {RG : RandomGen double rng}.

(** X25: Whatever calls are made on a new object, in any order and with any
    arguments, returning or throwing, of the setters, getMagnetization,
    getEffHamiltonian, computePartitionFunction, setup, runMonteCarlo,
    reset, randomizeSpins and setAllSpins: [nSpins] is the size of
    [spinArray], every spin is active, and an object whose "set up" flag
    is set has at least one spin.  No call breaks the count, and no call
    deactivates a spin. *)
Theorem member_calls_keep_the_spins_counted :
  forall (m : IsingModel double),
    reachable (rng := rng) m ->
    nSpins m = len (spinArray m) /\
    Forall (fun s => active s = true) (spinArray m) /\
    (hasBeenSetup m = true -> 0 < nSpins m).
Proof.
  intros m Hreach.
  destruct (reachable_wellFormed m Hreach) as ((Hcount & Hactive) & Hpos).
  split; [exact Hcount|]. split; [exact Hactive | exact Hpos].
Qed.

End Invariant.

(** The four-spin lattice that setup() builds from a new object. *)
Lemma member_calls_keep_the_spins_counted_witness :
  nSpins (lattice4 "HYBRID") = len (spinArray (lattice4 "HYBRID")) /\
  Forall (fun s => active s = true) (spinArray (lattice4 "HYBRID")) /\
  (hasBeenSetup (lattice4 "HYBRID") = true -> 0 < nSpins (lattice4 "HYBRID")).
Proof.
  apply (member_calls_keep_the_spins_counted (EX := UnitInterval)
           (RG := FirstIndex)).
  apply lattice4_reachable.
Defined.

(* ------------------------------------------------------------------ *)
(** ** A second setup() without reset() *)

Lemma foldM_returned_each {St A B} (body : A -> B -> M St A) (l : list B) :
  (forall acc x, readonly (body acc x)) ->
  forall acc s r s',
    foldM body l acc s = Returned r s' ->
    forall x, In x l -> exists a0 r0, body a0 x s = Returned r0 s.
Proof.
  intros Hbody. induction l as [|y l IH]; intros acc s r s' Hrun x Hx.
  - destruct Hx.
  - simpl in Hrun. apply bind_returned in Hrun.
    destruct Hrun as (a1 & s1 & Hy & Hrest).
    destruct (Hbody acc y s) as [[a' Ha'] | Ht]; [|congruence].
    assert (s1 = s) by congruence. subst s1.
    destruct Hx as [<- | Hx].
    + now exists acc, a'.
    + exact (IH a1 s r s' Hrest x Hx).
Qed.

Section EnergyReadsCoordinates.
Context {EX : Externals R}.

(** getEffHamiltonian reads, of every active spin, the coordinate of the
    last lattice axis: on a model of at least two spins it returns only
    when every active spin has a coordinate for each lattice dimension. *)
Lemma getEffHamiltonian_reads_every_axis (m : IsingModel R) flips e i s :
  getEffHamiltonian flips m = Returned e m ->
  2 <= nSpins m ->
  0 <= i < nSpins m ->
  nth_error (spinArray m) (Z.to_nat i) = Some s ->
  active s = true ->
  len (latticeDimensions m) <= len (coords s).
Proof.
  intros Hret Hn Hi Hs Hact.
  destruct (Z.le_gt_cases (len (latticeDimensions m)) (len (coords s)))
    as [Hle | Hshort]; [exact Hle | exfalso].
  unfold getEffHamiltonian in Hret. rewrite run_gets in Hret.
  eapply foldM_returned_each with (x := i) in Hret.
  2:{ intros acc x.
      repeat first [ apply readonly_geth | apply readonly_neighbourTerm
                   | readonly_step ]. }
  2:{ apply In_range. exact Hi. }
  destruct Hret as (energy & r0 & Hbody).
  rewrite run_gets in Hbody.
  assert (Hat : at_ (spinArray m) i m = Returned s m).
  { unfold at_. destruct (Z.ltb_spec i 0); [lia|]. now rewrite Hs. }
  unfold bind at 1 in Hbody. rewrite Hat, Hact in Hbody. cbn [negb] in Hbody.
  cbv zeta in Hbody. apply bind_returned in Hbody.
  destruct Hbody as (h & s1 & Hh & Hbody).
  assert (s1 = m) by (unfold geth, bind, gets, ret in Hh; congruence).
  subst s1. clear Hh. rewrite run_gets in Hbody.
  set (p := len (latticeDimensions m)) in *.
  assert (Hp : 1 <= p) by (pose proof (len_nonneg (coords s)); lia).
  eapply foldM_returned_each with (x := p - 1) in Hbody.
  2:{ intros acc x.
      repeat first [ apply readonly_geth | apply readonly_neighbourTerm
                   | readonly_step ]. }
  2:{ apply In_range. lia. }
  destruct Hbody as (energy1 & r1 & Hj).
  assert (Hthrow : forall B (k : R -> M (IsingModel R) B),
             bind (at_ (coords s) (p - 1)) k m = Thrown out_of_range m).
  { intros B k. apply run_at_throw.
    - apply Z.ltb_ge. lia.
    - apply nth_error_None. unfold len in Hshort. lia. }
  destruct (at_outcome (latticeDimensions m) (p - 1) m) as [(dj & Hdj & _) | Hdj].
  2:{ unfold bind at 1 in Hj. rewrite Hdj in Hj. discriminate. }
  unfold bind at 1 in Hj. rewrite Hdj in Hj. cbv zeta in Hj.
  replace (p - 1 - (p - 1)) with 0 in Hj by lia.
  change (dpow (of_int dj) (of_int 0)) with (real_pow (IZR dj) 0) in Hj.
  rewrite real_pow_0 in Hj.
  unfold andM at 1 in Hj. rewrite run_assoc, run_ret in Hj.
  change (of_int 1) with 1%R in Hj. change (of_int i) with (IZR i) in Hj.
  change (of_int (nSpins m)) with (IZR (nSpins m)) in Hj.
  change ((1%R - 1%R <? IZR i)%D) with (real_ltb (1 - 1)%R (IZR i)) in Hj.
  destruct (Z.eq_dec i 0) as [-> | Hi0].
  - rewrite real_ltb_false in Hj by (simpl; lra).
    rewrite run_ret in Hj. rewrite run_ret in Hj.
    unfold andM at 1 in Hj. rewrite run_assoc, run_ret in Hj.
    change ((IZR 0 + 1%R <? IZR (nSpins m))%D)
      with (real_ltb (IZR 0 + 1)%R (IZR (nSpins m))) in Hj.
    rewrite real_ltb_true in Hj.
    2:{ apply IZR_le in Hn. simpl in *. lra. }
    unfold andM at 1 in Hj. rewrite !run_assoc, Hthrow in Hj. discriminate.
  - rewrite real_ltb_true in Hj.
    2:{ assert (1 <= i) as Hi1 by lia. apply IZR_le in Hi1. lra. }
    unfold andM at 1 in Hj. rewrite !run_assoc, Hthrow in Hj. discriminate.
Qed.

End EnergyReadsCoordinates.

Lemma computePartitionFunction_rec_throws {EX : Externals R}
      (fuel : nat) (start : Z) (flips : list Z) (m : IsingModel R) :
  start < nSpins m ->
  getEffHamiltonian (flips ++ [start]) m = Thrown out_of_range m ->
  computePartitionFunction_rec (S fuel) start flips m = Thrown out_of_range m.
Proof.
  intros Hstart Hthrow. cbn [computePartitionFunction_rec].
  rewrite run_gets. destruct (Z.leb_spec (nSpins m) start); [lia|].
  cbv zeta. unfold bind at 1. now rewrite Hthrow.
Qed.

(** C1, the failing input: a new object, setup(), setTemperature(2), which
    clears the "set up" flag, and setup() again.  The second setup() adds
    a lattice dimension and sixteen spins of two coordinates to the four
    spins of one coordinate, and sets the flag.  On this set-up model
    getEffHamiltonian reads the second coordinate of a spin that has one:
    std::out_of_range escapes from it and from
    computePartitionFunction(0, {}), which returns no sum. *)
Theorem computePartitionFunction_throws_after_a_second_setup :
  exists (fuel : nat) (m2 : IsingModel R),
    (setup 2 ;;; setTemperature 2%R ;;; setup fuel) (newIsingModel "HYBRID" 0%R)
    = Returned tt m2 /\
    hasBeenSetup m2 = true /\
    nSpins m2 = 20 /\
    latticeDimensions m2 = [4; 4] /\
    In (site 0) (spinArray m2) /\
    getEffHamiltonian [] m2 = Thrown out_of_range m2 /\
    computePartitionFunction 0 [] m2 = Thrown out_of_range m2.
Proof.
  set (m1 := with_hasBeenSetup false (with_kbT 2%R (lattice4 "HYBRID"))).
  assert (Hceil : - Int_part (- hausdorffDim m1) = 1) by exact ceil_1.
  assert (Hslices : real_trunc (hausdorffSlices m1) = 2)
    by (apply (real_trunc_IZR 2); lia).
  destruct (setup_spec (EX := UnitInterval) m1) as [fuel0 Hsetup].
  - reflexivity.
  - rewrite Hceil. lia.
  - rewrite Hslices. lia.
  - simpl. lia.
  - change (hausdorffMethod m1) with "SCALING"%string.
    change (String.eqb "SCALING" "SCALING") with true. cbv iota.
    apply (scaling_passes_the_check 1 2); lra.
  - destruct (Hsetup fuel0 (le_n fuel0))
      as (added & arr' & Hrun & Hperm & Hlen & _).
    rewrite Hceil, Hslices in Hrun, Hlen.
    change (hausdorffSlices m1) with 2%R in Hrun, Hlen.
    change (latticeDepth m1) with 1 in Hrun, Hlen.
    change (latticeDimensions m1) with [4] in Hrun, Hlen.
    change (nSpins m1) with 4 in Hrun.
    rewrite real_pow_1 in Hrun, Hlen by lra.
    rewrite (real_trunc_of (2 * 2) 4) in Hrun, Hlen by (try lra; lia).
    change (len ([4] ++ repeat 4 (Z.to_nat 1))) with 2 in Hrun, Hlen.
    change (2 ^ (2 * 1) * 2 ^ 2) with 16 in Hrun, Hlen.
    change ([4] ++ repeat 4 (Z.to_nat 1)) with [4; 4] in Hrun.
    change (4 + 16) with 20 in Hrun.
    match type of Hrun with _ = Returned tt ?X => set (m2 := X) in * end.
    assert (Harr : spinArray m2 = arr') by reflexivity.
    assert (Hn : nSpins m2 = 20) by reflexivity.
    assert (Hdims : latticeDimensions m2 = [4; 4]) by reflexivity.
    assert (Hin : In (site 0) arr').
    { eapply Permutation_in; [exact Hperm|]. apply in_or_app. left.
      simpl. now left. }
    assert (Hlength : List.length arr' = 20%nat).
    { rewrite <- (Permutation_length Hperm), length_app.
      unfold len in Hlen. change (spinArray m1) with (spinArray (lattice4 "HYBRID")).
      simpl. lia. }
    assert (Henergy : forall flips,
               getEffHamiltonian flips m2 = Thrown out_of_range m2).
    { intros flips.
      destruct (readonly_getEffHamiltonian flips m2) as [[e He] | Ht];
        [exfalso | exact Ht].
      destruct (In_nth_error _ _ Hin) as [k Hk].
      assert (Hklt : (k < 20)%nat).
      { rewrite <- Hlength. apply nth_error_Some. congruence. }
      pose proof (getEffHamiltonian_reads_every_axis m2 flips e (Z.of_nat k)
                    (site 0) He) as Hcoords.
      rewrite Hn, Hdims, Harr, Nat2Z.id in Hcoords.
      specialize (Hcoords ltac:(lia) ltac:(lia) Hk eq_refl).
      unfold len in Hcoords. simpl in Hcoords. lia. }
    exists fuel0, m2.
    split; [|split; [reflexivity|]; split; [exact Hn|]; split; [exact Hdims|];
             split; [rewrite Harr; exact Hin|]; split; [apply Henergy|]].
    + unfold bind at 1. rewrite setup_new_model.
      unfold bind at 1.
      replace (setTemperature 2%R (lattice4 "HYBRID")) with (Returned tt m1).
      * exact Hrun.
      * unfold setTemperature. change (of_int 0) with 0%R.
        change ((2 <? 0)%D) with (real_ltb 2 0).
        rewrite real_ltb_false by lra. reflexivity.
    + unfold computePartitionFunction. rewrite run_gets, Hn.
      change (Z.to_nat (20 - 0)) with (S 19).
      apply computePartitionFunction_rec_throws; [lia | apply Henergy].
Qed.

(* ------------------------------------------------------------------ *)
(** ** The partition function of a consistent set-up model *)

Section SetUpModels.
Context {EX : Externals R} {rng : Type} {RG : RandomGen R rng}.

(** X26: Over the real numbers, on every state an object can reach in
    which the "set up" flag is set and the geometry is consistent (every
    lattice dimension is positive and every spin has one coordinate per
    lattice dimension, as after one setup() on a new or reset object),
    computePartitionFunction(0, {}) returns a value, and this value is the
    sum of exp(getEffHamiltonian(F)) over the flip sets F of
    [allFlipSets].  There are 2^N of them, N the number of active spins,
    and each assignment of "flipped" or "not flipped" to the spin indices
    is the membership of exactly one of them, so every configuration is
    counted once. *)
Theorem computePartitionFunction_sums_all_configurations :
  forall (m : IsingModel R),
    reachable (rng := rng) m ->
    hasBeenSetup m = true ->
    consistent m ->
    exists z,
      computePartitionFunction 0 [] m = Returned z m /\
      boltzmannSum (allFlipSets (nSpins m)) m = Returned z m /\
      List.length (allFlipSets (nSpins m)) = (2 ^ activeCount m)%nat /\
      NoDup (allFlipSets (nSpins m)) /\
      (forall flipped : Z -> bool,
          exists F,
            In F (allFlipSets (nSpins m)) /\
            (forall i, 0 <= i < nSpins m -> found F i = flipped i) /\
            (forall F',
                In F' (allFlipSets (nSpins m)) ->
                (forall i, 0 <= i < nSpins m -> found F' i = flipped i) ->
                F' = F)).
Proof.
  intros m Hreach Hflag Hcons.
  destruct (partition_function_of_setUpState
              (FO := RealOps) Rplus_comm
              (fun x y z => eq_sym (Rplus_assoc x y z)) Rplus_0_l m)
    as (Hsum & Hcount & Hnodup & Hone).
  { now apply (reachable_setUpState (rng := rng)). }
  destruct (boltzmannSum_returns m (allFlipSets (nSpins m)) Hcons) as [z Hz].
  exists z. split; [now rewrite Hsum|]. split; [exact Hz|].
  split; [exact Hcount|]. split; [exact Hnodup | exact Hone].
Qed.

End SetUpModels.

(** On the four-spin lattice that setup() leaves from a new object the
    call returns the sum over the 16 flip sets. *)
Lemma computePartitionFunction_sums_all_configurations_witness :
  exists z,
    computePartitionFunction 0 [] (lattice4 "HYBRID")
      = Returned z (lattice4 "HYBRID") /\
    boltzmannSum (allFlipSets 4) (lattice4 "HYBRID")
      = Returned z (lattice4 "HYBRID") /\
    List.length (allFlipSets 4) = 16%nat.
Proof.
  destruct (computePartitionFunction_sums_all_configurations
              (EX := UnitInterval) (RG := FirstIndex) (lattice4 "HYBRID"))
    as (z & Hrun & Hsum & _).
  - apply lattice4_reachable.
  - reflexivity.
  - apply consistent_lattice4.
  - exists z. split; [exact Hrun|]. split; [exact Hsum | reflexivity].
Defined.
